(** * Infi-RAG: validation, persistence and term-frequency retrieval

    A shallow embedding of the retrieval core of the repository and of the
    component that drives it:

    - [src/lib/cosine-similarity.ts]: [tokenize], [createVocabulary],
      [createTfVector], [cosineSimilarity], [precomputeVectors],
      [performSearch];
    - [src/lib/db.ts]: [saveVectorData], [getAllVectorStoresMeta],
      [getVectorStore], [deleteVectorStore];
    - the application component (App.tsx): [validateAndProcessData],
      [truncateText], [clearLoadedData], the effects [loadFromDB],
      [loadStoreContent] and the one that indexes loaded data, and the
      handlers [handleFileSelect], [handleClearData], [handleSendMessage].

    Conventions of the embedding.

    - A JavaScript [number] is an IEEE 754 binary64 value: Rocq's primitive
      [float], whose operations are the ones the engine performs.  Counters
      that the program only ever increments from zero and compares (array
      lengths, string lengths, chunk counts per source) are [nat], and the
      identifiers of the stores, which are instants in milliseconds, are
      integers.
    - A JavaScript string is the sequence of its UTF-16 code units: a list of
      numbers.  [length], [substring] and the regular expression of the
      tokenizer work on code units, [toLowerCase] on the code points they
      encode, with the case mappings of the Unicode Character Database.
    - An exception is a constructor of the result type; a function that can
      throw returns [option] or [Result].
    - The IndexedDB object store is a finite map from keys to records, threaded
      through the operations as explicit state.
    - The component is its state: a record of the state variables, on which a
      handler or an effect is a function.  What the environment decides (the
      clock, the outcome of reading a file, the reply of the model API) is an
      argument of the handler. *)


From Stdlib Require Import Floats ZArith NArith Lia Permutation.
From stdpp Require Import gmap list sorting.

Set Warnings "-register-all,-via-type-remapping,-via-type-mismatch".

(** ** JavaScript numbers *)

Module JsNum.

(** [Math.sqrt], the arithmetic operators and the comparisons of the source
    are the binary64 operations. *)
Definition nan : float := PrimFloat.nan.

(** [x > 0] *)
Definition positive (x : float) : bool := PrimFloat.ltb 0%float x.

(** [x === y] on numbers *)
Definition strict_eq (x y : float) : bool := PrimFloat.eqb x y.

(** [x++] stores [x + 1] ([undefined++] stores [NaN], see [createTfVector]) *)
Definition incr (x : float) : float := PrimFloat.add x 1%float.

(** The number reached from [0] by [n] increments: the value of a counter
    that has counted [n] events. *)
Definition counted (n : nat) : float := Nat.iter n incr 0%float.

(** The number denoted by the integer [n] (exact up to 2^53). *)
Definition of_nat (n : nat) : float :=
  PrimFloat.of_uint63 (Uint63.of_Z (Z.of_nat n)).

End JsNum.

(** ** JavaScript strings *)

(** A string is the sequence of its UTF-16 code units, of any length and
    with surrogates paired or not. *)
Definition string : Type := list N.

(** String literals are written for ASCII text only: a literal is the list of
    the codes of its characters. *)
Inductive literal :=
| lit_nil
| lit_cons (c : N) (s : literal).

Fixpoint literal_of_bytes (bs : list Byte.byte) : option literal :=
  match bs with
  | [] => Some lit_nil
  | b :: bs' =>
      if (Byte.to_N b <? 128)%N
      then option_map (lit_cons (Byte.to_N b)) (literal_of_bytes bs')
      else None
  end.

Fixpoint bytes_of_literal (s : literal) : option (list Byte.byte) :=
  match s with
  | lit_nil => Some []
  | lit_cons c s' =>
      if (c <? 128)%N
      then match Byte.of_N c, bytes_of_literal s' with
           | Some b, Some bs => Some (b :: bs)
           | _, _ => None
           end
      else None
  end.

Declare Scope js_scope.
Delimit Scope js_scope with js.
String Notation string literal_of_bytes bytes_of_literal
  (via literal mapping [[nil] => lit_nil, [cons] => lit_cons]) : js_scope.
Bind Scope js_scope with string.
Open Scope js_scope.

Module JsString.

Local Open Scope N_scope.

Definition in_range (lo hi c : N) : bool := (lo <=? c) && (c <=? hi).

(** The class [\w] of the regular expression: [[A-Za-z0-9_]]. *)
Definition is_word_char (c : N) : bool :=
  in_range 48 57 c || in_range 65 90 c || (c =? 95) || in_range 97 122 c.

(** White space and line terminators, which [String.prototype.trim] removes:
    TAB, LF, VT, FF, CR, SPACE, NBSP, the other space separators of Unicode,
    LS, PS and the byte order mark. *)
Definition is_white_space (c : N) : bool :=
  in_range 9 13 c || (c =? 32) || (c =? 160) || (c =? 0x1680)
  || in_range 0x2000 0x200A c || in_range 0x2028 0x2029 c
  || (c =? 0x202F) || (c =? 0x205F) || (c =? 0x3000) || (c =? 0xFEFF).

(** *** Code points *)

Definition is_leading_surrogate (c : N) : bool := in_range 0xD800 0xDBFF c.

Definition is_trailing_surrogate (c : N) : bool := in_range 0xDC00 0xDFFF c.

(** [StringToCodePoints]: a leading surrogate with the trailing surrogate
    that follows it is one code point, any other code unit is one by
    itself. *)
Fixpoint code_points (s : string) : list N :=
  match s with
  | [] => []
  | c :: s' =>
      match s' with
      | d :: s'' =>
          if is_leading_surrogate c && is_trailing_surrogate d
          then (0x10000 + (c - 0xD800) * 0x400 + (d - 0xDC00)) :: code_points s''
          else c :: code_points s'
      | [] => [c]
      end
  end.

(** [UTF16EncodeCodePoint] *)
Definition code_units (p : N) : string :=
  if (p <? 0x10000) then [p]
  else [(0xD800 + (p - 0x10000) / 0x400); (0xDC00 + (p - 0x10000) mod 0x400)].

(** [CodePointsToString] *)
Definition of_code_points (ps : list N) : string := concat (map code_units ps).

(** *** The case mappings of the Unicode Character Database

    The tables are those of Unicode 14.0; later versions add letters to
    them. *)

(** The lower-case mappings of one code point to one code point
    (UnicodeData.txt; the capital I with dot above, which SpecialCasing.txt
    maps to two code points, is not among them).  An entry
    [(first, last, step, image)] maps the code points [first],
    [first + step], ..., [last] to [image], [image + step], ... *)
Definition lowercase_table : list (N * N * N * N) :=
  [(0x41, 0x5A, 1, 0x61); (0xC0, 0xD6, 1, 0xE0); (0xD8, 0xDE, 1, 0xF8);
   (0x100, 0x12E, 2, 0x101); (0x132, 0x136, 2, 0x133); (0x139, 0x147, 2, 0x13A);
   (0x14A, 0x176, 2, 0x14B); (0x178, 0x178, 1, 0xFF); (0x179, 0x17D, 2, 0x17A);
   (0x181, 0x181, 1, 0x253); (0x182, 0x184, 2, 0x183); (0x186, 0x186, 1, 0x254);
   (0x187, 0x187, 1, 0x188); (0x189, 0x18A, 1, 0x256); (0x18B, 0x18B, 1, 0x18C);
   (0x18E, 0x18E, 1, 0x1DD); (0x18F, 0x18F, 1, 0x259); (0x190, 0x190, 1, 0x25B);
   (0x191, 0x191, 1, 0x192); (0x193, 0x193, 1, 0x260); (0x194, 0x194, 1, 0x263);
   (0x196, 0x196, 1, 0x269); (0x197, 0x197, 1, 0x268); (0x198, 0x198, 1, 0x199);
   (0x19C, 0x19C, 1, 0x26F); (0x19D, 0x19D, 1, 0x272); (0x19F, 0x19F, 1, 0x275);
   (0x1A0, 0x1A4, 2, 0x1A1); (0x1A6, 0x1A6, 1, 0x280); (0x1A7, 0x1A7, 1, 0x1A8);
   (0x1A9, 0x1A9, 1, 0x283); (0x1AC, 0x1AC, 1, 0x1AD); (0x1AE, 0x1AE, 1, 0x288);
   (0x1AF, 0x1AF, 1, 0x1B0); (0x1B1, 0x1B2, 1, 0x28A); (0x1B3, 0x1B5, 2, 0x1B4);
   (0x1B7, 0x1B7, 1, 0x292); (0x1B8, 0x1B8, 1, 0x1B9); (0x1BC, 0x1BC, 1, 0x1BD);
   (0x1C4, 0x1C4, 1, 0x1C6); (0x1C5, 0x1C5, 1, 0x1C6); (0x1C7, 0x1C7, 1, 0x1C9);
   (0x1C8, 0x1C8, 1, 0x1C9); (0x1CA, 0x1CA, 1, 0x1CC); (0x1CB, 0x1DB, 2, 0x1CC);
   (0x1DE, 0x1EE, 2, 0x1DF); (0x1F1, 0x1F1, 1, 0x1F3); (0x1F2, 0x1F4, 2, 0x1F3);
   (0x1F6, 0x1F6, 1, 0x195); (0x1F7, 0x1F7, 1, 0x1BF); (0x1F8, 0x21E, 2, 0x1F9);
   (0x220, 0x220, 1, 0x19E); (0x222, 0x232, 2, 0x223); (0x23A, 0x23A, 1, 0x2C65);
   (0x23B, 0x23B, 1, 0x23C); (0x23D, 0x23D, 1, 0x19A); (0x23E, 0x23E, 1, 0x2C66);
   (0x241, 0x241, 1, 0x242); (0x243, 0x243, 1, 0x180); (0x244, 0x244, 1, 0x289);
   (0x245, 0x245, 1, 0x28C); (0x246, 0x24E, 2, 0x247); (0x370, 0x372, 2, 0x371);
   (0x376, 0x376, 1, 0x377); (0x37F, 0x37F, 1, 0x3F3); (0x386, 0x386, 1, 0x3AC);
   (0x388, 0x38A, 1, 0x3AD); (0x38C, 0x38C, 1, 0x3CC); (0x38E, 0x38F, 1, 0x3CD);
   (0x391, 0x3A1, 1, 0x3B1); (0x3A3, 0x3AB, 1, 0x3C3); (0x3CF, 0x3CF, 1, 0x3D7);
   (0x3D8, 0x3EE, 2, 0x3D9); (0x3F4, 0x3F4, 1, 0x3B8); (0x3F7, 0x3F7, 1, 0x3F8);
   (0x3F9, 0x3F9, 1, 0x3F2); (0x3FA, 0x3FA, 1, 0x3FB); (0x3FD, 0x3FF, 1, 0x37B);
   (0x400, 0x40F, 1, 0x450); (0x410, 0x42F, 1, 0x430); (0x460, 0x480, 2, 0x461);
   (0x48A, 0x4BE, 2, 0x48B); (0x4C0, 0x4C0, 1, 0x4CF); (0x4C1, 0x4CD, 2, 0x4C2);
   (0x4D0, 0x52E, 2, 0x4D1); (0x531, 0x556, 1, 0x561); (0x10A0, 0x10C5, 1, 0x2D00);
   (0x10C7, 0x10C7, 1, 0x2D27); (0x10CD, 0x10CD, 1, 0x2D2D); (0x13A0, 0x13EF, 1, 0xAB70);
   (0x13F0, 0x13F5, 1, 0x13F8); (0x1C90, 0x1CBA, 1, 0x10D0); (0x1CBD, 0x1CBF, 1, 0x10FD);
   (0x1E00, 0x1E94, 2, 0x1E01); (0x1E9E, 0x1E9E, 1, 0xDF); (0x1EA0, 0x1EFE, 2, 0x1EA1);
   (0x1F08, 0x1F0F, 1, 0x1F00); (0x1F18, 0x1F1D, 1, 0x1F10); (0x1F28, 0x1F2F, 1, 0x1F20);
   (0x1F38, 0x1F3F, 1, 0x1F30); (0x1F48, 0x1F4D, 1, 0x1F40); (0x1F59, 0x1F5F, 2, 0x1F51);
   (0x1F68, 0x1F6F, 1, 0x1F60); (0x1F88, 0x1F8F, 1, 0x1F80); (0x1F98, 0x1F9F, 1, 0x1F90);
   (0x1FA8, 0x1FAF, 1, 0x1FA0); (0x1FB8, 0x1FB9, 1, 0x1FB0); (0x1FBA, 0x1FBB, 1, 0x1F70);
   (0x1FBC, 0x1FBC, 1, 0x1FB3); (0x1FC8, 0x1FCB, 1, 0x1F72); (0x1FCC, 0x1FCC, 1, 0x1FC3);
   (0x1FD8, 0x1FD9, 1, 0x1FD0); (0x1FDA, 0x1FDB, 1, 0x1F76); (0x1FE8, 0x1FE9, 1, 0x1FE0);
   (0x1FEA, 0x1FEB, 1, 0x1F7A); (0x1FEC, 0x1FEC, 1, 0x1FE5); (0x1FF8, 0x1FF9, 1, 0x1F78);
   (0x1FFA, 0x1FFB, 1, 0x1F7C); (0x1FFC, 0x1FFC, 1, 0x1FF3); (0x2126, 0x2126, 1, 0x3C9);
   (0x212A, 0x212A, 1, 0x6B); (0x212B, 0x212B, 1, 0xE5); (0x2132, 0x2132, 1, 0x214E);
   (0x2160, 0x216F, 1, 0x2170); (0x2183, 0x2183, 1, 0x2184); (0x24B6, 0x24CF, 1, 0x24D0);
   (0x2C00, 0x2C2F, 1, 0x2C30); (0x2C60, 0x2C60, 1, 0x2C61); (0x2C62, 0x2C62, 1, 0x26B);
   (0x2C63, 0x2C63, 1, 0x1D7D); (0x2C64, 0x2C64, 1, 0x27D); (0x2C67, 0x2C6B, 2, 0x2C68);
   (0x2C6D, 0x2C6D, 1, 0x251); (0x2C6E, 0x2C6E, 1, 0x271); (0x2C6F, 0x2C6F, 1, 0x250);
   (0x2C70, 0x2C70, 1, 0x252); (0x2C72, 0x2C72, 1, 0x2C73); (0x2C75, 0x2C75, 1, 0x2C76);
   (0x2C7E, 0x2C7F, 1, 0x23F); (0x2C80, 0x2CE2, 2, 0x2C81); (0x2CEB, 0x2CED, 2, 0x2CEC);
   (0x2CF2, 0x2CF2, 1, 0x2CF3); (0xA640, 0xA66C, 2, 0xA641); (0xA680, 0xA69A, 2, 0xA681);
   (0xA722, 0xA72E, 2, 0xA723); (0xA732, 0xA76E, 2, 0xA733); (0xA779, 0xA77B, 2, 0xA77A);
   (0xA77D, 0xA77D, 1, 0x1D79); (0xA77E, 0xA786, 2, 0xA77F); (0xA78B, 0xA78B, 1, 0xA78C);
   (0xA78D, 0xA78D, 1, 0x265); (0xA790, 0xA792, 2, 0xA791); (0xA796, 0xA7A8, 2, 0xA797);
   (0xA7AA, 0xA7AA, 1, 0x266); (0xA7AB, 0xA7AB, 1, 0x25C); (0xA7AC, 0xA7AC, 1, 0x261);
   (0xA7AD, 0xA7AD, 1, 0x26C); (0xA7AE, 0xA7AE, 1, 0x26A); (0xA7B0, 0xA7B0, 1, 0x29E);
   (0xA7B1, 0xA7B1, 1, 0x287); (0xA7B2, 0xA7B2, 1, 0x29D); (0xA7B3, 0xA7B3, 1, 0xAB53);
   (0xA7B4, 0xA7C2, 2, 0xA7B5); (0xA7C4, 0xA7C4, 1, 0xA794); (0xA7C5, 0xA7C5, 1, 0x282);
   (0xA7C6, 0xA7C6, 1, 0x1D8E); (0xA7C7, 0xA7C9, 2, 0xA7C8); (0xA7D0, 0xA7D0, 1, 0xA7D1);
   (0xA7D6, 0xA7D8, 2, 0xA7D7); (0xA7F5, 0xA7F5, 1, 0xA7F6); (0xFF21, 0xFF3A, 1, 0xFF41);
   (0x10400, 0x10427, 1, 0x10428); (0x104B0, 0x104D3, 1, 0x104D8);
   (0x10570, 0x1057A, 1, 0x10597); (0x1057C, 0x1058A, 1, 0x105A3);
   (0x1058C, 0x10592, 1, 0x105B3); (0x10594, 0x10595, 1, 0x105BB);
   (0x10C80, 0x10CB2, 1, 0x10CC0); (0x118A0, 0x118BF, 1, 0x118C0);
   (0x16E40, 0x16E5F, 1, 0x16E60); (0x1E900, 0x1E921, 1, 0x1E922)].

(** The code points with the property Cased, and those with the property
    Case_Ignorable (DerivedCoreProperties.txt), as ranges. *)
Definition cased_ranges : list (N * N) :=
  [(0x41, 0x5A); (0x61, 0x7A); (0xAA, 0xAA); (0xB5, 0xB5); (0xBA, 0xBA); (0xC0, 0xD6);
   (0xD8, 0xF6); (0xF8, 0x1BA); (0x1BC, 0x1BF); (0x1C4, 0x293); (0x295, 0x2B8);
   (0x2C0, 0x2C1); (0x2E0, 0x2E4); (0x345, 0x345); (0x370, 0x373); (0x376, 0x377);
   (0x37A, 0x37D); (0x37F, 0x37F); (0x386, 0x386); (0x388, 0x38A); (0x38C, 0x38C);
   (0x38E, 0x3A1); (0x3A3, 0x3F5); (0x3F7, 0x481); (0x48A, 0x52F); (0x531, 0x556);
   (0x560, 0x588); (0x10A0, 0x10C5); (0x10C7, 0x10C7); (0x10CD, 0x10CD); (0x10D0, 0x10FA);
   (0x10FD, 0x10FF); (0x13A0, 0x13F5); (0x13F8, 0x13FD); (0x1C80, 0x1C88);
   (0x1C90, 0x1CBA); (0x1CBD, 0x1CBF); (0x1D00, 0x1DBF); (0x1E00, 0x1F15);
   (0x1F18, 0x1F1D); (0x1F20, 0x1F45); (0x1F48, 0x1F4D); (0x1F50, 0x1F57);
   (0x1F59, 0x1F59); (0x1F5B, 0x1F5B); (0x1F5D, 0x1F5D); (0x1F5F, 0x1F7D);
   (0x1F80, 0x1FB4); (0x1FB6, 0x1FBC); (0x1FBE, 0x1FBE); (0x1FC2, 0x1FC4);
   (0x1FC6, 0x1FCC); (0x1FD0, 0x1FD3); (0x1FD6, 0x1FDB); (0x1FE0, 0x1FEC);
   (0x1FF2, 0x1FF4); (0x1FF6, 0x1FFC); (0x2071, 0x2071); (0x207F, 0x207F);
   (0x2090, 0x209C); (0x2102, 0x2102); (0x2107, 0x2107); (0x210A, 0x2113);
   (0x2115, 0x2115); (0x2119, 0x211D); (0x2124, 0x2124); (0x2126, 0x2126);
   (0x2128, 0x2128); (0x212A, 0x212D); (0x212F, 0x2134); (0x2139, 0x2139);
   (0x213C, 0x213F); (0x2145, 0x2149); (0x214E, 0x214E); (0x2160, 0x217F);
   (0x2183, 0x2184); (0x24B6, 0x24E9); (0x2C00, 0x2CE4); (0x2CEB, 0x2CEE);
   (0x2CF2, 0x2CF3); (0x2D00, 0x2D25); (0x2D27, 0x2D27); (0x2D2D, 0x2D2D);
   (0xA640, 0xA66D); (0xA680, 0xA69D); (0xA722, 0xA787); (0xA78B, 0xA78E);
   (0xA790, 0xA7CA); (0xA7D0, 0xA7D1); (0xA7D3, 0xA7D3); (0xA7D5, 0xA7D9);
   (0xA7F5, 0xA7F6); (0xA7F8, 0xA7FA); (0xAB30, 0xAB5A); (0xAB5C, 0xAB68);
   (0xAB70, 0xABBF); (0xFB00, 0xFB06); (0xFB13, 0xFB17); (0xFF21, 0xFF3A);
   (0xFF41, 0xFF5A); (0x10400, 0x1044F); (0x104B0, 0x104D3); (0x104D8, 0x104FB);
   (0x10570, 0x1057A); (0x1057C, 0x1058A); (0x1058C, 0x10592); (0x10594, 0x10595);
   (0x10597, 0x105A1); (0x105A3, 0x105B1); (0x105B3, 0x105B9); (0x105BB, 0x105BC);
   (0x10780, 0x10780); (0x10783, 0x10785); (0x10787, 0x107B0); (0x107B2, 0x107BA);
   (0x10C80, 0x10CB2); (0x10CC0, 0x10CF2); (0x118A0, 0x118DF); (0x16E40, 0x16E7F);
   (0x1D400, 0x1D454); (0x1D456, 0x1D49C); (0x1D49E, 0x1D49F); (0x1D4A2, 0x1D4A2);
   (0x1D4A5, 0x1D4A6); (0x1D4A9, 0x1D4AC); (0x1D4AE, 0x1D4B9); (0x1D4BB, 0x1D4BB);
   (0x1D4BD, 0x1D4C3); (0x1D4C5, 0x1D505); (0x1D507, 0x1D50A); (0x1D50D, 0x1D514);
   (0x1D516, 0x1D51C); (0x1D51E, 0x1D539); (0x1D53B, 0x1D53E); (0x1D540, 0x1D544);
   (0x1D546, 0x1D546); (0x1D54A, 0x1D550); (0x1D552, 0x1D6A5); (0x1D6A8, 0x1D6C0);
   (0x1D6C2, 0x1D6DA); (0x1D6DC, 0x1D6FA); (0x1D6FC, 0x1D714); (0x1D716, 0x1D734);
   (0x1D736, 0x1D74E); (0x1D750, 0x1D76E); (0x1D770, 0x1D788); (0x1D78A, 0x1D7A8);
   (0x1D7AA, 0x1D7C2); (0x1D7C4, 0x1D7CB); (0x1DF00, 0x1DF09); (0x1DF0B, 0x1DF1E);
   (0x1E900, 0x1E943); (0x1F130, 0x1F149); (0x1F150, 0x1F169); (0x1F170, 0x1F189)].

Definition case_ignorable_ranges : list (N * N) :=
  [(0x27, 0x27); (0x2E, 0x2E); (0x3A, 0x3A); (0x5E, 0x5E); (0x60, 0x60); (0xA8, 0xA8);
   (0xAD, 0xAD); (0xAF, 0xAF); (0xB4, 0xB4); (0xB7, 0xB8); (0x2B0, 0x36F); (0x374, 0x375);
   (0x37A, 0x37A); (0x384, 0x385); (0x387, 0x387); (0x483, 0x489); (0x559, 0x559);
   (0x55F, 0x55F); (0x591, 0x5BD); (0x5BF, 0x5BF); (0x5C1, 0x5C2); (0x5C4, 0x5C5);
   (0x5C7, 0x5C7); (0x5F4, 0x5F4); (0x600, 0x605); (0x610, 0x61A); (0x61C, 0x61C);
   (0x640, 0x640); (0x64B, 0x65F); (0x670, 0x670); (0x6D6, 0x6DD); (0x6DF, 0x6E8);
   (0x6EA, 0x6ED); (0x70F, 0x70F); (0x711, 0x711); (0x730, 0x74A); (0x7A6, 0x7B0);
   (0x7EB, 0x7F5); (0x7FA, 0x7FA); (0x7FD, 0x7FD); (0x816, 0x82D); (0x859, 0x85B);
   (0x888, 0x888); (0x890, 0x891); (0x898, 0x89F); (0x8C9, 0x902); (0x93A, 0x93A);
   (0x93C, 0x93C); (0x941, 0x948); (0x94D, 0x94D); (0x951, 0x957); (0x962, 0x963);
   (0x971, 0x971); (0x981, 0x981); (0x9BC, 0x9BC); (0x9C1, 0x9C4); (0x9CD, 0x9CD);
   (0x9E2, 0x9E3); (0x9FE, 0x9FE); (0xA01, 0xA02); (0xA3C, 0xA3C); (0xA41, 0xA42);
   (0xA47, 0xA48); (0xA4B, 0xA4D); (0xA51, 0xA51); (0xA70, 0xA71); (0xA75, 0xA75);
   (0xA81, 0xA82); (0xABC, 0xABC); (0xAC1, 0xAC5); (0xAC7, 0xAC8); (0xACD, 0xACD);
   (0xAE2, 0xAE3); (0xAFA, 0xAFF); (0xB01, 0xB01); (0xB3C, 0xB3C); (0xB3F, 0xB3F);
   (0xB41, 0xB44); (0xB4D, 0xB4D); (0xB55, 0xB56); (0xB62, 0xB63); (0xB82, 0xB82);
   (0xBC0, 0xBC0); (0xBCD, 0xBCD); (0xC00, 0xC00); (0xC04, 0xC04); (0xC3C, 0xC3C);
   (0xC3E, 0xC40); (0xC46, 0xC48); (0xC4A, 0xC4D); (0xC55, 0xC56); (0xC62, 0xC63);
   (0xC81, 0xC81); (0xCBC, 0xCBC); (0xCBF, 0xCBF); (0xCC6, 0xCC6); (0xCCC, 0xCCD);
   (0xCE2, 0xCE3); (0xD00, 0xD01); (0xD3B, 0xD3C); (0xD41, 0xD44); (0xD4D, 0xD4D);
   (0xD62, 0xD63); (0xD81, 0xD81); (0xDCA, 0xDCA); (0xDD2, 0xDD4); (0xDD6, 0xDD6);
   (0xE31, 0xE31); (0xE34, 0xE3A); (0xE46, 0xE4E); (0xEB1, 0xEB1); (0xEB4, 0xEBC);
   (0xEC6, 0xEC6); (0xEC8, 0xECD); (0xF18, 0xF19); (0xF35, 0xF35); (0xF37, 0xF37);
   (0xF39, 0xF39); (0xF71, 0xF7E); (0xF80, 0xF84); (0xF86, 0xF87); (0xF8D, 0xF97);
   (0xF99, 0xFBC); (0xFC6, 0xFC6); (0x102D, 0x1030); (0x1032, 0x1037); (0x1039, 0x103A);
   (0x103D, 0x103E); (0x1058, 0x1059); (0x105E, 0x1060); (0x1071, 0x1074);
   (0x1082, 0x1082); (0x1085, 0x1086); (0x108D, 0x108D); (0x109D, 0x109D);
   (0x10FC, 0x10FC); (0x135D, 0x135F); (0x1712, 0x1714); (0x1732, 0x1733);
   (0x1752, 0x1753); (0x1772, 0x1773); (0x17B4, 0x17B5); (0x17B7, 0x17BD);
   (0x17C6, 0x17C6); (0x17C9, 0x17D3); (0x17D7, 0x17D7); (0x17DD, 0x17DD);
   (0x180B, 0x180F); (0x1843, 0x1843); (0x1885, 0x1886); (0x18A9, 0x18A9);
   (0x1920, 0x1922); (0x1927, 0x1928); (0x1932, 0x1932); (0x1939, 0x193B);
   (0x1A17, 0x1A18); (0x1A1B, 0x1A1B); (0x1A56, 0x1A56); (0x1A58, 0x1A5E);
   (0x1A60, 0x1A60); (0x1A62, 0x1A62); (0x1A65, 0x1A6C); (0x1A73, 0x1A7C);
   (0x1A7F, 0x1A7F); (0x1AA7, 0x1AA7); (0x1AB0, 0x1ACE); (0x1B00, 0x1B03);
   (0x1B34, 0x1B34); (0x1B36, 0x1B3A); (0x1B3C, 0x1B3C); (0x1B42, 0x1B42);
   (0x1B6B, 0x1B73); (0x1B80, 0x1B81); (0x1BA2, 0x1BA5); (0x1BA8, 0x1BA9);
   (0x1BAB, 0x1BAD); (0x1BE6, 0x1BE6); (0x1BE8, 0x1BE9); (0x1BED, 0x1BED);
   (0x1BEF, 0x1BF1); (0x1C2C, 0x1C33); (0x1C36, 0x1C37); (0x1C78, 0x1C7D);
   (0x1CD0, 0x1CD2); (0x1CD4, 0x1CE0); (0x1CE2, 0x1CE8); (0x1CED, 0x1CED);
   (0x1CF4, 0x1CF4); (0x1CF8, 0x1CF9); (0x1D2C, 0x1D6A); (0x1D78, 0x1D78);
   (0x1D9B, 0x1DFF); (0x1FBD, 0x1FBD); (0x1FBF, 0x1FC1); (0x1FCD, 0x1FCF);
   (0x1FDD, 0x1FDF); (0x1FED, 0x1FEF); (0x1FFD, 0x1FFE); (0x200B, 0x200F);
   (0x2018, 0x2019); (0x2024, 0x2024); (0x2027, 0x2027); (0x202A, 0x202E);
   (0x2060, 0x2064); (0x2066, 0x206F); (0x2071, 0x2071); (0x207F, 0x207F);
   (0x2090, 0x209C); (0x20D0, 0x20F0); (0x2C7C, 0x2C7D); (0x2CEF, 0x2CF1);
   (0x2D6F, 0x2D6F); (0x2D7F, 0x2D7F); (0x2DE0, 0x2DFF); (0x2E2F, 0x2E2F);
   (0x3005, 0x3005); (0x302A, 0x302D); (0x3031, 0x3035); (0x303B, 0x303B);
   (0x3099, 0x309E); (0x30FC, 0x30FE); (0xA015, 0xA015); (0xA4F8, 0xA4FD);
   (0xA60C, 0xA60C); (0xA66F, 0xA672); (0xA674, 0xA67D); (0xA67F, 0xA67F);
   (0xA69C, 0xA69F); (0xA6F0, 0xA6F1); (0xA700, 0xA721); (0xA770, 0xA770);
   (0xA788, 0xA78A); (0xA7F2, 0xA7F4); (0xA7F8, 0xA7F9); (0xA802, 0xA802);
   (0xA806, 0xA806); (0xA80B, 0xA80B); (0xA825, 0xA826); (0xA82C, 0xA82C);
   (0xA8C4, 0xA8C5); (0xA8E0, 0xA8F1); (0xA8FF, 0xA8FF); (0xA926, 0xA92D);
   (0xA947, 0xA951); (0xA980, 0xA982); (0xA9B3, 0xA9B3); (0xA9B6, 0xA9B9);
   (0xA9BC, 0xA9BD); (0xA9CF, 0xA9CF); (0xA9E5, 0xA9E6); (0xAA29, 0xAA2E);
   (0xAA31, 0xAA32); (0xAA35, 0xAA36); (0xAA43, 0xAA43); (0xAA4C, 0xAA4C);
   (0xAA70, 0xAA70); (0xAA7C, 0xAA7C); (0xAAB0, 0xAAB0); (0xAAB2, 0xAAB4);
   (0xAAB7, 0xAAB8); (0xAABE, 0xAABF); (0xAAC1, 0xAAC1); (0xAADD, 0xAADD);
   (0xAAEC, 0xAAED); (0xAAF3, 0xAAF4); (0xAAF6, 0xAAF6); (0xAB5B, 0xAB5F);
   (0xAB69, 0xAB6B); (0xABE5, 0xABE5); (0xABE8, 0xABE8); (0xABED, 0xABED);
   (0xFB1E, 0xFB1E); (0xFBB2, 0xFBC2); (0xFE00, 0xFE0F); (0xFE13, 0xFE13);
   (0xFE20, 0xFE2F); (0xFE52, 0xFE52); (0xFE55, 0xFE55); (0xFEFF, 0xFEFF);
   (0xFF07, 0xFF07); (0xFF0E, 0xFF0E); (0xFF1A, 0xFF1A); (0xFF3E, 0xFF3E);
   (0xFF40, 0xFF40); (0xFF70, 0xFF70); (0xFF9E, 0xFF9F); (0xFFE3, 0xFFE3);
   (0xFFF9, 0xFFFB); (0x101FD, 0x101FD); (0x102E0, 0x102E0); (0x10376, 0x1037A);
   (0x10780, 0x10785); (0x10787, 0x107B0); (0x107B2, 0x107BA); (0x10A01, 0x10A03);
   (0x10A05, 0x10A06); (0x10A0C, 0x10A0F); (0x10A38, 0x10A3A); (0x10A3F, 0x10A3F);
   (0x10AE5, 0x10AE6); (0x10D24, 0x10D27); (0x10EAB, 0x10EAC); (0x10F46, 0x10F50);
   (0x10F82, 0x10F85); (0x11001, 0x11001); (0x11038, 0x11046); (0x11070, 0x11070);
   (0x11073, 0x11074); (0x1107F, 0x11081); (0x110B3, 0x110B6); (0x110B9, 0x110BA);
   (0x110BD, 0x110BD); (0x110C2, 0x110C2); (0x110CD, 0x110CD); (0x11100, 0x11102);
   (0x11127, 0x1112B); (0x1112D, 0x11134); (0x11173, 0x11173); (0x11180, 0x11181);
   (0x111B6, 0x111BE); (0x111C9, 0x111CC); (0x111CF, 0x111CF); (0x1122F, 0x11231);
   (0x11234, 0x11234); (0x11236, 0x11237); (0x1123E, 0x1123E); (0x112DF, 0x112DF);
   (0x112E3, 0x112EA); (0x11300, 0x11301); (0x1133B, 0x1133C); (0x11340, 0x11340);
   (0x11366, 0x1136C); (0x11370, 0x11374); (0x11438, 0x1143F); (0x11442, 0x11444);
   (0x11446, 0x11446); (0x1145E, 0x1145E); (0x114B3, 0x114B8); (0x114BA, 0x114BA);
   (0x114BF, 0x114C0); (0x114C2, 0x114C3); (0x115B2, 0x115B5); (0x115BC, 0x115BD);
   (0x115BF, 0x115C0); (0x115DC, 0x115DD); (0x11633, 0x1163A); (0x1163D, 0x1163D);
   (0x1163F, 0x11640); (0x116AB, 0x116AB); (0x116AD, 0x116AD); (0x116B0, 0x116B5);
   (0x116B7, 0x116B7); (0x1171D, 0x1171F); (0x11722, 0x11725); (0x11727, 0x1172B);
   (0x1182F, 0x11837); (0x11839, 0x1183A); (0x1193B, 0x1193C); (0x1193E, 0x1193E);
   (0x11943, 0x11943); (0x119D4, 0x119D7); (0x119DA, 0x119DB); (0x119E0, 0x119E0);
   (0x11A01, 0x11A0A); (0x11A33, 0x11A38); (0x11A3B, 0x11A3E); (0x11A47, 0x11A47);
   (0x11A51, 0x11A56); (0x11A59, 0x11A5B); (0x11A8A, 0x11A96); (0x11A98, 0x11A99);
   (0x11C30, 0x11C36); (0x11C38, 0x11C3D); (0x11C3F, 0x11C3F); (0x11C92, 0x11CA7);
   (0x11CAA, 0x11CB0); (0x11CB2, 0x11CB3); (0x11CB5, 0x11CB6); (0x11D31, 0x11D36);
   (0x11D3A, 0x11D3A); (0x11D3C, 0x11D3D); (0x11D3F, 0x11D45); (0x11D47, 0x11D47);
   (0x11D90, 0x11D91); (0x11D95, 0x11D95); (0x11D97, 0x11D97); (0x11EF3, 0x11EF4);
   (0x13430, 0x13438); (0x16AF0, 0x16AF4); (0x16B30, 0x16B36); (0x16B40, 0x16B43);
   (0x16F4F, 0x16F4F); (0x16F8F, 0x16F9F); (0x16FE0, 0x16FE1); (0x16FE3, 0x16FE4);
   (0x1AFF0, 0x1AFF3); (0x1AFF5, 0x1AFFB); (0x1AFFD, 0x1AFFE); (0x1BC9D, 0x1BC9E);
   (0x1BCA0, 0x1BCA3); (0x1CF00, 0x1CF2D); (0x1CF30, 0x1CF46); (0x1D167, 0x1D169);
   (0x1D173, 0x1D182); (0x1D185, 0x1D18B); (0x1D1AA, 0x1D1AD); (0x1D242, 0x1D244);
   (0x1DA00, 0x1DA36); (0x1DA3B, 0x1DA6C); (0x1DA75, 0x1DA75); (0x1DA84, 0x1DA84);
   (0x1DA9B, 0x1DA9F); (0x1DAA1, 0x1DAAF); (0x1E000, 0x1E006); (0x1E008, 0x1E018);
   (0x1E01B, 0x1E021); (0x1E023, 0x1E024); (0x1E026, 0x1E02A); (0x1E130, 0x1E13D);
   (0x1E2AE, 0x1E2AE); (0x1E2EC, 0x1E2EF); (0x1E8D0, 0x1E8D6); (0x1E944, 0x1E94B);
   (0x1F3FB, 0x1F3FF); (0xE0001, 0xE0001); (0xE0020, 0xE007F); (0xE0100, 0xE01EF)].

Definition covers (p : N) (e : N * N * N * N) : bool :=
  let '(first, last, step, _) := e in
  in_range first last p && ((p - first) mod step =? 0).

Definition simple_lowercase (p : N) : N :=
  match find (covers p) lowercase_table with
  | Some (first, _, _, image) => (image + (p - first))
  | None => p
  end.

Definition in_ranges (ranges : list (N * N)) (p : N) : bool :=
  existsb (λ r, in_range r.1 r.2 p) ranges.

Definition cased (p : N) : bool := in_ranges cased_ranges p.

Definition case_ignorable (p : N) : bool := in_ranges case_ignorable_ranges p.

(** Past the case-ignorable code points of [ps] stands a cased letter. *)
Fixpoint meets_cased (ps : list N) : bool :=
  match ps with
  | [] => false
  | p :: ps' => if case_ignorable p then meets_cased ps' else cased p
  end.

(** The condition Final_Sigma of SpecialCasing.txt, for a capital sigma
    between the code points [before] (the nearest first) and [after]. *)
Definition final_sigma (before after : list N) : bool :=
  meets_cased before && negb (meets_cased after).

(** The lower-case mapping of a code point in its context: the two special
    casings that depend on no language (capital I with dot above, and the
    capital sigma that ends a word), or else the simple mapping. *)
Definition lowercase_mapping (before : list N) (p : N) (after : list N) : list N :=
  if (p =? 0x130) then [0x69; 0x307]
  else if (p =? 0x3A3) && final_sigma before after then [0x3C2]
  else [simple_lowercase p].

(** [toLowercase] of the Unicode default case conversion; [before] holds the
    code points already passed, the nearest first. *)
Fixpoint lowercase_points (before ps : list N) : list N :=
  match ps with
  | [] => []
  | p :: after => lowercase_mapping before p after ++ lowercase_points (p :: before) after
  end.

(** [s.toLowerCase()] *)
Definition toLowerCase (s : string) : string :=
  of_code_points (lowercase_points [] (code_points s)).

Fixpoint drop_white (s : string) : string :=
  match s with
  | c :: s' => if is_white_space c then drop_white s' else s
  | [] => []
  end.

(** [s.trim()] *)
Definition trim (s : string) : string :=
  rev (drop_white (rev (drop_white s))).

(** [!s]: the empty string is the only falsy string. *)
Definition is_empty (s : string) : bool :=
  match s with [] => true | _ => false end.

(** [a === b] on strings *)
Definition eqb (a b : string) : bool := bool_decide (a = b).

(** [parts.join(separator)] *)
Fixpoint join (separator : string) (parts : list string) : string :=
  match parts with
  | [] => []
  | [part] => part
  | part :: parts' => part ++ separator ++ join separator parts'
  end.

End JsString.

(** ** src/lib/cosine-similarity.ts: tokenizer *)

(** The matches of [/\b\w+\b/g]: a match starts where a word character follows
    a non-word character (or the start), [\w+] is greedy, and the closing [\b]
    holds exactly at the end of the run.  [run] is the run being read, most
    recent character first. *)
Fixpoint word_runs (run : string) (s : string) : list string :=
  match s with
  | [] =>
      match run with
      | [] => []
      | _ => [rev run]
      end
  | c :: s' =>
      if JsString.is_word_char c then word_runs (c :: run) s'
      else
        match run with
        | [] => word_runs [] s'
        | _ => rev run :: word_runs [] s'
        end
  end.

(** [text.toLowerCase().match(/\b\w+\b/g) || []] *)
Definition tokenize (text : string) : list string :=
  word_runs [] (JsString.toLowerCase text).

(** ** src/types.ts and the values of untyped input *)

(** A decoded value of unknown shape ([data: any]): what [JSON.parse] or a
    structured clone read back from IndexedDB yields.  An object is the list
    of its own properties. *)
Inductive JValue :=
| JUndefined
| JNull
| JBool (b : bool)
| JNum (x : float)
| JStr (s : string)
| JArr (items : list JValue)
| JObj (props : list (string * JValue)).

(** The results of [typeof] that such values produce. *)
Inductive JType := TUndefined | TObject | TBoolean | TNumber | TString.

Definition typeof (v : JValue) : JType :=
  match v with
  | JUndefined => TUndefined
  | JNull | JArr _ | JObj _ => TObject
  | JBool _ => TBoolean
  | JNum _ => TNumber
  | JStr _ => TString
  end.

Definition JType_eqb (a b : JType) : bool :=
  match a, b with
  | TUndefined, TUndefined | TObject, TObject | TBoolean, TBoolean
  | TNumber, TNumber | TString, TString => true
  | _, _ => false
  end.

Definition is_null (v : JValue) : bool :=
  match v with JNull => true | _ => false end.

Fixpoint lookup_prop (props : list (string * JValue)) (k : string) : JValue :=
  match props with
  | [] => JUndefined
  | (k', v) :: props' => if JsString.eqb k' k then v else lookup_prop props' k
  end.

(** [item.k] for one of the keys [id], [source], [text], [startIndex]: an own
    property of an object, [undefined] on an array (whose properties are its
    indices and [length]) and, never reached by the source, on a primitive. *)
Definition prop (item : JValue) (k : string) : JValue :=
  match item with
  | JObj props => lookup_prop props k
  | _ => JUndefined
  end.

(** [interface VectorChunk]: the four typed fields, and the object they were
    read from, which carries every other field ([[key: string]: any]). *)
Record VectorChunk := {
  chunk_id : string;
  chunk_source : string;
  chunk_text : string;
  chunk_startIndex : float;
  chunk_object : JValue
}.

Definition string_of (v : JValue) : string :=
  match v with JStr s => s | _ => "" end.

Definition number_of (v : JValue) : float :=
  match v with JNum x => x | _ => JsNum.nan end.

(** [data as VectorChunk[]], one element: a type assertion, no conversion. *)
Definition as_chunk (item : JValue) : VectorChunk :=
  {| chunk_id := string_of (prop item "id");
     chunk_source := string_of (prop item "source");
     chunk_text := string_of (prop item "text");
     chunk_startIndex := number_of (prop item "startIndex");
     chunk_object := item |}.

(** A value stored under a key of [sourceCounts]: declared [number], but what
    [(sourceCounts[k] || 0) + 1] evaluates to is a string when the read falls
    through to [Object.prototype]. *)
Inductive CountVal :=
| CNum (n : nat)
| CStr (s : string).

Record TopSource := {
  ts_source : string;
  ts_count : CountVal
}.

(** [interface SummaryData] *)
Record SummaryData := {
  totalChunks : nat;
  uniqueSources : nat;
  topSources : list TopSource;
  totalTextLength : nat
}.

(** ** JavaScript built-ins used by the source *)

(** [Array.prototype.sort(comparefn)].  The sort is stable, an element moves
    behind another only when [comparefn] is positive on the pair, and a [NaN]
    from [comparefn] counts as [+0].  [after x y] is [comparefn(x, y) > 0].
    For a consistent comparator the outcome is fixed by these rules, whatever
    algorithm the engine runs; it is computed here by stable insertion.  For
    a comparator that is not consistent the standard leaves the order to the
    engine: the list computed here is then a permutation that an engine may
    give, not the one a given engine gives (with [NaN] among the results V8,
    which inserts by binary search, orders otherwise).  In this development
    that is the case of [count_after] on counts that are no numbers, for
    sources named like members of [Object.prototype] beside other sources;
    every statement about the order of [topSources] excludes such sources. *)
Section ArraySort.
Context {A : Type} (after : A -> A -> bool).

Fixpoint sort_insert (x : A) (l : list A) : list A :=
  match l with
  | [] => [x]
  | y :: l' => if after x y then y :: sort_insert x l' else x :: l
  end.

Definition array_sort (l : list A) : list A := foldr sort_insert [] l.

(** [x] may stand before [y]. *)
Definition before (x y : A) : Prop := after x y = false.

End ArraySort.

(** An ordinary object created by the literal [{}] and used as a dictionary:
    its own properties in creation order, and [Object.prototype] behind it. *)
Module JsObject.

(** The function-valued properties of [Object.prototype], with the name each
    function prints under. *)
Definition prototype_function (k : string) : option string :=
  if JsString.eqb k "constructor" then Some "Object"
  else if bool_decide (k ∈ ["hasOwnProperty"; "isPrototypeOf"; "propertyIsEnumerable";
                            "toLocaleString"; "toString"; "valueOf";
                            "__defineGetter__"; "__defineSetter__";
                            "__lookupGetter__"; "__lookupSetter__"])
  then Some k
  else None.

(** [Object.prototype.__proto__] is an accessor property. *)
Definition is_proto_accessor (k : string) : bool := JsString.eqb k "__proto__".

(** The keys for which a read of a fresh [{}] does not give [undefined]. *)
Definition inherited (k : string) : bool :=
  is_proto_accessor k || bool_decide (is_Some (prototype_function k)).

(** [Function.prototype.toString] of a built-in (the text V8 prints; the
    standard fixes the shape [function name() { [native code] }] only). *)
Definition native_text (name : string) : string :=
  "function " ++ name ++ "() { [native code] }".

(** What [o[k]] evaluates to. *)
Inductive Read :=
| ROwn (v : CountVal)
| RFunction (name : string)
| RPrototype
| RUndefined.

Fixpoint own {V : Type} (o : list (string * V)) (k : string) : option V :=
  match o with
  | [] => None
  | (k', v) :: o' => if JsString.eqb k' k then Some v else own o' k
  end.

Definition get (o : list (string * CountVal)) (k : string) : Read :=
  match own o k with
  | Some v => ROwn v
  | None =>
      if is_proto_accessor k then RPrototype
      else match prototype_function k with
           | Some name => RFunction name
           | None => RUndefined
           end
  end.

(** [(r || 0) + 1]: [0], [""] and [undefined] are falsy, so [0] is used;
    a function or an object is converted by its [toString] and [+] then
    concatenates. *)
Definition or_zero_plus_one (r : Read) : CountVal :=
  match r with
  | ROwn (CNum n) => CNum (S n)
  | ROwn (CStr s) => if JsString.is_empty s then CNum 1 else CStr (s ++ "1")
  | RFunction name => CStr (native_text name ++ "1")
  | RPrototype => CStr "[object Object]1"
  | RUndefined => CNum 1
  end.

Fixpoint replace_own {V : Type} (o : list (string * V)) (k : string) (v : V)
  : list (string * V) :=
  match o with
  | [] => []
  | (k', v') :: o' =>
      if JsString.eqb k' k then (k', v) :: o' else (k', v') :: replace_own o' k v
  end.

(** [o[k] = v] for a primitive [v]: an own property is overwritten in place;
    the setter of [__proto__] ignores a value that is neither an object nor
    [null]; any other key becomes a new own property, the last one. *)
Definition set (o : list (string * CountVal)) (k : string) (v : CountVal)
  : list (string * CountVal) :=
  match own o k with
  | Some _ => replace_own o k v
  | None => if is_proto_accessor k then o else o ++ [(k, v)]
  end.

Definition is_digit (c : N) : bool := JsString.in_range 48 57 c.

Fixpoint decimal (acc : N) (s : string) : N :=
  match s with
  | [] => acc
  | c :: s' => decimal (acc * 10 + (c - 48))%N s'
  end.

Fixpoint all_digits (s : string) : bool :=
  match s with
  | [] => true
  | c :: s' => is_digit c && all_digits s'
  end.

(** An array index: the canonical decimal form of an integer below 2^32 - 1. *)
Definition array_index (k : string) : option N :=
  match k with
  | [] => None
  | c :: rest =>
      if all_digits k
         && (negb (c =? 48)%N || JsString.is_empty rest)
         && (decimal 0 k <? 4294967295)%N
      then Some (decimal 0 k)
      else None
  end.

Definition is_index (k : string) : bool :=
  match array_index k with Some _ => true | None => false end.

Definition index_after {V : Type} (x y : string * V) : bool :=
  match array_index x.1, array_index y.1 with
  | Some i, Some j => (j <? i)%N
  | _, _ => false
  end.

(** [Object.entries(o)]: the own properties, those whose key is an array index
    first, in ascending numeric order, then the others in creation order. *)
Definition entries {V : Type} (o : list (string * V)) : list (string * V) :=
  array_sort index_after (filter (λ e, is_index e.1 = true) o)
  ++ filter (λ e, is_index e.1 = false) o.

(** [Object.keys(o)] *)
Definition keys {V : Type} (o : list (string * V)) : list string :=
  (entries o).*1.

End JsObject.

(** ** App.tsx: validateAndProcessData *)

(** The three errors the function throws.  The message of the third is
    [Invalid item field 'f': Expected string, got t. Item: j] ([number] for
    [startIndex]), with [f] the field, [t] the [typeof] of what was found
    there and [j] the JSON text of the element. *)
Inductive ValidationError :=
| NotAList
| NonObjectItem
| InvalidField (field : string) (got : JType) (item : JValue).

Inductive Result (A : Type) :=
| Ok (a : A)
| Throw (e : ValidationError).
Arguments Ok {A} a.
Arguments Throw {A} e.

(** The four [typeof item.f !== ...] tests, in source order. *)
Definition field_checks : list (string * JType) :=
  [("id", TString); ("source", TString); ("text", TString); ("startIndex", TNumber)].

Fixpoint check_fields (checks : list (string * JType)) (item : JValue)
  : option ValidationError :=
  match checks with
  | [] => None
  | (f, expected) :: checks' =>
      if JType_eqb (typeof (prop item f)) expected then check_fields checks' item
      else Some (InvalidField f (typeof (prop item f)) item)
  end.

(** One turn of [for (const item of data)]. *)
Definition check_item (item : JValue) : option ValidationError :=
  if negb (JType_eqb (typeof item) TObject) || is_null item then Some NonObjectItem
  else check_fields field_checks item.

Fixpoint check_items (items : list JValue) : option ValidationError :=
  match items with
  | [] => None
  | item :: items' =>
      match check_item item with
      | Some e => Some e
      | None => check_items items'
      end
  end.

(** [sourceCounts[chunk.source] = (sourceCounts[chunk.source] || 0) + 1] *)
Definition count_source (sourceCounts : list (string * CountVal)) (chunk : VectorChunk)
  : list (string * CountVal) :=
  JsObject.set sourceCounts (chunk_source chunk)
    (JsObject.or_zero_plus_one (JsObject.get sourceCounts (chunk_source chunk))).

(** [b - a] on two stored values: a number when both are numbers, [NaN]
    otherwise (the strings [or_zero_plus_one] builds are no numeric
    literals); [None] is [NaN]. *)
Definition count_difference (b a : CountVal) : option Z :=
  match b, a with
  | CNum y, CNum x => Some (Z.of_nat y - Z.of_nat x)%Z
  | _, _ => None
  end.

(** [([, a], [, b]) => b - a] is positive *)
Definition count_after (x y : string * CountVal) : bool :=
  match count_difference y.2 x.2 with
  | Some d => (0 <? d)%Z
  | None => false
  end.

Definition summarize (typedData : list VectorChunk) : SummaryData :=
  let sourceCounts := foldl count_source [] typedData in
  let totalTextLength :=
    foldl (λ total chunk, total + List.length (chunk_text chunk)) 0 typedData in
  let sortedSources :=
    map (λ e, {| ts_source := e.1; ts_count := e.2 |})
      (take 10 (array_sort count_after (JsObject.entries sourceCounts))) in
  {| totalChunks := length typedData;
     uniqueSources := length (JsObject.keys sourceCounts);
     topSources := sortedSources;
     totalTextLength := totalTextLength |}.

Definition validateAndProcessData (data : JValue)
  : Result (list VectorChunk * SummaryData) :=
  match data with
  | JArr items =>
      match check_items items with
      | Some e => Throw e
      | None =>
          let typedData := map as_chunk items in
          Ok (typedData, summarize typedData)
      end
  | _ => Throw NotAList
  end.

(** ** src/lib/cosine-similarity.ts: index and search *)

(** [createVocabulary]: the map and the counter [index]. *)
Definition add_token (st : gmap string nat * nat) (token : string)
  : gmap string nat * nat :=
  match st.1 !! token with
  | Some _ => st
  | None => (<[token := st.2]> st.1, S st.2)
  end.

Definition createVocabulary (tokenizedDocs : list (list string)) : gmap string nat :=
  (foldl (λ st tokens, foldl add_token st tokens) (∅, 0) tokenizedDocs).1.

(** [vector[tokenIndex]++]: inside the array the entry is incremented; beyond
    its end the array grows to [tokenIndex + 1], the new entry holds
    [undefined + 1 = NaN] and the entries skipped are holes, which every later
    read uses as a number, that is as [NaN]. *)
Definition increment_at (tokenIndex : nat) (vector : list float) : list float :=
  if (tokenIndex <? length vector)%nat then alter JsNum.incr tokenIndex vector
  else vector ++ replicate (tokenIndex - length vector) JsNum.nan ++ [JsNum.nan].

Definition createTfVector (tokens : list string) (vocab : gmap string nat) : list float :=
  foldl (λ vector token,
           match vocab !! token with
           | Some tokenIndex => increment_at tokenIndex vector
           | None => vector
           end)
        (replicate (size vocab) 0%float) tokens.

(** [v[i]] where a number is expected: [undefined] beyond the end. *)
Definition entry (v : list float) (i : nat) : float := nth i v JsNum.nan.

(** The state of the loop of [cosineSimilarity]. *)
Record Sums := { dotProduct : float; magA : float; magB : float }.

Definition cosine_step (vecA vecB : list float) (i : nat) (s : Sums) : Sums :=
  {| dotProduct := dotProduct s + entry vecA i * entry vecB i;
     magA := magA s + entry vecA i * entry vecA i;
     magB := magB s + entry vecB i * entry vecB i |}%float.

(** [for (let i = 0; i < vecA.length; i++)], with [n] turns left. *)
Fixpoint cosine_loop (vecA vecB : list float) (n i : nat) (s : Sums) : Sums :=
  match n with
  | 0 => s
  | S n' => cosine_loop vecA vecB n' (S i) (cosine_step vecA vecB i s)
  end.

Definition cosine_sums (vecA vecB : list float) : Sums :=
  cosine_loop vecA vecB (length vecA) 0
    {| dotProduct := 0; magA := 0; magB := 0 |}%float.

Definition cosineSimilarity (vecA vecB : list float) : float :=
  let s := cosine_sums vecA vecB in
  let magA := PrimFloat.sqrt (magA s) in
  let magB := PrimFloat.sqrt (magB s) in
  if JsNum.strict_eq magA 0 || JsNum.strict_eq magB 0 then 0%float
  else (dotProduct s / (magA * magB))%float.

Definition precomputeVectors (chunks : list VectorChunk)
  : list (list float) * gmap string nat :=
  let tokenizedDocs := map (λ chunk, tokenize (chunk_text chunk)) chunks in
  let vocab := createVocabulary tokenizedDocs in
  let vectors := map (λ tokens, createTfVector tokens vocab) tokenizedDocs in
  (vectors, vocab).

(** [interface SearchResult] *)
Record SearchResult := { chunk : VectorChunk; score : float }.

(** The call [cosineSimilarity(queryVector, vectors[index])].  When [vectors]
    has no entry at [index] the argument is [undefined]: the first [vecB[i]]
    throws a [TypeError], unless [vecA] is empty and the loop body never
    runs.  [None] is the exception. *)
Definition score_against (queryVector : list float) (vecB : option (list float))
  : option float :=
  match vecB with
  | Some vecB => Some (cosineSimilarity queryVector vecB)
  | None => if decide (length queryVector = 0) then Some 0%float else None
  end.

(** [(a, b) => b.score - a.score] is positive *)
Definition score_after (a b : SearchResult) : bool :=
  JsNum.positive (score b - score a)%float.

(** [chunks.map((chunk, index) => ({ chunk, score: cosineSimilarity(queryVector,
    vectors[index]) }))]; an exception in one call ends the whole map. *)
Definition score_chunks (queryVector : list float) (chunks : list VectorChunk)
    (vectors : list (list float)) : option (list SearchResult) :=
  mapM (λ '(index, chunk),
          score ← score_against queryVector (vectors !! index);
          Some {| chunk := chunk; score := score |})
       (imap (λ index chunk, (index, chunk)) chunks).

Definition performSearch (query : string) (chunks : list VectorChunk)
    (vectors : list (list float)) (vocab : gmap string nat)
  : option (list SearchResult) :=
  if JsString.is_empty (JsString.trim query) then Some []
  else
    let queryTokens := tokenize query in
    let queryVector := createTfVector queryTokens vocab in
    results ← score_chunks queryVector chunks vectors;
    Some (take 3 (array_sort score_after
                    (filter (λ result, JsNum.positive (score result) = true) results))).

(** ** src/lib/db.ts *)

(** [interface StoredVectorStore].  [content] is what the caller passed, as
    the structured clone keeps it. *)
Record StoredVectorStore := {
  store_id : Z;
  fileName : string;
  content : JValue
}.

(** A promise settles: [resolve(a)] or [reject(reason)]. *)
Inductive Settled (A : Type) :=
| Resolved (a : A)
| Rejected (reason : string).
Arguments Resolved {A} a.
Arguments Rejected {A} reason.

(** [saveVectorData], in an object store whose records are [db], at the
    instant [now = Date.now()].  [store.add] fails when the key is taken
    (the key path is [id]); otherwise the record is stored. *)
Definition saveVectorData (now : Z) (name : string) (data : JValue)
    (db : gmap Z StoredVectorStore) : Settled Z * gmap Z StoredVectorStore :=
  let id := now in
  let dataToStore := {| store_id := id; fileName := name; content := data |} in
  match db !! id with
  | Some _ => (Rejected "Failed to save data to IndexedDB.", db)
  | None => (Resolved id, <[id := dataToStore]> db)
  end.

(** [getVectorStore]: [request.result || null]; [None] is [null]. *)
Definition getVectorStore (id : Z) (db : gmap Z StoredVectorStore)
  : Settled (option StoredVectorStore) * gmap Z StoredVectorStore :=
  (Resolved (db !! id), db).

(** [deleteVectorStore] *)
Definition deleteVectorStore (id : Z) (db : gmap Z StoredVectorStore)
  : Settled unit * gmap Z StoredVectorStore :=
  (Resolved tt, delete id db).

(** ** src/lib/db.ts: the list of stores *)

(** The element type of the list [getAllVectorStoresMeta] resolves with:
    [{id: number, fileName: string}]. *)
Record StoreMeta := {
  meta_id : Z;
  meta_fileName : string
}.

(** [store.getAll()]: the records in ascending order of their keys. *)
Definition key_after (x y : Z * StoredVectorStore) : bool := (y.1 <? x.1)%Z.

Definition getAll (db : gmap Z StoredVectorStore) : list StoredVectorStore :=
  (array_sort key_after (map_to_list db)).*2.

(** [({ id, fileName }) => ({ id, fileName })] *)
Definition meta_of (r : StoredVectorStore) : StoreMeta :=
  {| meta_id := store_id r; meta_fileName := fileName r |}.

(** [(a, b) => b.id - a.id] is positive.  The identifiers are integers, and
    the sign of the difference of two integers is the same in binary64 as in
    the integers. *)
Definition id_after (a b : StoreMeta) : bool := (0 <? meta_id b - meta_id a)%Z.

(** [getAllVectorStoresMeta] *)
Definition getAllVectorStoresMeta (db : gmap Z StoredVectorStore)
  : Settled (list StoreMeta) * gmap Z StoredVectorStore :=
  let result := getAll db in
  let meta := array_sort id_after (map meta_of result) in
  (Resolved meta, db).

(** ** App.tsx: truncateText *)

(** [ToIntegerOrInfinity(x)] clamped to [0 .. len], as [substring] reads its
    end argument: [NaN] is [0], a fraction is cut off, and what lies outside
    the string is moved to its nearer end. *)
Definition end_index (x : float) (len : nat) : nat :=
  match Prim2SF x with
  | S754_nan | S754_zero _ => 0
  | S754_infinity s => if s then 0 else len
  | S754_finite s m e =>
      if s then 0
      else Z.to_nat (Z.min (Z.of_nat len)
                       (if (0 <=? e)%Z then Z.pos m * 2 ^ e else Z.pos m / 2 ^ (- e)))
  end.

(** [truncateText(text, length)].  The components ChunkTable and VectorSearch
    have the same function with the one-character ellipsis in place of the
    three dots. *)
Definition truncateText (text : string) (length : float) : string :=
  if PrimFloat.leb (JsNum.of_nat (List.length text)) length then text
  else take (end_index length (List.length text)) text ++ "...".

(** ** App.tsx: the state of the component *)

(** [interface ChatMessage]; [None] is an absent optional field. *)
Inductive Role := User | Model.

Record ChatMessage := {
  msg_role : Role;
  msg_text : string;
  msg_sources : option (list VectorChunk);
  msg_query : option string;
  msg_exampleQuestions : option (list string)
}.

Definition initialChatMessage : ChatMessage :=
  {| msg_role := Model;
     msg_text := "Hi there! I'm ready to answer questions about your uploaded document. What would you like to know?";
     msg_sources := None;
     msg_query := None;
     msg_exampleQuestions :=
       Some ["Where can I have lunch?";
             "What are Design Parties I can reach out to?";
             "How can I use the big red button?"] |}.

(** The message of an [Error]: the text built by [validateAndProcessData]
    for the error it throws, or a literal text. *)
Inductive Message :=
| MessageOf (e : ValidationError)
| Literal (s : string).

(** What a [catch] clause receives: an [Error] object with its message, or
    the string a promise of db.ts was rejected with. *)
Inductive Thrown :=
| ErrorObject (message : Message)
| Reason (reason : string).

(** [e instanceof Error ? e.message : fallback] *)
Definition message_or (fallback : string) (e : Thrown) : Message :=
  match e with
  | ErrorObject message => message
  | Reason _ => Literal fallback
  end.

(** The text of the state [error]: a template [`prefix${errorMsg}`]. *)
Record ErrorText := {
  error_prefix : string;
  error_message : Message
}.

(** The state variables of the component that its handlers and effects for
    loading, storing, clearing and chatting use, and the two pieces of
    browser storage they work on: the item [lastSelectedStoreId] of
    [localStorage] and the object store of db.ts.  Each [set...] is the
    setter that [useState] returns. *)
Module App.

Record State := {
  vectorData : option (list VectorChunk);
  summary : option SummaryData;
  error : option ErrorText;
  fileName : string;
  isProcessing : bool;
  persistenceStatus : option string;
  precomputedData : option (list (list float) * gmap string nat);
  availableStores : list StoreMeta;
  selectedStoreId : option Z;
  chatHistory : list ChatMessage;
  chatInput : string;
  isReplying : bool;
  selectedMessageIndex : option nat;
  lastSelectedStoreId : option string;
  objectStore : gmap Z StoredVectorStore
}.

Definition setVectorData (v : option (list VectorChunk)) (st : State) : State :=
  {| vectorData := v; summary := summary st; error := error st;
     fileName := fileName st; isProcessing := isProcessing st;
     persistenceStatus := persistenceStatus st;
     precomputedData := precomputedData st;
     availableStores := availableStores st;
     selectedStoreId := selectedStoreId st; chatHistory := chatHistory st;
     chatInput := chatInput st; isReplying := isReplying st;
     selectedMessageIndex := selectedMessageIndex st;
     lastSelectedStoreId := lastSelectedStoreId st;
     objectStore := objectStore st |}.

Definition setSummary (v : option SummaryData) (st : State) : State :=
  {| vectorData := vectorData st; summary := v; error := error st;
     fileName := fileName st; isProcessing := isProcessing st;
     persistenceStatus := persistenceStatus st;
     precomputedData := precomputedData st;
     availableStores := availableStores st;
     selectedStoreId := selectedStoreId st; chatHistory := chatHistory st;
     chatInput := chatInput st; isReplying := isReplying st;
     selectedMessageIndex := selectedMessageIndex st;
     lastSelectedStoreId := lastSelectedStoreId st;
     objectStore := objectStore st |}.

Definition setError (v : option ErrorText) (st : State) : State :=
  {| vectorData := vectorData st; summary := summary st; error := v;
     fileName := fileName st; isProcessing := isProcessing st;
     persistenceStatus := persistenceStatus st;
     precomputedData := precomputedData st;
     availableStores := availableStores st;
     selectedStoreId := selectedStoreId st; chatHistory := chatHistory st;
     chatInput := chatInput st; isReplying := isReplying st;
     selectedMessageIndex := selectedMessageIndex st;
     lastSelectedStoreId := lastSelectedStoreId st;
     objectStore := objectStore st |}.

Definition setFileName (v : string) (st : State) : State :=
  {| vectorData := vectorData st; summary := summary st; error := error st;
     fileName := v; isProcessing := isProcessing st;
     persistenceStatus := persistenceStatus st;
     precomputedData := precomputedData st;
     availableStores := availableStores st;
     selectedStoreId := selectedStoreId st; chatHistory := chatHistory st;
     chatInput := chatInput st; isReplying := isReplying st;
     selectedMessageIndex := selectedMessageIndex st;
     lastSelectedStoreId := lastSelectedStoreId st;
     objectStore := objectStore st |}.

Definition setProcessing (v : bool) (st : State) : State :=
  {| vectorData := vectorData st; summary := summary st; error := error st;
     fileName := fileName st; isProcessing := v;
     persistenceStatus := persistenceStatus st;
     precomputedData := precomputedData st;
     availableStores := availableStores st;
     selectedStoreId := selectedStoreId st; chatHistory := chatHistory st;
     chatInput := chatInput st; isReplying := isReplying st;
     selectedMessageIndex := selectedMessageIndex st;
     lastSelectedStoreId := lastSelectedStoreId st;
     objectStore := objectStore st |}.

Definition setPersistenceStatus (v : option string) (st : State) : State :=
  {| vectorData := vectorData st; summary := summary st; error := error st;
     fileName := fileName st; isProcessing := isProcessing st;
     persistenceStatus := v; precomputedData := precomputedData st;
     availableStores := availableStores st;
     selectedStoreId := selectedStoreId st; chatHistory := chatHistory st;
     chatInput := chatInput st; isReplying := isReplying st;
     selectedMessageIndex := selectedMessageIndex st;
     lastSelectedStoreId := lastSelectedStoreId st;
     objectStore := objectStore st |}.

Definition setPrecomputedData (v : option (list (list float) * gmap string nat)) (st : State) : State :=
  {| vectorData := vectorData st; summary := summary st; error := error st;
     fileName := fileName st; isProcessing := isProcessing st;
     persistenceStatus := persistenceStatus st; precomputedData := v;
     availableStores := availableStores st;
     selectedStoreId := selectedStoreId st; chatHistory := chatHistory st;
     chatInput := chatInput st; isReplying := isReplying st;
     selectedMessageIndex := selectedMessageIndex st;
     lastSelectedStoreId := lastSelectedStoreId st;
     objectStore := objectStore st |}.

Definition setAvailableStores (v : list StoreMeta) (st : State) : State :=
  {| vectorData := vectorData st; summary := summary st; error := error st;
     fileName := fileName st; isProcessing := isProcessing st;
     persistenceStatus := persistenceStatus st;
     precomputedData := precomputedData st; availableStores := v;
     selectedStoreId := selectedStoreId st; chatHistory := chatHistory st;
     chatInput := chatInput st; isReplying := isReplying st;
     selectedMessageIndex := selectedMessageIndex st;
     lastSelectedStoreId := lastSelectedStoreId st;
     objectStore := objectStore st |}.

Definition setSelectedStoreId (v : option Z) (st : State) : State :=
  {| vectorData := vectorData st; summary := summary st; error := error st;
     fileName := fileName st; isProcessing := isProcessing st;
     persistenceStatus := persistenceStatus st;
     precomputedData := precomputedData st;
     availableStores := availableStores st; selectedStoreId := v;
     chatHistory := chatHistory st; chatInput := chatInput st;
     isReplying := isReplying st;
     selectedMessageIndex := selectedMessageIndex st;
     lastSelectedStoreId := lastSelectedStoreId st;
     objectStore := objectStore st |}.

Definition setChatHistory (v : list ChatMessage) (st : State) : State :=
  {| vectorData := vectorData st; summary := summary st; error := error st;
     fileName := fileName st; isProcessing := isProcessing st;
     persistenceStatus := persistenceStatus st;
     precomputedData := precomputedData st;
     availableStores := availableStores st;
     selectedStoreId := selectedStoreId st; chatHistory := v;
     chatInput := chatInput st; isReplying := isReplying st;
     selectedMessageIndex := selectedMessageIndex st;
     lastSelectedStoreId := lastSelectedStoreId st;
     objectStore := objectStore st |}.

Definition setChatInput (v : string) (st : State) : State :=
  {| vectorData := vectorData st; summary := summary st; error := error st;
     fileName := fileName st; isProcessing := isProcessing st;
     persistenceStatus := persistenceStatus st;
     precomputedData := precomputedData st;
     availableStores := availableStores st;
     selectedStoreId := selectedStoreId st; chatHistory := chatHistory st;
     chatInput := v; isReplying := isReplying st;
     selectedMessageIndex := selectedMessageIndex st;
     lastSelectedStoreId := lastSelectedStoreId st;
     objectStore := objectStore st |}.

Definition setIsReplying (v : bool) (st : State) : State :=
  {| vectorData := vectorData st; summary := summary st; error := error st;
     fileName := fileName st; isProcessing := isProcessing st;
     persistenceStatus := persistenceStatus st;
     precomputedData := precomputedData st;
     availableStores := availableStores st;
     selectedStoreId := selectedStoreId st; chatHistory := chatHistory st;
     chatInput := chatInput st; isReplying := v;
     selectedMessageIndex := selectedMessageIndex st;
     lastSelectedStoreId := lastSelectedStoreId st;
     objectStore := objectStore st |}.

Definition setSelectedMessageIndex (v : option nat) (st : State) : State :=
  {| vectorData := vectorData st; summary := summary st; error := error st;
     fileName := fileName st; isProcessing := isProcessing st;
     persistenceStatus := persistenceStatus st;
     precomputedData := precomputedData st;
     availableStores := availableStores st;
     selectedStoreId := selectedStoreId st; chatHistory := chatHistory st;
     chatInput := chatInput st; isReplying := isReplying st;
     selectedMessageIndex := v;
     lastSelectedStoreId := lastSelectedStoreId st;
     objectStore := objectStore st |}.

Definition setLastSelectedStoreId (v : option string) (st : State) : State :=
  {| vectorData := vectorData st; summary := summary st; error := error st;
     fileName := fileName st; isProcessing := isProcessing st;
     persistenceStatus := persistenceStatus st;
     precomputedData := precomputedData st;
     availableStores := availableStores st;
     selectedStoreId := selectedStoreId st; chatHistory := chatHistory st;
     chatInput := chatInput st; isReplying := isReplying st;
     selectedMessageIndex := selectedMessageIndex st;
     lastSelectedStoreId := v; objectStore := objectStore st |}.

Definition setObjectStore (v : gmap Z StoredVectorStore) (st : State) : State :=
  {| vectorData := vectorData st; summary := summary st; error := error st;
     fileName := fileName st; isProcessing := isProcessing st;
     persistenceStatus := persistenceStatus st;
     precomputedData := precomputedData st;
     availableStores := availableStores st;
     selectedStoreId := selectedStoreId st; chatHistory := chatHistory st;
     chatInput := chatInput st; isReplying := isReplying st;
     selectedMessageIndex := selectedMessageIndex st;
     lastSelectedStoreId := lastSelectedStoreId st; objectStore := v |}.
End App.

(** The state when the component mounts: the initial values of [useState]. *)
Definition mount (lastSelectedStoreId : option string)
    (db : gmap Z StoredVectorStore) : App.State :=
  {| App.vectorData := None; App.summary := None; App.error := None;
     App.fileName := ""; App.isProcessing := true;
     App.persistenceStatus := None; App.precomputedData := None;
     App.availableStores := []; App.selectedStoreId := None;
     App.chatHistory := []; App.chatInput := ""; App.isReplying := false;
     App.selectedMessageIndex := None;
     App.lastSelectedStoreId := lastSelectedStoreId;
     App.objectStore := db |}.

Definition clearLoadedData (st : App.State) : App.State :=
  let st := App.setVectorData None st in
  let st := App.setSummary None st in
  let st := App.setError None st in
  let st := App.setFileName "" st in
  let st := App.setChatHistory [] st in
  let st := App.setSelectedMessageIndex None st in
  App.setPrecomputedData None st.

Section Conversions.

(** The conversions of the engine between an identifier and its text:
    [String(id)], and the integer that [Number(text)] is, if it is one
    ([None] for [NaN], a fraction or an infinity, which equal no
    identifier). *)
Variable id_text : Z → string.
Variable text_id : string → option Z.

(** The effect that runs once, when the component mounts. *)
Definition loadFromDB (st : App.State) : App.State :=
  let st := App.setProcessing true st in
  let st :=
    match getAllVectorStoresMeta (App.objectStore st) with
    | (Resolved storesMeta, db) =>
        let st := App.setObjectStore db st in
        let st := App.setAvailableStores storesMeta st in
        let lastSelectedId := App.lastSelectedStoreId st in
        let remembered :=
          match lastSelectedId with
          | Some text =>
              if JsString.is_empty text then None
              else
                match text_id text with
                | Some n =>
                    if existsb (λ s, bool_decide (meta_id s = n)) storesMeta
                    then Some n else None
                | None => None
                end
          | None => None
          end in
        match remembered, storesMeta with
        | Some n, _ => App.setSelectedStoreId (Some n) st
        | None, newest :: _ => App.setSelectedStoreId (Some (meta_id newest)) st
        | None, [] => st
        end
    | (Rejected reason, db) =>
        App.setError
          (Some {| error_prefix := "Error loading from local storage: ";
                   error_message := message_or "Unknown error" (Reason reason) |})
          (App.setObjectStore db st)
    end in
  App.setProcessing false st.

(** The effect that runs when [selectedStoreId] has changed. *)
Definition loadStoreContent (st : App.State) : App.State :=
  match App.selectedStoreId st with
  | None => clearLoadedData st
  | Some selectedStoreId =>
      let st := App.setProcessing true st in
      let st := clearLoadedData st in
      let st := App.setLastSelectedStoreId (Some (id_text selectedStoreId)) st in
      let failed (e : Thrown) (st : App.State) :=
        let st :=
          App.setError
            (Some {| error_prefix := "Error loading store: ";
                     error_message := message_or "Unknown error" e |}) st in
        let st := App.setSelectedStoreId None st in
        App.setLastSelectedStoreId None st in
      let st :=
        match getVectorStore selectedStoreId (App.objectStore st) with
        | (Resolved (Some storedData), db) =>
            let st := App.setObjectStore db st in
            match validateAndProcessData (content storedData) with
            | Ok (processedData, summaryData) =>
                let st := App.setFileName (fileName storedData) st in
                let st := App.setVectorData (Some processedData) st in
                App.setSummary (Some summaryData) st
            | Throw e => failed (ErrorObject (MessageOf e)) st
            end
        | (Resolved None, db) =>
            failed (ErrorObject (Literal "Selected store not found in the database."))
                   (App.setObjectStore db st)
        | (Rejected reason, db) => failed (Reason reason) (App.setObjectStore db st)
        end in
      App.setProcessing false st
  end.

End Conversions.

(** The effect that runs when [vectorData] has changed.  An empty array is
    truthy. *)
Definition indexLoadedData (st : App.State) : App.State :=
  match App.vectorData st with
  | Some vectorData =>
      let data := precomputeVectors vectorData in
      App.setChatHistory [initialChatMessage] (App.setPrecomputedData (Some data) st)
  | None => App.setChatHistory [] (App.setPrecomputedData None st)
  end.

(** What became of the file handed to [handleFileSelect]: [reader.onerror]
    fired, the result is no string, [JSON.parse] threw a [SyntaxError] with
    the given message, or it returned a value. *)
Inductive FileRead :=
| ReadFailed
| NoText
| NoJson (message : string)
| Parsed (parsedData : JValue).

(** [handleFileSelect(file)], with [file.name], the outcome of reading the
    file, and [now = Date.now()] at the moment of saving. *)
Definition handleFileSelect (now : Z) (name : string) (read : FileRead)
    (st : App.State) : App.State :=
  let st := clearLoadedData st in
  let st := App.setProcessing true st in
  let st := App.setPersistenceStatus None st in
  let st := App.setError None st in
  let failed (e : Thrown) (st : App.State) :=
    let st :=
      App.setError
        (Some {| error_prefix := "Error processing file: ";
                 error_message := message_or "An unknown error occurred." e |}) st in
    App.setProcessing false st in
  match read with
  | ReadFailed =>
      let st :=
        App.setError
          (Some {| error_prefix := "Error reading the file.";
                   error_message := Literal "" |}) st in
      App.setProcessing false st
  | NoText => failed (ErrorObject (Literal "Failed to read file content.")) st
  | NoJson message => failed (ErrorObject (Literal message)) st
  | Parsed parsedData =>
      match validateAndProcessData parsedData with
      | Throw e => failed (ErrorObject (MessageOf e)) st
      | Ok _ =>
          match saveVectorData now name parsedData (App.objectStore st) with
          | (Resolved newId, db) =>
              let st := App.setObjectStore db st in
              let st :=
                App.setAvailableStores
                  (array_sort id_after
                     ({| meta_id := newId; meta_fileName := name |}
                      :: App.availableStores st)) st in
              let st := App.setSelectedStoreId (Some newId) st in
              App.setPersistenceStatus
                (Some "New vector store saved to local storage.") st
          | (Rejected reason, db) => failed (Reason reason) (App.setObjectStore db st)
          end
      end
  end.

(** [handleClearData].  [!selectedStoreId] holds for [null] and for [0].  The
    timer that hides the status text three seconds later is left out. *)
Definition handleClearData (st : App.State) : App.State :=
  match App.selectedStoreId st with
  | None => st
  | Some selectedStoreId =>
      if (selectedStoreId =? 0)%Z then st
      else
        let storeToDelete :=
          find (λ s, bool_decide (meta_id s = selectedStoreId))
               (App.availableStores st) in
        match deleteVectorStore selectedStoreId (App.objectStore st) with
        | (Resolved _, db) =>
            let st := App.setObjectStore db st in
            let newStores :=
              filter (λ s, meta_id s ≠ selectedStoreId) (App.availableStores st) in
            let st := App.setAvailableStores newStores st in
            let st :=
              match newStores with
              | newest :: _ => App.setSelectedStoreId (Some (meta_id newest)) st
              | [] =>
                  let st := App.setSelectedStoreId None st in
                  let st := clearLoadedData st in
                  App.setLastSelectedStoreId None st
              end in
            App.setPersistenceStatus
              (Some ("Store '" ++ from_option meta_fileName "" storeToDelete
                     ++ "' deleted.")) st
        | (Rejected reason, db) =>
            App.setError
              (Some {| error_prefix := "Error clearing local storage: ";
                       error_message := message_or "Unknown error" (Reason reason) |})
              (App.setObjectStore db st)
        end
  end.

(** ** App.tsx: the chat *)

(** What the two calls to the model API came to: the text of the response,
    or an exception, with its message when it is an [Error]. *)
Inductive Reply :=
| Answer (modelResponseText : string)
| Failed (message : option string).

(** The line feed of the template literals. *)
Definition nl : string := [10%N].

(** [contextChunks.length > 0 ? contextChunks.map(r => r.chunk.text)
    .join('\n\n---\n\n') : "No relevant context found."] *)
Definition contextText (contextChunks : list SearchResult) : string :=
  if (0 <? length contextChunks)%nat
  then JsString.join (nl ++ nl ++ "---" ++ nl ++ nl)
         (map (λ r, chunk_text (chunk r)) contextChunks)
  else "No relevant context found.".

(** The template literal [systemInstructionWithContext]. *)
Definition systemInstructionWithContext (contextText : string) : string :=
  "Based on the context provided below, answer the user's question in English. If the context doesn't contain the answer, say you cannot answer based on the provided information."
  ++ nl ++ nl ++ "Context:" ++ nl ++ contextText.

(** A chat message with the optional fields absent. *)
Definition plain_message (role : Role) (text : string) : ChatMessage :=
  {| msg_role := role; msg_text := text; msg_sources := None;
     msg_query := None; msg_exampleQuestions := None |}.

Section Chat.

(** Texts that the engine produces: [JSON.stringify(historyForApi, null, 2)]
    for a list of contents [{role, parts: [{text}]}], and the message of the
    [TypeError] of reading an index of [undefined]. *)
Variable JSON_stringify : list (Role * string) → string.
Variable TypeError_message : string.

(** [handleSendMessage(queryOverride)], with what the model API came to. *)
Definition handleSendMessage (queryOverride : option string) (reply : Reply)
    (st : App.State) : App.State :=
  let query :=
    match queryOverride with
    | Some override => if JsString.is_empty override then App.chatInput st else override
    | None => App.chatInput st
    end in
  match App.vectorData st, App.precomputedData st with
  | Some vectorData, Some precomputedData =>
      if JsString.is_empty (JsString.trim query) || App.isReplying st then st
      else
        let chatHistory := App.chatHistory st in
        let userMessage := plain_message User query in
        let st := App.setChatHistory (App.chatHistory st ++ [userMessage]) st in
        let st := App.setChatInput "" st in
        let st := App.setIsReplying true st in
        let errorMessage (message : option string) :=
          plain_message Model
            ("Sorry, I encountered an error: "
             ++ default "An unknown error occurred." message) in
        let answer :=
          match performSearch query vectorData precomputedData.1 precomputedData.2 with
          | Some searchResults =>
              let contextChunks := take 3 searchResults in
              let instruction := systemInstructionWithContext (contextText contextChunks) in
              let historyForApi :=
                map (λ msg, (msg_role msg, msg_text msg))
                    (filter (λ msg, msg_exampleQuestions msg = None) chatHistory)
                ++ [(User, query)] in
              let fullQueryForDisplay :=
                "SYSTEM INSTRUCTION:" ++ nl ++ instruction ++ nl ++ nl
                ++ "----------" ++ nl ++ nl ++ "CHAT HISTORY (contents):" ++ nl
                ++ JSON_stringify historyForApi in
              match reply with
              | Answer modelResponseText =>
                  {| msg_role := Model;
                     msg_text := modelResponseText;
                     msg_sources := Some (map chunk contextChunks);
                     msg_query := Some fullQueryForDisplay;
                     msg_exampleQuestions := None |}
              | Failed message => errorMessage message
              end
          | None => errorMessage (Some TypeError_message)
          end in
        let st := App.setChatHistory (App.chatHistory st ++ [answer]) st in
        App.setIsReplying false st
  | _, _ => st
  end.

End Chat.

(** ** Vocabulary of the statements *)

(** *** Lists *)

(** The distinct elements of a list, in the order of their first occurrence. *)
Definition see {A : Type} `{EqDecision A} (seen : list A) (x : A) : list A :=
  if decide (x ∈ seen) then seen else seen ++ [x].

Definition first_seen {A : Type} `{EqDecision A} (l : list A) : list A :=
  foldl see [] l.

(** The number of occurrences of [x] in [l]. *)
Definition occurrences {A : Type} `{EqDecision A} (x : A) (l : list A) : nat :=
  length (filter (λ y, y = x) l).

(** *** Numbers *)

(** [x] is an integer: a zero, or a finite number whose mantissa has no bit
    below the unit. *)
Definition is_integer (x : float) : bool :=
  match Prim2SF x with
  | S754_zero _ => true
  | S754_finite _ m e => (0 <=? e)%Z || (Z.pos m mod 2 ^ (- e) =? 0)%Z
  | _ => false
  end.

Definition nonneg_integer (x : float) : bool :=
  PrimFloat.leb 0%float x && is_integer x.

(** A positive number in the specification of binary64: a positive finite
    number or plus infinity. *)
Definition sf_positive (x : spec_float) : Prop :=
  SFltb (S754_zero false) x = true.

Definition pos_result (r : spec_float) : Prop :=
  match r with
  | S754_finite false _ _ | S754_infinity false => True
  | _ => False
  end.

(** A shifted mantissa with nothing lost. *)
Definition exact_record (m : Z) : shr_record :=
  {| shr_m := m; shr_r := false; shr_s := false |}.

(** The number [1] in the specification of binary64. *)
Definition sf_one : spec_float := S754_finite false 4503599627370496 (-52).

(** *** Validation *)

(** An element that passes the tests of the validator: an object, not [null],
    with string [id], [source], [text] and number [startIndex]. *)
Definition has_type (item : JValue) (check : string * JType) : Prop :=
  typeof (prop item check.1) = check.2.

Definition well_typed_item (item : JValue) : Prop :=
  typeof item = TObject ∧ item ≠ JNull ∧ Forall (has_type item) field_checks.

Definition is_array (data : JValue) : Prop := ∃ items, data = JArr items.

(** What an error says about the element it was raised for: the element is
    no object, or it is one and the error names its first field of the wrong
    type, with the type found there. *)
Definition describes (e : ValidationError) (item : JValue) : Prop :=
  (e = NonObjectItem ∧ (typeof item ≠ TObject ∨ item = JNull))
  ∨ (typeof item = TObject ∧ item ≠ JNull ∧
     ∃ passed f expected rest,
       field_checks = passed ++ (f, expected) :: rest ∧
       Forall (has_type item) passed ∧
       typeof (prop item f) ≠ expected ∧
       e = InvalidField f (typeof (prop item f)) item).

(** The fields of a chunk are the values of its object, of the checked
    types. *)
Definition typed_fields (c : VectorChunk) : Prop :=
  prop (chunk_object c) "id" = JStr (chunk_id c) ∧
  prop (chunk_object c) "source" = JStr (chunk_source c) ∧
  prop (chunk_object c) "text" = JStr (chunk_text c) ∧
  prop (chunk_object c) "startIndex" = JNum (chunk_startIndex c).

(** The invariant of the data model as the specification words it. *)
Definition startIndex_as_stated : Prop :=
  ∀ data typedData summary,
    validateAndProcessData data = Ok (typedData, summary) →
    Forall (λ c, typed_fields c ∧ nonneg_integer (chunk_startIndex c) = true) typedData.

(** A chunk record with the given fields and nothing else. *)
Definition chunk_value (id source text : string) (startIndex : float) : JValue :=
  JObj [("id", JStr id); ("source", JStr source);
        ("text", JStr text); ("startIndex", JNum startIndex)].

(** An input whose only element has the start index [-1]. *)
Definition negative_start : JValue :=
  JArr [chunk_value "a" "doc1" "red fox" (-1)%float].

(** *** The summary *)

(** A source whose counter is not disturbed by [Object.prototype]. *)
Definition plain_source (chunk : VectorChunk) : Prop :=
  JsObject.inherited (chunk_source chunk) = false.

(** [count] as the number it is declared to be. *)
Definition count_number (c : CountVal) : option nat :=
  match c with CNum n => Some n | CStr _ => None end.

(** The distinct sources with their numbers of chunks, in first-seen order. *)
Definition source_counts (sources : list string) : list (string * nat) :=
  (λ s, (s, occurrences s sources)) <$> first_seen sources.

Definition stored : string * nat → string * CountVal := prod_map id CNum.

(** [x] has fewer chunks than [y]. *)
Definition fewer (x y : string * nat) : bool := x.2 <? y.2.

(** [ranked] lists [candidates] by descending count, candidates of equal count
    in the order they have in [candidates]. *)
Definition ranked_by_count (candidates ranked : list (string * nat)) : Prop :=
  ranked ≡ₚ candidates ∧
  StronglySorted (λ a b, b.2 ≤ a.2) ranked ∧
  ∀ n, filter (λ e, e.2 = n) ranked = filter (λ e, e.2 = n) candidates.

Definition listed (e : string * nat) : TopSource :=
  {| ts_source := e.1; ts_count := CNum e.2 |}.

(** The ranking as the specification words it: the ten highest counts,
    descending, equal counts in first-seen order. *)
Definition topSources_as_stated : Prop :=
  ∀ data typedData summary,
    validateAndProcessData data = Ok (typedData, summary) →
    ∃ ranked,
      ranked_by_count (source_counts (chunk_source <$> typedData)) ranked ∧
      topSources summary = listed <$> take 10 ranked.

(** Two chunks, of the sources [2] and [1]. *)
Definition numbered_sources : list JValue :=
  [chunk_value "a" "2" "red fox" 0; chunk_value "b" "1" "blue sky" 10].

(** *** The index *)

(** Every character of [w] is a word character. *)
Definition all_word (w : string) : Prop :=
  Forall (λ c, JsString.is_word_char c = true) w.

(** No character of [gap] is a word character. *)
Definition no_word (gap : string) : Prop :=
  Forall (λ c, JsString.is_word_char c = false) gap.

(** [s] is empty or starts with a character that is no word character. *)
Definition ends_word (s : string) : Prop :=
  match s with
  | [] => True
  | c :: _ => JsString.is_word_char c = false
  end.

(** [runs] lists the maximal runs of word characters of a string, in order:
    a string without word characters has none; otherwise the string is a gap
    without word characters, then a word that is not empty and that the rest
    does not continue, and the runs of the rest follow the word. *)
Inductive maximal_runs : string → list string → Prop :=
| runs_none (gap : string) :
    no_word gap → maximal_runs gap []
| runs_word (gap w rest : string) (runs : list string) :
    no_word gap → w ≠ "" → all_word w → ends_word rest →
    maximal_runs rest runs →
    maximal_runs (gap ++ w ++ rest) (w :: runs).

(** The case mappings that reach a word character, one code unit at a time:
    [A-Z] become [a-z], the Kelvin sign U+212A becomes [k], and the capital I
    with dot above U+0130 becomes [i] and a combining dot U+0307. *)
Definition word_lowercase (c : N) : string :=
  if JsString.in_range 65 90 c then [(c + 32)%N]
  else if (c =? 0x212A)%N then "k"
  else if (c =? 0x130)%N then "i" ++ [0x307%N]
  else [c].

(** A character that neither is a word character nor becomes one in lower
    case. *)
Definition separator (c : N) : Prop :=
  JsString.is_word_char c = false ∧ c ≠ 0x212A%N ∧ c ≠ 0x130%N.

(** A lower-case word: word characters, none of them a capital. *)
Definition lower_word (w : string) : Prop :=
  w ≠ "" ∧
  Forall (λ c, JsString.is_word_char c = true ∧ JsString.in_range 65 90 c = false) w.


(** Two strings with the same words: they differ only in what stands between
    the words. *)
Inductive same_words : string → string → Prop :=
| same_nil : same_words [] []
| same_word (c : N) (x y : string) :
    JsString.is_word_char c = true → same_words x y →
    same_words (c :: x) (c :: y)
| same_gap (g h x y : string) :
    g ≠ [] → h ≠ [] → no_word g → no_word h → same_words x y →
    same_words (g ++ x) (h ++ y).

(** What [word_runs] yields for the run it holds when the run ends. *)
Definition flush (run : string) : list string :=
  match run with [] => [] | _ => [rev run] end.

(** The entries of the table of lower-case mappings that touch ASCII, and
    what holds of every other entry. *)
Definition ascii_entry : N * N * N * N := (0x41, 0x5A, 1, 0x61)%N.

Definition kelvin_entry : N * N * N * N := (0x212A, 0x212A, 1, 0x6B)%N.

Definition beyond_ascii (e : N * N * N * N) : bool :=
  let '(first, _, _, image) := e in (128 <=? first)%N && (128 <=? image)%N.

(** [vocab] numbers the tokens of [seen] by their positions. *)
Definition indexes (vocab : gmap string nat) (seen : list string) : Prop :=
  ∀ t i, vocab !! t = Some i ↔ seen !! i = Some t.

(** The state of [createVocabulary] after the tokens [seen] were met. *)
Definition vocabulary_of (st : gmap string nat * nat) (seen : list string) : Prop :=
  indexes st.1 seen ∧ st.2 = length seen ∧ size st.1 = length seen.

(** *** The search *)

(** The sum of squares the loop of [cosineSimilarity] accumulates for one
    vector, and its norm. *)
Definition sum_squares (v : list float) : float :=
  foldl (λ acc x, acc + x * x)%float 0%float v.

Definition norm (v : list float) : float := PrimFloat.sqrt (sum_squares v).

Definition scored_positive (r : SearchResult) : Prop :=
  JsNum.positive (score r) = true.

(** The results whose score is [s]. *)
Definition same_score (s : float) (r : SearchResult) : Prop :=
  JsNum.strict_eq (score r) s = true.

#[global] Instance same_score_dec s r : Decision (same_score s r).
Proof. unfold same_score. apply _. Defined.

(** Scores in non-increasing order: every result is at least as high as every
    later one. *)
Definition non_increasing (results : list SearchResult) : Prop :=
  StronglySorted (λ r1 r2, PrimFloat.leb (score r2) (score r1) = true) results.

(** The collection of the worked example of the specification, and its
    index. *)
Definition example_a : VectorChunk := as_chunk (chunk_value "a" "doc1" "red fox" 0).

Definition example_b : VectorChunk := as_chunk (chunk_value "b" "doc1" "blue sky" 10).

Definition example_collection : list VectorChunk := [example_a; example_b].

Definition example_index : list (list float) * gmap string nat :=
  precomputeVectors example_collection.

(** The worked example as the specification words it: the first result is
    chunk [a] with score [1.0], and chunk [b] is not among the results. *)
Definition example_as_stated : Prop :=
  ∃ rest,
    performSearch "fox" example_collection example_index.1 example_index.2
    = Some ({| chunk := example_a; score := 1%float |} :: rest)
    ∧ example_b ∉ chunk <$> rest.



(** *** The object store *)

(** The key path of the object store is [id]: every record sits under the key
    that its field [id] holds. *)
Definition keyed (db : gmap Z StoredVectorStore) : Prop :=
  map_Forall (λ key r, store_id r = key) db.

(** Newest first: the identifiers strictly descend. *)
Definition newest_first (meta : list StoreMeta) : Prop :=
  StronglySorted (λ a b, (meta_id b < meta_id a)%Z) meta.

(** [id] is the greatest identifier of the store. *)
Definition newest (db : gmap Z StoredVectorStore) (id : Z) : Prop :=
  is_Some (db !! id) ∧ ∀ key, is_Some (db !! key) → (key ≤ id)%Z.

(** A request to the object store that changes it. *)
Inductive Request :=
| Save (now : Z) (name : string) (data : JValue)
| Delete (id : Z).

Definition perform (db : gmap Z StoredVectorStore) (q : Request)
  : gmap Z StoredVectorStore :=
  match q with
  | Save now name data => (saveVectorData now name data db).2
  | Delete id => (deleteVectorStore id db).2
  end.

(** *** The component *)

(** The validator accepts [data]. *)
Definition accepted (data : JValue) : Prop :=
  ∃ typedData summary, validateAndProcessData data = Ok (typedData, summary).

(** Every stored collection passes the validator. *)
Definition validated (db : gmap Z StoredVectorStore) : Prop :=
  map_Forall (λ _ r, accepted (content r)) db.

(** An index that stands beside loaded data was built from that data. *)
Definition indexed (st : App.State) : Prop :=
  ∀ chunks index,
    App.vectorData st = Some chunks → App.precomputedData st = Some index →
    index = precomputeVectors chunks.

(** The list of stores the component shows is the list of the object store,
    the selected store exists, the store holds validated collections under
    their identifiers, and the index belongs to the loaded data. *)
Definition consistent (st : App.State) : Prop :=
  keyed (App.objectStore st) ∧
  validated (App.objectStore st) ∧
  getAllVectorStoresMeta (App.objectStore st)
  = (Resolved (App.availableStores st), App.objectStore st) ∧
  (∀ id, App.selectedStoreId st = Some id → is_Some (App.objectStore st !! id)) ∧
  indexed st.

(** The collection of the worked example as a file holds it, a store that
    holds it, and the component after it has started on that store. *)
Definition example_data : JValue :=
  JArr [chunk_value "a" "doc1" "red fox" 0; chunk_value "b" "doc1" "blue sky" 10].

Definition example_record : StoredVectorStore :=
  {| store_id := 1700000000000; fileName := "notes.json"; content := example_data |}.

Definition example_store : gmap Z StoredVectorStore :=
  <[1700000000000%Z := example_record]> ∅.

Definition example_state : App.State :=
  indexLoadedData
    (loadStoreContent (λ _, "1700000000000")
       (loadFromDB (λ _, None) (mount None example_store))).

(** *** The search, continued *)

(** [performSearch] after its guard: the ranking for a query vector. *)
Definition ranked_for (queryVector : list float) (chunks : list VectorChunk)
    (vectors : list (list float)) : option (list SearchResult) :=
  results ← score_chunks queryVector chunks vectors;
  Some (take 3 (array_sort score_after
                  (filter (λ result, JsNum.positive (score result) = true) results))).

(** A finite number that is not negative: a zero or a positive finite
    number. *)
Definition sf_count (x : spec_float) : Prop :=
  match x with
  | S754_zero false | S754_finite false _ _ => True
  | _ => False
  end.

(** * Facts *)

(** ** Equality of strings *)

Lemma string_eqb_spec (a b : string) : reflect (a = b) (JsString.eqb a b).
Proof. unfold JsString.eqb. case_bool_decide; by constructor. Qed.

(** ** binary64: the sign of a difference, and the order of positive numbers *)

Module Binary64.
Import Zpower.
Local Open Scope Z_scope.

Lemma digits2_pos_bounds (m : positive) :
  2 ^ (Z.pos (digits2_pos m) - 1) <= Z.pos m < 2 ^ Z.pos (digits2_pos m).
Proof.
  induction m as [m IH | m IH |]; simpl digits2_pos.
  - rewrite Pos2Z.inj_succ, Z.pow_succ_r by lia.
    replace (Z.succ (Z.pos (digits2_pos m)) - 1) with (Z.succ (Z.pos (digits2_pos m) - 1)) by lia.
    rewrite Z.pow_succ_r by lia. lia.
  - rewrite Pos2Z.inj_succ, Z.pow_succ_r by lia.
    replace (Z.succ (Z.pos (digits2_pos m)) - 1) with (Z.succ (Z.pos (digits2_pos m) - 1)) by lia.
    rewrite Z.pow_succ_r by lia. lia.
  - simpl. lia.
Qed.

Lemma shr_1_m (mrs : shr_record) :
  0 <= shr_m mrs -> shr_m (shr_1 mrs) = shr_m mrs / 2.
Proof.
  destruct mrs as [m r s]; simpl. intros Hm.
  destruct m as [|[p|p|]|p]; cbn [shr_m]; try lia; try reflexivity.
  - apply Z.div_unique with 1; lia.
  - apply Z.div_unique with 0; lia.
Qed.

Lemma iter_shr_1_m (p : positive) (mrs : shr_record) :
  0 <= shr_m mrs -> shr_m (SpecFloat.iter_pos shr_1 p mrs) = shr_m mrs / 2 ^ Z.pos p.
Proof.
  revert mrs. induction p as [p IH | p IH |]; intros mrs Hm; simpl SpecFloat.iter_pos.
  - assert (H1 : 0 <= shr_m (shr_1 mrs)) by (rewrite shr_1_m by lia; apply Z.div_pos; lia).
    assert (H2 : 0 <= shr_m (SpecFloat.iter_pos shr_1 p (shr_1 mrs)))
      by (rewrite IH by lia; apply Z.div_pos; [lia | apply Z.pow_pos_nonneg; lia]).
    rewrite IH, IH, shr_1_m by lia.
    rewrite !Z.div_div by (try apply Z.pow_pos_nonneg; lia).
    f_equal.
    replace (Z.pos p~1) with (1 + Z.pos p + Z.pos p) by lia.
    rewrite !Z.pow_add_r by lia. lia.
  - assert (H2 : 0 <= shr_m (SpecFloat.iter_pos shr_1 p mrs))
      by (rewrite IH by lia; apply Z.div_pos; [lia | apply Z.pow_pos_nonneg; lia]).
    rewrite IH, IH by lia.
    rewrite !Z.div_div by (try apply Z.pow_pos_nonneg; lia).
    f_equal.
    replace (Z.pos p~0) with (Z.pos p + Z.pos p) by lia.
    rewrite !Z.pow_add_r by lia. lia.
  - rewrite shr_1_m by lia. reflexivity.
Qed.

Lemma shr_record_of_loc_m m l : shr_m (shr_record_of_loc m l) = m.
Proof. destruct l as [|[]]; reflexivity. Qed.

(** Shifting a positive mantissa at an exponent not below [emin] to its
    canonical exponent leaves a positive mantissa, at an exponent not below
    [emin]. *)
Lemma shr_fexp_pos (m : positive) (e : Z) (l : location) :
  emin <= e ->
  let r := shr_fexp prec emax (Z.pos m) e l in
  0 < shr_m (fst r) /\ emin <= snd r.
Proof.
  intros He. unfold shr_fexp, shr. cbn zeta.
  set (n := fexp prec emax (Zdigits2 (Z.pos m) + e) - e).
  assert (Hn : n <= Z.pos (digits2_pos m) - 1).
  { unfold n, fexp, Zdigits2. unfold SpecFloat.emin, prec, emax in *. lia. }
  pose proof (digits2_pos_bounds m) as [Hlo _].
  destruct n as [|p|p] eqn:En; simpl fst; simpl snd; rewrite ?shr_record_of_loc_m; try lia.
  rewrite iter_shr_1_m by (rewrite shr_record_of_loc_m; lia).
  rewrite shr_record_of_loc_m. split; [|lia].
  apply Z.div_str_pos. split; [apply Z.pow_pos_nonneg; lia|].
  etransitivity; [|exact Hlo]. apply Z.pow_le_mono_r; lia.
Qed.

Lemma binary_round_aux_pos (m : positive) (e : Z) (l : location) :
  emin <= e -> pos_result (binary_round_aux prec emax false (Z.pos m) e l).
Proof.
  intros He. unfold binary_round_aux.
  pose proof (shr_fexp_pos m e l He) as H1. cbn zeta in H1.
  destruct (shr_fexp prec emax (Z.pos m) e l) as [mrs' e'] eqn:E1.
  simpl in H1. destruct H1 as [Hm' He'].
  set (m2 := round_nearest_even (shr_m mrs') (loc_of_shr_record mrs')).
  assert (Hm2 : 0 < m2).
  { unfold m2, round_nearest_even.
    destruct (loc_of_shr_record mrs') as [|[]]; try lia.
    destruct (Z.even (shr_m mrs')); lia. }
  destruct m2 as [|p2|p2] eqn:E2; try lia.
  pose proof (shr_fexp_pos p2 e' loc_Exact He') as H2. cbn zeta in H2.
  destruct (shr_fexp prec emax (Z.pos p2) e' loc_Exact) as [mrs'' e''] eqn:E3.
  simpl in H2. destruct H2 as [Hm'' _].
  destruct (shr_m mrs''); try lia.
  destruct (e'' <=? emax - prec); exact I.
Qed.

Lemma shl_align_spec (m : positive) (e e' : Z) :
  e' <= e ->
  Z.pos (fst (shl_align m e e')) = Z.pos m * 2 ^ (e - e') /\
  snd (shl_align m e e') = e'.
Proof.
  intros He. unfold shl_align.
  destruct (e' - e) as [|d|d] eqn:Ed; try lia; simpl fst; simpl snd.
  - replace (e - e') with 0 by lia. split; lia.
  - split; [|reflexivity].
    replace (e - e') with (Z.pos d) by lia.
    change (Pos.iter xO m d) with (shift_pos d m).
    rewrite shift_pos_correct. change (Z.pow_pos 2 d) with (2 ^ Z.pos d). ring.
Qed.

Lemma binary_round_pos (m : positive) (e : Z) :
  emin <= e -> pos_result (binary_round prec emax false m e).
Proof.
  intros He. unfold binary_round.
  destruct (shl_align m e (fexp prec emax (Z.pos (digits2_pos m) + e))) as [mz ez] eqn:E.
  apply binary_round_aux_pos.
  unfold shl_align in E.
  destruct (fexp prec emax (Z.pos (digits2_pos m) + e) - e) eqn:Ed;
    inversion E; subst; try lia.
  unfold fexp. unfold SpecFloat.emin. lia.
Qed.

Lemma binary_round_neg (m : positive) (e : Z) :
  SFltb (S754_zero false) (binary_round prec emax true m e) = false.
Proof.
  unfold binary_round.
  destruct (shl_align m e _) as [mz ez].
  unfold binary_round_aux.
  destruct (shr_fexp prec emax (Z.pos mz) ez loc_Exact) as [mrs' e'].
  destruct (shr_fexp prec emax _ e' loc_Exact) as [mrs'' e''].
  destruct (shr_m mrs''); try reflexivity.
  destruct (e'' <=? emax - prec); reflexivity.
Qed.

(** What validity says of a finite number. *)
Lemma bounded_inv (m : positive) (e : Z) :
  bounded prec emax m e = true ->
  emin <= e /\ Z.pos (digits2_pos m) <= prec /\
  (emin < e -> Z.pos (digits2_pos m) = prec).
Proof.
  unfold bounded, canonical_mantissa, fexp. intros H.
  apply andb_prop in H as [H _]. apply Z.eqb_eq in H.
  unfold SpecFloat.emin, prec, emax in *. lia.
Qed.

(** The sign of the exact difference of two positive finite numbers agrees
    with their comparison. *)
Lemma aligned_difference (mx my : positive) (ex ey : Z) :
  bounded prec emax mx ex = true ->
  bounded prec emax my ey = true ->
  let ez := Z.min ex ey in
  let d := Z.pos (fst (shl_align my ey ez)) - Z.pos (fst (shl_align mx ex ez)) in
  emin <= ez /\
  match SFcompare (S754_finite false mx ex) (S754_finite false my ey) with
  | Some Lt => 0 < d
  | Some Eq => d = 0
  | Some Gt => d < 0
  | None => False
  end.
Proof.
  intros Hx Hy ez d.
  apply bounded_inv in Hx as (Hex & Hdx & Hnx).
  apply bounded_inv in Hy as (Hey & Hdy & Hny).
  split; [unfold ez; lia|].
  destruct (shl_align_spec mx ex ez ltac:(unfold ez; lia)) as [Ex _].
  destruct (shl_align_spec my ey ez ltac:(unfold ez; lia)) as [Ey _].
  unfold d. rewrite Ex, Ey. clear d Ex Ey.
  pose proof (digits2_pos_bounds mx) as [Hlx Hux].
  pose proof (digits2_pos_bounds my) as [Hly Huy].
  unfold SFcompare.
  destruct (Z.compare_spec ex ey) as [Heq | Hlt | Hgt].
  - subst ey. unfold ez. rewrite Z.min_id, Z.sub_diag. simpl (2 ^ 0).
    change (Pos.compare_cont Eq mx my) with (Pos.compare mx my).
    rewrite Z.mul_1_r.
    destruct (Pos.compare_spec mx my); lia.
  - unfold ez. rewrite Z.min_l by lia. rewrite Z.sub_diag. simpl (2 ^ 0).
    rewrite (Hny ltac:(lia)) in Hly.
    assert (2 ^ 1 <= 2 ^ (ey - ex)) by (apply Z.pow_le_mono_r; lia).
    assert (Z.pos mx < 2 ^ prec)
      by (eapply Z.lt_le_trans; [exact Hux | apply Z.pow_le_mono_r; lia]).
    assert (2 ^ prec = 2 ^ (prec - 1) * 2 ^ 1)
      by (rewrite <- Z.pow_add_r by (unfold prec; lia); f_equal; lia).
    nia.
  - unfold ez. rewrite Z.min_r by lia. rewrite Z.sub_diag. simpl (2 ^ 0).
    rewrite (Hnx ltac:(lia)) in Hlx.
    assert (2 ^ 1 <= 2 ^ (ex - ey)) by (apply Z.pow_le_mono_r; lia).
    assert (Z.pos my < 2 ^ prec)
      by (eapply Z.lt_le_trans; [exact Huy | apply Z.pow_le_mono_r; lia]).
    assert (2 ^ prec = 2 ^ (prec - 1) * 2 ^ 1)
      by (rewrite <- Z.pow_add_r by (unfold prec; lia); f_equal; lia).
    nia.
Qed.

Lemma SFsub_sign (x y : spec_float) :
  valid_binary x = true -> valid_binary y = true ->
  sf_positive x -> sf_positive y ->
  SFltb (S754_zero false) (SF64sub y x) = SFltb x y.
Proof.
  unfold sf_positive. intros Vx Vy Px Py.
  destruct x as [sx | [] | | [] mx ex]; try discriminate Px;
  destruct y as [sy | [] | | [] my ey]; try discriminate Py; try reflexivity.
  simpl in Vx, Vy.
  pose proof (aligned_difference mx my ex ey Vx Vy) as [Hez Hd]. cbn zeta in Hd.
  unfold SF64sub, SFsub, cond_Zopp.
  unfold SFltb at 2.
  destruct (Z.pos (fst (shl_align my ey (Z.min ey ex))) -
            Z.pos (fst (shl_align mx ex (Z.min ey ex)))) as [|d|d] eqn:Ed;
    rewrite (Z.min_comm ey ex) in Ed; rewrite Ed in Hd;
    destruct (SFcompare (S754_finite false mx ex) (S754_finite false my ey))
      as [[]|]; try lia; try contradiction; unfold binary_normalize.
  - reflexivity.
  - pose proof (binary_round_pos d (Z.min ey ex) ltac:(lia)) as Hp.
    destruct (binary_round prec emax false d (Z.min ey ex)) as [|[]| |[]]; 
      try contradiction; reflexivity.
  - apply binary_round_neg.
Qed.

Lemma sub_sign (a b : float) :
  (0 <? a)%float = true -> (0 <? b)%float = true ->
  (0 <? b - a)%float = (a <? b)%float.
Proof.
  rewrite !ltb_spec, sub_spec. intros Ha Hb.
  apply SFsub_sign; auto using Prim2SF_valid.
Qed.

Ltac sf_positive_cases x H :=
  destruct x as [? | [] | | [] ? ?]; try discriminate H.

Ltac sf_compare :=
  unfold SFltb, SFleb, SFeqb, SFcompare;
  repeat match goal with
    | |- context [Pos.compare_cont Eq ?a ?b] =>
        change (Pos.compare_cont Eq a b) with (Pos.compare a b)
    | H : context [Pos.compare_cont Eq ?a ?b] |- _ =>
        change (Pos.compare_cont Eq a b) with (Pos.compare a b) in H
    end;
  repeat match goal with
    | |- context [Z.compare ?a ?b] => destruct (Z.compare_spec a b)
    | H : context [Z.compare ?a ?b] |- _ => destruct (Z.compare_spec a b)
    | |- context [Pos.compare ?a ?b] => destruct (Pos.compare_spec a b)
    | H : context [Pos.compare ?a ?b] |- _ => destruct (Pos.compare_spec a b)
    end;
  try reflexivity; try discriminate; try lia.

Lemma SFltb_not_trans (x y z : spec_float) :
  sf_positive x -> sf_positive y -> sf_positive z ->
  SFltb x y = false -> SFltb y z = false -> SFltb x z = false.
Proof.
  unfold sf_positive. intros Px Py Pz.
  sf_positive_cases x Px; sf_positive_cases y Py; sf_positive_cases z Pz;
    clear Px Py Pz; intros H1 H2; revert H1 H2; sf_compare.
Qed.

Lemma SFltb_asym (x y : spec_float) :
  sf_positive x -> sf_positive y -> SFltb x y = true -> SFltb y x = false.
Proof.
  unfold sf_positive. intros Px Py.
  sf_positive_cases x Px; sf_positive_cases y Py; clear Px Py; sf_compare.
Qed.

Lemma SFleb_ltb (x y : spec_float) :
  sf_positive x -> sf_positive y -> SFleb y x = negb (SFltb x y).
Proof.
  unfold sf_positive. intros Px Py.
  sf_positive_cases x Px; sf_positive_cases y Py; clear Px Py; sf_compare.
Qed.

Lemma SFeqb_ltb (x y : spec_float) :
  sf_positive x -> sf_positive y ->
  SFeqb x y = negb (SFltb x y) && negb (SFltb y x).
Proof.
  unfold sf_positive. intros Px Py.
  sf_positive_cases x Px; sf_positive_cases y Py; clear Px Py; sf_compare.
Qed.

Lemma SFeqb_positive (x s : spec_float) :
  SFeqb x s = true ->
  SFltb (S754_zero false) x = SFltb (S754_zero false) s.
Proof.
  destruct x as [[] | [] | | [] ? ?], s as [[] | [] | | [] ? ?]; sf_compare.
Qed.

Lemma SFeqb_not_ltb (x y s : spec_float) :
  sf_positive x -> sf_positive y ->
  SFeqb x s = true -> SFeqb y s = true -> SFltb x y = false.
Proof.
  unfold sf_positive. intros Px Py.
  sf_positive_cases x Px; sf_positive_cases y Py; clear Px Py;
    destruct s as [[] | [] | | [] ? ?]; sf_compare.
Qed.

(** *** Counting in binary64 is exact up to 2^53 *)


Lemma iter_pos_plus {A} (f : A -> A) (p q : positive) (x : A) :
  SpecFloat.iter_pos f (p + q) x = SpecFloat.iter_pos f q (SpecFloat.iter_pos f p x).
Proof.
  assert (H : forall p x, SpecFloat.iter_pos f p x = Pos.iter f x p).
  { clear. induction p as [p IH | p IH |]; intros x; simpl; rewrite ?IH; try reflexivity.
    f_equal. rewrite <- !IH. clear IH.
    revert x. induction p as [p IH | p IH |]; intros x; simpl; rewrite ?IH; reflexivity. }
  rewrite !H. rewrite Pos.add_comm. apply Pos.iter_add.
Qed.

Lemma iter_pos_Pos_iter {A} (f : A -> A) (p : positive) (x : A) :
  SpecFloat.iter_pos f p x = Pos.iter f x p.
Proof.
  revert x. induction p as [p IH | p IH |]; intros x; simpl; rewrite ?IH; try reflexivity.
  rewrite <- !Pos.iter_swap. reflexivity.
Qed.

(** Shifting out the zeros that were shifted in is exact. *)
Lemma shr_shifted (m j : positive) :
  SpecFloat.iter_pos shr_1 j (exact_record (Z.pos (Pos.iter xO m j)))
  = exact_record (Z.pos m).
Proof.
  rewrite iter_pos_Pos_iter.
  induction j as [|j IH] using Pos.peano_ind; [reflexivity|].
  rewrite !Pos.iter_succ. rewrite <- Pos.iter_swap. exact IH.
Qed.

Lemma digits2_pos_shifted (m j : positive) :
  digits2_pos (Pos.iter xO m j) = (digits2_pos m + j)%positive.
Proof.
  induction j as [|j IH] using Pos.peano_ind; simpl; [lia|].
  rewrite Pos.iter_succ. simpl. rewrite IH. lia.
Qed.

(** A canonical mantissa goes through rounding unchanged. *)
Lemma binary_round_aux_canonical (sx : bool) (m : positive) (e : Z) :
  bounded prec emax m e = true ->
  binary_round_aux prec emax sx (Z.pos m) e loc_Exact = S754_finite sx m e.
Proof.
  unfold bounded, canonical_mantissa. intros H.
  apply andb_prop in H as [Hc He]. apply Z.eqb_eq in Hc.
  assert (E : shr_fexp prec emax (Z.pos m) e loc_Exact = (exact_record (Z.pos m), e)).
  { unfold shr_fexp, Zdigits2. rewrite Hc, Z.sub_diag. reflexivity. }
  unfold binary_round_aux. rewrite E.
  cbn [shr_m exact_record loc_of_shr_record round_nearest_even]. rewrite E.
  cbn [shr_m exact_record]. rewrite He. reflexivity.
Qed.

Lemma binary_round_aux_ext (sx : bool) (m1 m2 e1 e2 : Z) (l1 l2 : location) :
  shr_fexp prec emax m1 e1 l1 = shr_fexp prec emax m2 e2 l2 ->
  binary_round_aux prec emax sx m1 e1 l1 = binary_round_aux prec emax sx m2 e2 l2.
Proof. intros H. unfold binary_round_aux. rewrite H. reflexivity. Qed.

Lemma shr_fexp_exact (m : positive) (e : Z) :
  shr_fexp prec emax (Z.pos m) e loc_Exact
  = shr (exact_record (Z.pos m)) e (fexp prec emax (Z.pos (digits2_pos m) + e) - e).
Proof. reflexivity. Qed.

(** The same number with [j] zeros shifted into the mantissa rounds the same
    way. *)
Lemma binary_round_shifted (sx : bool) (m j : positive) (e : Z) :
  binary_round prec emax sx (Pos.iter xO m j) (e - Z.pos j)
  = binary_round prec emax sx m e.
Proof.
  unfold binary_round.
  rewrite digits2_pos_shifted.
  replace (Z.pos (digits2_pos m + j) + (e - Z.pos j)) with (Z.pos (digits2_pos m) + e) by lia.
  set (fe := fexp prec emax (Z.pos (digits2_pos m) + e)).
  assert (Hfe : fe = fexp prec emax (Z.pos (digits2_pos m) + e)) by reflexivity.
  unfold shl_align.
  destruct (fe - e) as [|n|d] eqn:E1; destruct (fe - (e - Z.pos j)) as [|n'|d'] eqn:E2;
    try lia; apply binary_round_aux_ext; rewrite !shr_fexp_exact, ?digits2_pos_shifted.
  - (* fe = e *)
    replace (Z.pos (digits2_pos m + j) + (e - Z.pos j)) with (Z.pos (digits2_pos m) + e) by lia.
    rewrite <- Hfe, E1, E2. assert (n' = j) as -> by lia.
    unfold shr. rewrite shr_shifted. f_equal. lia.
  - (* fe > e *)
    replace (Z.pos (digits2_pos m + j) + (e - Z.pos j)) with (Z.pos (digits2_pos m) + e) by lia.
    rewrite <- Hfe, E1, E2. assert (n' = (j + n)%positive) as -> by lia.
    unfold shr. rewrite iter_pos_plus, shr_shifted. f_equal. lia.
  - (* e - j = fe < e *)
    replace (Z.pos (digits2_pos m + j) + (e - Z.pos j)) with (Z.pos (digits2_pos m) + e) by lia.
    assert (d = j) as -> by lia.
    replace (Z.pos (digits2_pos m + j) + fe) with (Z.pos (digits2_pos m) + e) by lia.
    rewrite <- Hfe, E2, Z.sub_diag. unfold shr. f_equal. lia.
  - (* e - j < fe < e *)
    replace (Z.pos (digits2_pos m + j) + (e - Z.pos j)) with (Z.pos (digits2_pos m) + e) by lia.
    replace (Z.pos (digits2_pos m + d) + fe) with (Z.pos (digits2_pos m) + e) by lia.
    rewrite <- Hfe, E2, Z.sub_diag. unfold shr.
    assert (j = (n' + d)%positive) as -> by lia.
    rewrite Pos.iter_add, shr_shifted. f_equal. lia.
  - (* fe < e - j *)
    assert (d = (d' + j)%positive) as -> by lia.
    rewrite Pos.iter_add. do 4 f_equal. lia.
Qed.

Lemma binary_round_canonical (sx : bool) (m : positive) (e : Z) :
  bounded prec emax m e = true ->
  binary_round prec emax sx m e = S754_finite sx m e.
Proof.
  intros H. unfold binary_round.
  assert (Hc : fexp prec emax (Z.pos (digits2_pos m) + e) = e).
  { unfold bounded, canonical_mantissa in H. apply andb_prop in H as [H _].
    now apply Z.eqb_eq in H. }
  rewrite Hc. unfold shl_align. rewrite Z.sub_diag.
  now apply binary_round_aux_canonical.
Qed.

(** A positive integer below 2^53 is represented exactly, at an exponent
    between -52 and 0. *)
Lemma binary_round_integer (p : positive) :
  Z.pos p < 2 ^ 53 ->
  exists m e,
    binary_round prec emax false p 0 = S754_finite false m e /\
    -52 <= e <= 0 /\ Z.pos m = Z.pos p * 2 ^ (- e).
Proof.
  intros Hp. pose proof (digits2_pos_bounds p) as [Hlo Hhi].
  assert (Hd : Z.pos (digits2_pos p) <= 53).
  { destruct (Z_le_gt_dec (Z.pos (digits2_pos p)) 53) as [|Hgt]; [assumption|].
    assert (2 ^ 53 <= 2 ^ (Z.pos (digits2_pos p) - 1)) by (apply Z.pow_le_mono_r; lia).
    lia. }
  destruct (Z.eq_dec (Z.pos (digits2_pos p)) 53) as [Heq|Hne].
  - exists p, 0. split; [|split; [lia|simpl; lia]].
    apply binary_round_canonical. unfold bounded, canonical_mantissa, fexp.
    rewrite Heq. reflexivity.
  - destruct (53 - Z.pos (digits2_pos p)) as [|j|j] eqn:Ej; try lia.
    exists (Pos.iter xO p j), (- Z.pos j). split; [|split; [lia|]].
    + rewrite <- (binary_round_shifted false p j 0). simpl (0 - Z.pos j).
      apply binary_round_canonical. unfold bounded, canonical_mantissa, fexp.
      rewrite digits2_pos_shifted.
      apply andb_true_intro. split; [apply Z.eqb_eq | apply Z.leb_le];
        unfold SpecFloat.emin, prec, emax; lia.
    + rewrite Z.opp_involutive. change (Pos.iter xO p j) with (shift_pos j p).
      rewrite shift_pos_correct. change (Z.pow_pos 2 j) with (2 ^ Z.pos j). ring.
Qed.

Lemma SFadd_one (p : positive) :
  Z.pos p < 2 ^ 53 ->
  SF64add (binary_round prec emax false p 0) sf_one
  = binary_round prec emax false (p + 1) 0.
Proof.
  intros Hp. destruct (binary_round_integer p Hp) as (m & e & -> & He & Hm).
  unfold SF64add, SFadd, sf_one, cond_Zopp.
  rewrite Z.min_r by lia.
  destruct (shl_align_spec m e (-52) ltac:(lia)) as [E1 _].
  destruct (shl_align_spec 4503599627370496 (-52) (-52) ltac:(lia)) as [E2 _].
  rewrite E1, E2, Hm. clear E1 E2.
  assert (Hsum : Z.pos p * 2 ^ (- e) * 2 ^ (e - -52) + 4503599627370496 * 2 ^ (-52 - -52)
                 = Z.pos (Pos.iter xO (p + 1)%positive 52%positive)).
  { change (Pos.iter xO (p + 1)%positive 52%positive) with (shift_pos 52 (p + 1)).
    rewrite shift_pos_correct. change (Z.pow_pos 2 52) with (2 ^ 52).
    rewrite <- Z.mul_assoc, <- Z.pow_add_r by lia.
    replace (- e + (e - -52)) with 52 by lia.
    change (2 ^ (-52 - -52)) with 1. change 4503599627370496 with (2 ^ 52). lia. }
  rewrite Hsum. unfold binary_normalize.
  apply (binary_round_shifted false (p + 1)%positive 52%positive 0).
Qed.

Lemma Prim2SF_one : Prim2SF 1%float = sf_one.
Proof. vm_compute. reflexivity. Qed.

Lemma Prim2SF_of_nat (n : nat) :
  Z.of_nat n < 2 ^ 63 ->
  Prim2SF (JsNum.of_nat n) = binary_normalize prec emax (Z.of_nat n) 0 false.
Proof.
  intros Hn. unfold JsNum.of_nat. rewrite of_uint63_spec, Uint63.of_Z_spec.
  rewrite Z.mod_small; [reflexivity|]. split; [lia|].
  change Uint63.wB with (2 ^ 63). lia.
Qed.

Lemma of_nat_succ (n : nat) :
  Z.of_nat n < 2 ^ 53 ->
  (JsNum.of_nat n + 1)%float = JsNum.of_nat (S n).
Proof.
  intros Hn. apply Prim2SF_inj.
  rewrite add_spec, Prim2SF_one, !Prim2SF_of_nat by lia.
  destruct n as [|n]; [vm_compute; reflexivity|].
  rewrite !Nat2Z.inj_succ in *.
  destruct (Z.of_nat n) as [|q|q] eqn:Eq; try lia.
  - vm_compute. reflexivity.
  - unfold binary_normalize.
    replace (Z.succ (Z.succ (Z.pos q))) with (Z.pos (q + 1 + 1)%positive) by lia.
    replace (Z.succ (Z.pos q)) with (Z.pos (q + 1)%positive) in * by lia.
    apply SFadd_one. lia.
Qed.

Lemma counted_of_nat (n : nat) :
  Z.of_nat n <= 2 ^ 53 -> JsNum.counted n = JsNum.of_nat n.
Proof.
  induction n as [|n IH]; intros Hn; [vm_compute; reflexivity|].
  unfold JsNum.counted in *. simpl. rewrite IH by lia.
  apply of_nat_succ. lia.
Qed.

End Binary64.

(** ** Array.prototype.sort *)

Section ArraySortFacts.
Context {A : Type} (after : A → A → bool).

Lemma sort_insert_perm (x : A) (l : list A) : sort_insert after x l ≡ₚ x :: l.
Proof.
  induction l as [|y l IH]; simpl; [done|].
  destruct (after x y); [|done].
  rewrite IH. apply Permutation_swap.
Qed.

Lemma array_sort_perm (l : list A) : array_sort after l ≡ₚ l.
Proof.
  induction l as [|x l IH]; simpl; [done|].
  rewrite sort_insert_perm. by f_equiv.
Qed.

Lemma array_sort_length (l : list A) : length (array_sort after l) = length l.
Proof. by rewrite array_sort_perm. Qed.

(** The elements the comparator is used on, for instance the results with a
    positive score. *)
Context (P : A → Prop).

(** Elements of one class, none of which goes behind another, keep their
    order. *)
Lemma sort_insert_filter (E : A → Prop) `{!∀ x, Decision (E x)} (x : A) (l : list A) :
  (∀ a b, P a → P b → E a → E b → after a b = false) →
  P x → Forall P l →
  filter E (sort_insert after x l) = filter E (x :: l).
Proof.
  intros HE Hx Hl. induction Hl as [|y l Hy Hl IH]; simpl; [done|].
  destruct (after x y) eqn:Hxy; [|done].
  rewrite filter_cons, IH, !filter_cons.
  destruct (decide (E y)), (decide (E x)); try done.
  rewrite HE in Hxy; done.
Qed.

Lemma array_sort_filter (E : A → Prop) `{!∀ x, Decision (E x)} (l : list A) :
  (∀ a b, P a → P b → E a → E b → after a b = false) →
  Forall P l →
  filter E (array_sort after l) = filter E l.
Proof.
  intros HE Hl. induction Hl as [|x l Hx Hl IH]; simpl; [done|].
  rewrite sort_insert_filter, !filter_cons, IH; try done.
  by rewrite array_sort_perm.
Qed.

(** For a comparator that is consistent on the elements satisfying [P], the
    result is ordered: no element is followed, at any distance, by one it
    should go behind. *)
Hypothesis after_asym : ∀ a b, P a → P b → after a b = true → after b a = false.
Hypothesis after_trans :
  ∀ a b c, P a → P b → P c → after a b = false → after b c = false → after a c = false.

Lemma sort_insert_Forall (Q : A → Prop) (x : A) (l : list A) :
  Q x → Forall Q l → Forall Q (sort_insert after x l).
Proof. intros Hx Hl. rewrite sort_insert_perm. by constructor. Qed.

Lemma sort_insert_sorted (x : A) (l : list A) :
  P x → Forall P l → StronglySorted (before after) l →
  StronglySorted (before after) (sort_insert after x l).
Proof.
  intros Hx Hl Hs. induction Hs as [|y l Hs IH Hy]; simpl.
  - repeat constructor.
  - apply Forall_cons in Hl as [HPy Hl].
    destruct (after x y) eqn:Hxy.
    + constructor; [by apply IH|].
      apply sort_insert_Forall; [by apply after_asym|done].
    + constructor; [by constructor|].
      constructor; [done|].
      rewrite Forall_forall in Hy, Hl |- *. intros z Hz.
      apply (after_trans x y z); [done|done|by apply Hl|done|by apply Hy].
Qed.

Lemma array_sort_sorted (l : list A) :
  Forall P l → StronglySorted (before after) (array_sort after l).
Proof.
  induction 1 as [|x l Hx Hl IH]; simpl; [constructor|].
  apply sort_insert_sorted; [done| |done].
  by rewrite array_sort_perm.
Qed.

End ArraySortFacts.

(** ** Scores *)

Lemma score_after_lt (a b : SearchResult) :
  JsNum.positive (score a) = true → JsNum.positive (score b) = true →
  score_after a b = PrimFloat.ltb (score a) (score b).
Proof. intros Ha Hb. by apply Binary64.sub_sign. Qed.

Lemma positive_sf (x : float) :
  JsNum.positive x = true → sf_positive (Prim2SF x).
Proof. unfold JsNum.positive, sf_positive. by rewrite FloatAxioms.ltb_spec. Qed.

Lemma score_after_asym (a b : SearchResult) :
  scored_positive a → scored_positive b →
  score_after a b = true → score_after b a = false.
Proof.
  intros Ha Hb. rewrite !score_after_lt, !FloatAxioms.ltb_spec by done.
  apply Binary64.SFltb_asym; by apply positive_sf.
Qed.

Lemma score_after_trans (a b c : SearchResult) :
  scored_positive a → scored_positive b → scored_positive c →
  score_after a b = false → score_after b c = false → score_after a c = false.
Proof.
  intros Ha Hb Hc. rewrite !score_after_lt, !FloatAxioms.ltb_spec by done.
  apply Binary64.SFltb_not_trans; by apply positive_sf.
Qed.

Lemma score_before_leb (a b : SearchResult) :
  scored_positive a → scored_positive b →
  score_after a b = false → PrimFloat.leb (score b) (score a) = true.
Proof.
  intros Ha Hb. rewrite score_after_lt, FloatAxioms.leb_spec, FloatAxioms.ltb_spec by done.
  rewrite Binary64.SFleb_ltb by by apply positive_sf. by intros ->.
Qed.

Lemma same_score_not_after (s : float) (a b : SearchResult) :
  scored_positive a → scored_positive b →
  same_score s a → same_score s b → score_after a b = false.
Proof.
  unfold same_score, JsNum.strict_eq. intros Ha Hb.
  rewrite score_after_lt, !FloatAxioms.eqb_spec, FloatAxioms.ltb_spec by done.
  apply Binary64.SFeqb_not_ltb; by apply positive_sf.
Qed.

Lemma same_score_positive (s : float) (r : SearchResult) :
  same_score s r → JsNum.positive (score r) = JsNum.positive s.
Proof.
  unfold same_score, JsNum.strict_eq, JsNum.positive.
  rewrite FloatAxioms.eqb_spec, !FloatAxioms.ltb_spec. apply Binary64.SFeqb_positive.
Qed.

Lemma score_chunks_chunks q chunks vectors all :
  score_chunks q chunks vectors = Some all → chunk <$> all = chunks.
Proof.
  unfold score_chunks. intros H%mapM_Some.
  pose proof (Forall2_length _ _ _ H) as Hlen. rewrite length_imap in Hlen.
  apply list_eq. intros i. rewrite list_lookup_fmap.
  destruct (all !! i) as [r|] eqn:E; simpl.
  - destruct (Forall2_lookup_r _ _ _ _ _ H E) as ([j c] & Hl & Hf).
    rewrite list_lookup_imap in Hl.
    destruct (chunks !! i) as [c'|]; simplify_eq/=.
    destruct (score_against q _); by simplify_eq/=.
  - symmetry. apply lookup_ge_None. apply lookup_ge_None in E. lia.
Qed.

Lemma score_chunks_total q chunks vectors :
  length chunks ≤ length vectors → is_Some (score_chunks q chunks vectors).
Proof.
  intros Hlen. unfold score_chunks. apply mapM_is_Some, Forall_lookup.
  intros i [j c] Hl. rewrite list_lookup_imap in Hl.
  destruct (chunks !! i) as [c'|] eqn:Ec; [|done].
  apply lookup_lt_Some in Ec. simpl in Hl. injection Hl as <- <-.
  destruct (lookup_lt_is_Some_2 vectors i ltac:(lia)) as [v Hv].
  simpl. rewrite Hv. by eexists.
Qed.

Lemma filter_none {A} (P : A → Prop) `{!∀ x, Decision (P x)} (l : list A) :
  (∀ x, x ∈ l → ¬ P x) → filter P l = [].
Proof.
  induction l as [|x l IH]; intros HP; [done|].
  rewrite filter_cons_False by (apply HP; left).
  apply IH. intros y Hy. apply HP. by right.
Qed.

Lemma StronglySorted_take {A} (R : A → A → Prop) (n : nat) (l : list A) :
  StronglySorted R l → StronglySorted R (take n l).
Proof.
  intros H. revert n. induction H as [|x l Hs IH Hx]; intros [|n]; simpl; try constructor.
  - apply IH.
  - eapply Forall_impl; [|done]. 
    by apply Forall_take.
Qed.

Lemma StronglySorted_impl_on {A} (P : A → Prop) (R R' : A → A → Prop) (l : list A) :
  (∀ a b, P a → P b → R a b → R' a b) →
  Forall P l → StronglySorted R l → StronglySorted R' l.
Proof.
  intros HR HP Hs. induction Hs as [|x l Hs IH Hx]; [constructor|].
  apply Forall_cons in HP as [Hpx HP].
  constructor; [by apply IH|].
  rewrite Forall_forall in Hx, HP |- *. intros y Hy. apply HR; auto.
Qed.

Lemma performSearch_total (query : string) (chunks : list VectorChunk)
    (vectors : list (list float)) (vocab : gmap string nat) :
  length chunks ≤ length vectors →
  is_Some (performSearch query chunks vectors vocab).
Proof.
  intros Hlen. unfold performSearch. destruct (JsString.is_empty _); [by eexists|].
  destruct (score_chunks_total (createTfVector (tokenize query) vocab) chunks vectors Hlen)
    as [all ->]. by eexists.
Qed.

(** C5: at most three results, every score positive, scores in non-increasing
    order, and results of equal score in the order of the collection (they
    are the first of their score among the scored chunks).  The search
    returns whenever the index has a vector for every chunk. *)
Theorem performSearch_ranking (query : string) (chunks : list VectorChunk)
    (vectors : list (list float)) (vocab : gmap string nat) :
  (length chunks ≤ length vectors →
   is_Some (performSearch query chunks vectors vocab)) ∧
  ∀ results, performSearch query chunks vectors vocab = Some results →
    length results ≤ 3 ∧
    Forall (λ r, JsNum.positive (score r) = true) results ∧
    non_increasing results ∧
    ∀ scored,
      score_chunks (createTfVector (tokenize query) vocab) chunks vectors = Some scored →
      chunk <$> scored = chunks ∧
      ∀ s, filter (same_score s) results `prefix_of` filter (same_score s) scored.
Proof.
  split; [apply performSearch_total|].
  unfold performSearch.
  - intros results.
    destruct (JsString.is_empty _).
    { intros [= <-]. repeat split; try constructor; simpl; try lia.
      - by eapply score_chunks_chunks.
      - intros s. apply prefix_nil. }
    destruct (score_chunks _ chunks vectors) as [all|] eqn:Eall; simpl; [|done].
    intros [= <-].
    set (pos := filter (λ r, JsNum.positive (score r) = true) all).
    assert (Hpos : Forall scored_positive pos) by (apply Forall_forall; intros r [? _]%list_elem_of_filter; done).
    assert (Hsorted : Forall scored_positive (array_sort score_after pos))
      by by rewrite array_sort_perm.
    split; [rewrite length_take; lia|].
    split; [by apply Forall_take|].
    split.
    { apply StronglySorted_take.
      eapply (StronglySorted_impl_on scored_positive); [|done|].
      - intros a b Ha Hb Hab. apply score_before_leb; [done|done|exact Hab].
      - exact (array_sort_sorted score_after scored_positive
                 score_after_asym score_after_trans pos Hpos). }
    intros scored [= <-]. split; [by eapply score_chunks_chunks|].
    intros s.
    assert (Hf : filter (same_score s) (array_sort score_after pos) `prefix_of` filter (same_score s) all).
    { rewrite (array_sort_filter score_after scored_positive); [| |done].
      - unfold pos. rewrite list_filter_filter.
        destruct (JsNum.positive s) eqn:Hs.
        + erewrite (list_filter_iff _ (same_score s)); [reflexivity|].
          intros r. split; [by intros []|]. intros Hr. split; [done|].
          by rewrite (same_score_positive s r Hr).
        + rewrite filter_none; [apply prefix_nil|].
          intros r _ [Hr1 Hr2].
          rewrite (same_score_positive s r Hr1) in Hr2. congruence.
      - intros a b Ha Hb. by apply same_score_not_after. }
    etransitivity; [|exact Hf].
    rewrite <- (take_drop 3 (array_sort score_after pos)) at 2.
    rewrite filter_app. by apply prefix_app_r.
Qed.

(** ** The worked example *)

(** C1, as amended: the search for [fox] returns chunk [a] alone, with the
    score [1 / (1 * sqrt 2)], the double [0.7071067811865475]. *)
Theorem example_search_value :
  performSearch "fox" example_collection example_index.1 example_index.2
  = Some [{| chunk := example_a; score := 0x1.6a09e667f3bccp-1%float |}].
Proof. vm_compute. reflexivity. Qed.

(** C1 as stated fails: the score of the first result is not [1.0]. *)
Lemma example_not_as_stated : ¬ example_as_stated.
Proof.
  intros (rest & H & _).
  apply (f_equal (λ found, match found with
                           | Some (r :: _) => JsNum.strict_eq (score r) 1
                           | _ => false
                           end)) in H.
  vm_compute in H. discriminate.
Qed.

(** ** Validation *)

Lemma JType_eqb_eq (a b : JType) : JType_eqb a b = true ↔ a = b.
Proof. destruct a, b; simpl; split; congruence. Qed.

Lemma check_fields_None (checks : list (string * JType)) (item : JValue) :
  check_fields checks item = None ↔ Forall (has_type item) checks.
Proof.
  induction checks as [|[f t] checks IH]; simpl.
  - split; [constructor|done].
  - destruct (JType_eqb _ t) eqn:E.
    + apply JType_eqb_eq in E. rewrite IH, Forall_cons. unfold has_type at 2. simpl. tauto.
    + split; [done|]. intros [H _]%Forall_cons. unfold has_type in H. simpl in H.
      apply JType_eqb_eq in H. congruence.
Qed.

(** The error of [check_fields] names the first field that has the wrong
    type, with the type found there. *)
Lemma check_fields_Some (checks : list (string * JType)) (item : JValue) (e : ValidationError) :
  check_fields checks item = Some e →
  ∃ passed f expected rest,
    checks = passed ++ (f, expected) :: rest ∧
    Forall (has_type item) passed ∧
    typeof (prop item f) ≠ expected ∧
    e = InvalidField f (typeof (prop item f)) item.
Proof.
  induction checks as [|[f t] checks IH]; simpl; [done|].
  destruct (JType_eqb _ t) eqn:E.
  - intros (passed & f' & t' & rest & -> & Hp & Hne & ->)%IH.
    exists ((f, t) :: passed), f', t', rest. split_and!; try done.
    constructor; [|done]. by apply JType_eqb_eq.
  - intros [= <-]. exists [], f, t, checks. split_and!; try done.
    intros H%JType_eqb_eq. congruence.
Qed.

Lemma check_item_None (item : JValue) :
  check_item item = None ↔ well_typed_item item.
Proof.
  unfold check_item, well_typed_item.
  destruct item; cbn [typeof JType_eqb negb orb is_null];
    try (split; [done|]; intros (? & ? & ?); congruence);
    rewrite check_fields_None; (split; [intros H; split_and!; done|tauto]).
Qed.

Lemma check_item_Some (item : JValue) (e : ValidationError) :
  check_item item = Some e → describes e item.
Proof.
  unfold check_item, describes.
  destruct (negb _ || _) eqn:E.
  - intros [= <-]. left. split; [done|].
    apply orb_prop in E as [E|E].
    + left. intros H. rewrite H in E. done.
    + right. by destruct item.
  - apply orb_false_elim in E as [E1 E2]. apply negb_false_iff, JType_eqb_eq in E1.
    intros H%check_fields_Some. right. split_and!; try done.
    intros ->. done.
Qed.

Lemma check_items_None (items : list JValue) :
  check_items items = None ↔ Forall well_typed_item items.
Proof.
  induction items as [|item items IH]; simpl.
  - split; [constructor|done].
  - rewrite Forall_cons, <- IH, <- check_item_None.
    destruct (check_item item); [|tauto]. split; [done|]. by intros [? _].
Qed.

Lemma check_items_Some (items : list JValue) (e : ValidationError) :
  check_items items = Some e →
  ∃ passed item rest,
    items = passed ++ item :: rest ∧
    Forall well_typed_item passed ∧ ¬ well_typed_item item ∧ describes e item.
Proof.
  induction items as [|item items IH]; simpl; [done|].
  destruct (check_item item) as [e'|] eqn:E.
  - intros [= <-]. exists [], item, items. split_and!; try done.
    + rewrite <- check_item_None. congruence.
    + by apply check_item_Some.
  - intros (passed & item' & rest & -> & Hp & Hn & Hd)%IH.
    exists (item :: passed), item', rest. split_and!; try done.
    constructor; [|done]. by apply check_item_None.
Qed.

(** C4: a value that is no array is refused; an array with an element that
    fails a test is refused, with the error of its first such element; a
    refusal returns no collection; an accepted input comes back whole and in
    order. *)
Theorem validate_contract (data : JValue) :
  (¬ is_array data → validateAndProcessData data = Throw NotAList) ∧
  (∀ items, data = JArr items → ¬ Forall well_typed_item items →
     ∃ e passed item rest,
       validateAndProcessData data = Throw e ∧
       items = passed ++ item :: rest ∧
       Forall well_typed_item passed ∧ ¬ well_typed_item item ∧ describes e item) ∧
  (∀ e, validateAndProcessData data = Throw e →
     ∀ r, validateAndProcessData data ≠ Ok r) ∧
  (∀ typedData summary, validateAndProcessData data = Ok (typedData, summary) →
     ∃ items, data = JArr items ∧ Forall well_typed_item items ∧
       chunk_object <$> typedData = items ∧
       ∀ i, typedData !! i = as_chunk <$> items !! i).
Proof.
  split_and!.
  - intros Hna. destruct data; try done. destruct Hna. by eexists.
  - intros items -> Hbad. simpl.
    destruct (check_items items) as [e|] eqn:E.
    + apply check_items_Some in E as (passed & item & rest & ? & ? & ? & ?).
      by exists e, passed, item, rest.
    + by apply check_items_None in E.
  - intros e -> r. done.
  - intros typedData summary. destruct data; try done. simpl.
    destruct (check_items items) as [e|] eqn:E; [done|].
    intros [= <- <-]. exists items. split_and!; try done.
    + by apply check_items_None.
    + rewrite <- list_fmap_compose. apply list_fmap_id.
    + intros i. by rewrite list_lookup_fmap.
Qed.

Lemma well_typed_fields (item : JValue) :
  well_typed_item item → typed_fields (as_chunk item).
Proof.
  intros (_ & _ & H). unfold field_checks in H.
  repeat (apply Forall_cons in H as [? H]).
  unfold has_type in *. simpl in *. unfold typed_fields, as_chunk. simpl.
  destruct (prop item "id"), (prop item "source"), (prop item "text"),
    (prop item "startIndex"); done.
Qed.

Lemma validate_Ok_inv (data : JValue) (typedData : list VectorChunk) (summary : SummaryData) :
  validateAndProcessData data = Ok (typedData, summary) →
  ∃ items, data = JArr items ∧ check_items items = None ∧
    typedData = as_chunk <$> items ∧ summary = summarize typedData.
Proof.
  destruct data; try done. simpl.
  destruct (check_items items) eqn:E; [done|]. intros [= <- <-]. by exists items.
Qed.

(** ** Types of the validated fields *)

(** C3, as amended: every chunk of an accepted input has string [id],
    [source] and [text] and a number as [startIndex]; nothing more is checked
    of that number. *)
Theorem validate_field_types (data : JValue) (typedData : list VectorChunk)
    (summary : SummaryData) :
  validateAndProcessData data = Ok (typedData, summary) →
  Forall typed_fields typedData.
Proof.
  intros (items & -> & Hc & -> & _)%validate_Ok_inv.
  apply check_items_None in Hc. apply Forall_fmap.
  eapply Forall_impl; [exact Hc|]. intros item. apply well_typed_fields.
Qed.

(** The fields of the chunk with start index [-1]. *)
Lemma validate_field_types_witness :
  Forall typed_fields [as_chunk (chunk_value "a" "doc1" "red fox" (-1)%float)].
Proof.
  apply (validate_field_types negative_start _
           (summarize [as_chunk (chunk_value "a" "doc1" "red fox" (-1)%float)])).
  reflexivity.
Defined.

(** C3 as stated fails: the start index [-1] is accepted. *)
Lemma startIndex_not_as_stated : ¬ startIndex_as_stated.
Proof.
  intros H.
  specialize (H negative_start _ _ eq_refl).
  apply Forall_cons in H as [[_ H] _]. vm_compute in H. discriminate.
Qed.

(** ** The object store *)

(** C9: a record saved under [id] is the record read back under [id]: same
    file name, same content. *)
Theorem save_then_get (now : Z) (name : string) (data : JValue)
    (db db' : gmap Z StoredVectorStore) (id : Z) :
  saveVectorData now name data db = (Resolved id, db') →
  getVectorStore id db'
  = (Resolved (Some {| store_id := id; fileName := name; content := data |}), db').
Proof.
  unfold saveVectorData, getVectorStore.
  destruct (db !! now) eqn:E; intros [= <- <-].
  by rewrite lookup_insert_eq.
Qed.

(** One record saved into the empty store and read back. *)
Lemma save_then_get_witness :
  getVectorStore 1700000000000 (<[1700000000000%Z :=
      {| store_id := 1700000000000; fileName := "notes.json"; content := negative_start |}]> ∅)
  = (Resolved (Some {| store_id := 1700000000000; fileName := "notes.json";
                       content := negative_start |}),
     <[1700000000000%Z :=
      {| store_id := 1700000000000; fileName := "notes.json"; content := negative_start |}]> ∅).
Proof.
  apply (save_then_get 1700000000000 "notes.json" negative_start ∅). reflexivity.
Defined.

(** A fresh instant always saves. *)
Lemma save_fresh (now : Z) (name : string) (data : JValue) (db : gmap Z StoredVectorStore) :
  db !! now = None →
  ∃ db', saveVectorData now name data db = (Resolved now, db').
Proof. intros H. unfold saveVectorData. rewrite H. by eexists. Qed.

(** ** Blank queries and zero norms *)



Lemma cosine_loop_magA (vecA vecB : list float) (n i : nat) (s : Sums) :
  i + n ≤ length vecA →
  magA (cosine_loop vecA vecB n i s)
  = foldl (λ acc x, acc + x * x)%float (magA s) (take n (drop i vecA)).
Proof.
  revert i s. induction n as [|n IH]; intros i s Hi; simpl; [done|].
  rewrite IH by lia.
  destruct (lookup_lt_is_Some_2 vecA i ltac:(lia)) as [x Hx].
  rewrite (drop_S _ _ _ Hx). simpl. unfold entry.
  by rewrite (nth_lookup_Some _ _ _ _ Hx).
Qed.


Lemma cosine_sums_magA (vecA vecB : list float) :
  magA (cosine_sums vecA vecB) = sum_squares vecA.
Proof.
  unfold cosine_sums. rewrite cosine_loop_magA by (simpl; lia).
  by rewrite drop_0, firstn_all.
Qed.


Lemma cosine_zero_normA (vecA vecB : list float) :
  JsNum.strict_eq (norm vecA) 0 = true → cosineSimilarity vecA vecB = 0%float.
Proof.
  intros H. unfold cosineSimilarity. cbn zeta.
  rewrite cosine_sums_magA. fold (norm vecA). by rewrite H.
Qed.


Lemma sum_squares_zeros (n : nat) : sum_squares (replicate n 0%float) = 0%float.
Proof. unfold sum_squares. induction n as [|n IH]; [done|]. exact IH. Qed.

Lemma norm_zeros (n : nat) : JsNum.strict_eq (norm (replicate n 0%float)) 0 = true.
Proof. unfold norm. by rewrite sum_squares_zeros. Qed.


Lemma score_chunks_zero (q : list float) (chunks : list VectorChunk)
    (vectors : list (list float)) (all : list SearchResult) :
  (∀ vecB, cosineSimilarity q vecB = 0%float) →
  score_chunks q chunks vectors = Some all →
  Forall (λ r, score r = 0%float) all.
Proof.
  intros Hz H%mapM_Some. induction H as [|[i c] r l k Hf _ IH]; constructor; [|done].
  simpl in Hf. unfold score_against in Hf.
  destruct (vectors !! i); simpl in Hf.
  - injection Hf as <-. simpl. apply Hz.
  - destruct (decide _); simpl in Hf; [|done]. by injection Hf as <-.
Qed.



(** ** First occurrences and counts *)

Section FirstSeen.
Context {A : Type} `{EqDecision A}.
Implicit Types (l : list A) (x : A).

Lemma first_seen_snoc l x : first_seen (l ++ [x]) = see (first_seen l) x.
Proof. unfold first_seen. by rewrite foldl_snoc. Qed.

Lemma elem_of_see seen x y : y ∈ see seen x ↔ y ∈ seen ∨ y = x.
Proof.
  unfold see. destruct (decide (x ∈ seen)) as [Hx|Hx].
  - split; [by left|]. intros [?| ->]; done.
  - rewrite elem_of_app, list_elem_of_singleton. done.
Qed.

Lemma elem_of_first_seen l x : x ∈ first_seen l ↔ x ∈ l.
Proof.
  induction l as [|y l IH] using rev_ind; [done|].
  rewrite first_seen_snoc, elem_of_see, IH, elem_of_app, list_elem_of_singleton. done.
Qed.

Lemma NoDup_see seen x : NoDup seen → NoDup (see seen x).
Proof.
  intros Hs. unfold see. destruct (decide (x ∈ seen)); [done|].
  apply NoDup_app. split_and!; [done| |apply NoDup_singleton].
  intros y Hy ->%list_elem_of_singleton. done.
Qed.

Lemma NoDup_first_seen l : NoDup (first_seen l).
Proof.
  induction l as [|y l IH] using rev_ind; [constructor|].
  rewrite first_seen_snoc. by apply NoDup_see.
Qed.

Lemma occurrences_snoc x y l :
  occurrences x (l ++ [y]) = occurrences x l + (if decide (y = x) then 1 else 0).
Proof.
  unfold occurrences. rewrite filter_app, length_app. f_equal.
  rewrite filter_cons, filter_nil. by destruct (decide (y = x)).
Qed.

Lemma occurrences_not_in x l : x ∉ l → occurrences x l = 0.
Proof.
  intros Hx. unfold occurrences. rewrite filter_none; [done|].
  intros y Hy ->. done.
Qed.

Lemma occurrences_pos x l : x ∈ l → 1 ≤ occurrences x l.
Proof.
  intros Hx. unfold occurrences.
  assert (Hf : x ∈ filter (λ y, y = x) l) by by apply list_elem_of_filter.
  destruct (filter _ l); [by apply elem_of_nil in Hf|simpl; lia].
Qed.

End FirstSeen.

(** ** sourceCounts *)

Section OwnProperties.
Context {V : Type} (g : string → V).
Implicit Types (keys : list string) (k : string).

Lemma own_tabulated keys k :
  JsObject.own ((λ s, (s, g s)) <$> keys) k
  = if decide (k ∈ keys) then Some (g k) else None.
Proof.
  induction keys as [|k' keys IH]; cbn [fmap list_fmap JsObject.own].
  - destruct (decide (k ∈ [])) as [H|]; [by apply elem_of_nil in H|done].
  - destruct (string_eqb_spec k' k) as [->|Hne].
    + destruct (decide (k ∈ k :: keys)) as [|H]; [done|]. destruct H. by left.
    + rewrite IH. destruct (decide (k ∈ keys)), (decide (k ∈ k' :: keys)) as [H|H];
        try done.
      * destruct H. by right.
      * apply elem_of_cons in H as [?|?]; congruence.
Qed.

Lemma replace_own_tabulated keys k (v : V) :
  NoDup keys →
  JsObject.replace_own ((λ s, (s, g s)) <$> keys) k v
  = (λ s, (s, if decide (s = k) then v else g s)) <$> keys.
Proof.
  induction 1 as [|k' keys Hk' Hnd IH]; cbn [fmap list_fmap JsObject.replace_own]; [done|].
  destruct (string_eqb_spec k' k) as [->|Hne].
  - rewrite decide_True by done. f_equal.
    apply list_fmap_ext. intros i s Hs. rewrite decide_False; [done|].
    intros ->. apply Hk'. by eapply list_elem_of_lookup_2.
  - rewrite decide_False by done. by rewrite IH.
Qed.

End OwnProperties.

Lemma stored_source_counts (sources : list string) :
  stored <$> source_counts sources
  = (λ s, (s, CNum (occurrences s sources))) <$> first_seen sources.
Proof. unfold source_counts. by rewrite <- list_fmap_compose. Qed.

Lemma count_source_plain (sources : list string) (c : VectorChunk) :
  plain_source c →
  count_source (stored <$> source_counts sources) c
  = stored <$> source_counts (sources ++ [chunk_source c]).
Proof.
  unfold plain_source, JsObject.inherited. intros Hp.
  apply orb_false_elim in Hp as [Hacc Hfun].
  apply bool_decide_eq_false in Hfun.
  set (s := chunk_source c) in *.
  unfold count_source, JsObject.get, JsObject.set. fold s.
  rewrite !stored_source_counts, first_seen_snoc, own_tabulated. unfold see.
  destruct (decide (s ∈ first_seen sources)) as [Hin|Hin].
  - simpl. rewrite replace_own_tabulated by apply NoDup_first_seen.
    apply list_fmap_ext. intros i t Ht. f_equal.
    rewrite occurrences_snoc.
    destruct (decide (t = s)) as [->|Hne].
    + rewrite decide_True by done. f_equal. lia.
    + rewrite decide_False by done. f_equal. lia.
  - rewrite Hacc.
    destruct (JsObject.prototype_function s) as [name|] eqn:E;
      [destruct Hfun; by eexists|].
    simpl. rewrite fmap_app. simpl. f_equal.
    + apply list_fmap_ext. intros i t Ht. f_equal. f_equal.
      rewrite occurrences_snoc, decide_False; [lia|].
      intros ->. apply Hin. by eapply list_elem_of_lookup_2.
    + rewrite occurrences_snoc, decide_True by done.
      rewrite occurrences_not_in; [done|]. by rewrite <- elem_of_first_seen.
Qed.

Lemma sourceCounts_plain (typedData : list VectorChunk) :
  Forall plain_source typedData →
  foldl count_source [] typedData
  = stored <$> source_counts (chunk_source <$> typedData).
Proof.
  induction typedData as [|c typedData IH] using rev_ind; intros H; [done|].
  apply Forall_app in H as [H1 [H2 _]%Forall_cons].
  rewrite foldl_snoc, IH, fmap_app by done. by apply count_source_plain.
Qed.

(** ** Object.entries *)

Section Entries.
Context {V : Type}.
Implicit Types (o : list (string * V)).

Lemma entries_perm o : JsObject.entries o ≡ₚ o.
Proof.
  unfold JsObject.entries. rewrite array_sort_perm.
  induction o as [|e o IH]; [done|].
  rewrite !filter_cons. destruct (JsObject.is_index e.1) eqn:E.
  - rewrite decide_True, decide_False by done. simpl. by f_equiv.
  - rewrite decide_False, decide_True by done.
    rewrite <- Permutation_middle. by f_equiv.
Qed.

Lemma entries_length o : length (JsObject.entries o) = length o.
Proof. by rewrite entries_perm. Qed.

Lemma keys_length o : length (JsObject.keys o) = length o.
Proof. unfold JsObject.keys. by rewrite length_fmap, entries_length. Qed.

(** Without array indices among the keys, the order is the creation order. *)
Lemma entries_no_index o :
  Forall (λ e, JsObject.array_index e.1 = None) o → JsObject.entries o = o.
Proof.
  intros H. unfold JsObject.entries.
  assert (Hf : ∀ e, e ∈ o → JsObject.is_index e.1 = false).
  { intros e He. rewrite Forall_forall in H. unfold JsObject.is_index.
    by rewrite (H e He). }
  rewrite filter_none by (intros e He; rewrite (Hf e He); done). simpl.
  clear H. induction o as [|e o IH]; [done|].
  rewrite filter_cons, decide_True by (apply Hf; left).
  f_equal. apply IH. intros e' He'. apply Hf. by right.
Qed.

End Entries.

Lemma array_sort_fmap {A B} (after : A → A → bool) (after' : B → B → bool)
    (g : A → B) (l : list A) :
  (∀ x y, after' (g x) (g y) = after x y) →
  array_sort after' (g <$> l) = g <$> array_sort after l.
Proof.
  intros Hg. induction l as [|x l IH]; [done|].
  cbn [fmap list_fmap array_sort foldr]. fold (array_sort after' (g <$> l)).
  fold (array_sort after l). rewrite IH. clear IH.
  induction (array_sort after l) as [|y k IH]; [done|].
  cbn [fmap list_fmap sort_insert]. rewrite Hg.
  destruct (after x y); [|done]. cbn [fmap list_fmap]. by rewrite <- IH.
Qed.

Lemma filter_fmap_key {V W} (f : V → W) (p : string → bool) (b : bool)
    (o : list (string * V)) :
  filter (λ e, p e.1 = b) (prod_map id f <$> o)
  = prod_map id f <$> filter (λ e, p e.1 = b) o.
Proof.
  induction o as [|[k v] o IH]; [done|].
  cbn [fmap list_fmap]. rewrite !filter_cons. simpl.
  destruct (decide (p k = b)); cbn [fmap list_fmap]; by rewrite <- IH.
Qed.

Lemma entries_fmap {V W} (f : V → W) (o : list (string * V)) :
  JsObject.entries (prod_map id f <$> o) = prod_map id f <$> JsObject.entries o.
Proof.
  unfold JsObject.entries. rewrite fmap_app. f_equal.
  - rewrite <- (array_sort_fmap JsObject.index_after JsObject.index_after (prod_map id f))
      by by intros [] [].
    f_equal. apply filter_fmap_key.
  - apply filter_fmap_key.
Qed.

(** ** The summary *)

Lemma count_after_stored (x y : string * nat) :
  count_after (stored x) (stored y) = fewer x y.
Proof.
  unfold count_after, fewer. simpl.
  destruct (Nat.ltb_spec x.2 y.2); [apply Z.ltb_lt | apply Z.ltb_ge]; lia.
Qed.

Lemma array_sort_ranked (candidates : list (string * nat)) :
  ranked_by_count candidates (array_sort fewer candidates).
Proof.
  split_and!.
  - apply array_sort_perm.
  - eapply (StronglySorted_impl_on (λ _, True)); last first.
    + apply (array_sort_sorted fewer (λ _, True)).
      * intros a b _ _. unfold fewer. rewrite Nat.ltb_lt, Nat.ltb_ge. lia.
      * intros a b c _ _ _. unfold fewer. rewrite !Nat.ltb_ge. lia.
      * by apply Forall_forall.
    + by apply Forall_forall.
    + intros a b _ _. unfold before, fewer. rewrite Nat.ltb_ge. done.
  - intros n. apply (array_sort_filter fewer (λ _, True)).
    + intros a b _ _ Ha Hb. simpl in Ha, Hb. unfold fewer. apply Nat.ltb_ge. lia.
    + by apply Forall_forall.
Qed.

(** A ranking is determined by its candidates. *)
Lemma sorted_stable_eq (l k : list (string * nat)) :
  StronglySorted (λ a b, b.2 ≤ a.2) l →
  StronglySorted (λ a b, b.2 ≤ a.2) k →
  l ≡ₚ k →
  (∀ n, filter (λ e, e.2 = n) l = filter (λ e, e.2 = n) k) →
  l = k.
Proof.
  intros Hl. revert k. induction Hl as [|x l Hl IH Hx]; intros k Hk Hperm Hf.
  { by apply Permutation_nil_l in Hperm. }
  destruct k as [|y k]; [by apply Permutation_nil_r in Hperm|].
  apply StronglySorted_inv in Hk as [Hk Hy].
  assert (Hxy : x.2 = y.2).
  { assert (Hxin : x ∈ y :: k) by (rewrite <- Hperm; left).
    assert (Hyin : y ∈ x :: l) by (rewrite Hperm; left).
    rewrite Forall_forall in Hx, Hy.
    apply elem_of_cons in Hxin as [->|Hxin]; [done|].
    apply elem_of_cons in Hyin as [->|Hyin]; [done|].
    specialize (Hx y Hyin). specialize (Hy x Hxin). lia. }
  assert (x = y) as <-.
  { specialize (Hf x.2). rewrite !filter_cons in Hf.
    rewrite decide_True in Hf by done. rewrite decide_True in Hf by done.
    by injection Hf. }
  f_equal. apply IH; [done|by eapply Permutation_cons_inv|].
  intros n. specialize (Hf n). rewrite !filter_cons in Hf.
  destruct (decide (x.2 = n)); [by injection Hf|done].
Qed.

Lemma ranked_by_count_unique (candidates ranked ranked' : list (string * nat)) :
  ranked_by_count candidates ranked → ranked_by_count candidates ranked' →
  ranked = ranked'.
Proof.
  intros (Hp & Hs & Hf) (Hp' & Hs' & Hf').
  apply sorted_stable_eq; [done|done|by rewrite Hp, Hp'|].
  intros n. by rewrite Hf, Hf'.
Qed.

Lemma summarize_plain (typedData : list VectorChunk) :
  Forall plain_source typedData →
  let candidates := JsObject.entries (source_counts (chunk_source <$> typedData)) in
  topSources (summarize typedData) = listed <$> take 10 (array_sort fewer candidates) ∧
  uniqueSources (summarize typedData) = length (first_seen (chunk_source <$> typedData)).
Proof.
  intros Hp. unfold summarize. cbn [topSources uniqueSources].
  rewrite sourceCounts_plain by done. split.
  - unfold stored. rewrite entries_fmap.
    rewrite (array_sort_fmap fewer count_after) by apply count_after_stored.
    rewrite <- fmap_take, <- list_fmap_compose. done.
  - rewrite keys_length, length_fmap. unfold source_counts. by rewrite length_fmap.
Qed.

(** C2, as amended: for sources that [Object.prototype] leaves alone,
    [topSources] is the first ten of the (source, count) pairs ranked by
    descending count, where pairs of equal count stand in the order in which
    the object lists its keys: sources that are array indices first, by
    ascending number, then the other sources in first-seen order. *)
Theorem topSources_ranking (data : JValue) (typedData : list VectorChunk)
    (summary : SummaryData) :
  validateAndProcessData data = Ok (typedData, summary) →
  Forall plain_source typedData →
  ∃ ranked,
    ranked_by_count
      (JsObject.entries (source_counts (chunk_source <$> typedData))) ranked ∧
    topSources summary = listed <$> take 10 ranked.
Proof.
  intros (items & _ & _ & _ & ->)%validate_Ok_inv Hp.
  eexists. split; [apply array_sort_ranked|].
  by apply summarize_plain.
Qed.

(** X26: Without array indices and inherited names among the sources, ties are
    in first-seen order, as the specification has it. *)
Lemma topSources_first_seen_order (data : JValue) (typedData : list VectorChunk)
    (summary : SummaryData) :
  validateAndProcessData data = Ok (typedData, summary) →
  Forall plain_source typedData →
  Forall (λ c, JsObject.array_index (chunk_source c) = None) typedData →
  ∃ ranked,
    ranked_by_count (source_counts (chunk_source <$> typedData)) ranked ∧
    topSources summary = listed <$> take 10 ranked.
Proof.
  intros (items & _ & _ & _ & ->)%validate_Ok_inv Hp Hn.
  exists (array_sort fewer (source_counts (chunk_source <$> typedData))).
  split; [apply array_sort_ranked|].
  destruct (summarize_plain _ Hp) as [-> _]. rewrite entries_no_index; [done|].
  unfold source_counts. apply Forall_fmap, Forall_forall. intros s Hs. simpl.
  apply elem_of_first_seen, list_elem_of_fmap in Hs as (c & -> & Hc).
  rewrite Forall_forall in Hn. by apply Hn.
Qed.

(** The ranking of the worked example. *)
Lemma topSources_first_seen_order_witness :
  ∃ ranked,
    ranked_by_count (source_counts (chunk_source <$> example_collection)) ranked ∧
    topSources (summarize example_collection) = listed <$> take 10 ranked.
Proof.
  apply (topSources_first_seen_order example_data example_collection
           (summarize example_collection)).
  - reflexivity.
  - repeat constructor.
  - repeat constructor.
Defined.

(** The ranking of the sources [2] and [1]. *)
Lemma topSources_ranking_witness :
  ∃ ranked,
    ranked_by_count
      (JsObject.entries (source_counts (chunk_source <$> (as_chunk <$> numbered_sources))))
      ranked ∧
    topSources (summarize (as_chunk <$> numbered_sources)) = listed <$> take 10 ranked.
Proof.
  apply (topSources_ranking (JArr numbered_sources) _ _ eq_refl).
  repeat constructor.
Defined.

Lemma filter_all {A} (P : A → Prop) `{!∀ x, Decision (P x)} (l : list A) :
  Forall P l → filter P l = l.
Proof.
  induction 1 as [|x l Hx Hl IH]; [done|].
  by rewrite filter_cons_True, IH.
Qed.

(** C2 as stated fails: the sources [2] and [1], one chunk each, are listed
    as [1], [2], not in first-seen order. *)
Lemma topSources_not_as_stated : ¬ topSources_as_stated.
Proof.
  intros H.
  destruct (H (JArr numbered_sources) _ _ eq_refl) as (ranked & (Hperm & _ & Hties) & Htop).
  specialize (Hties 1).
  rewrite (filter_all (λ e, e.2 = 1) ranked) in Hties.
  - rewrite Hties in Htop. vm_compute in Htop. discriminate.
  - rewrite Hperm. vm_compute. repeat constructor.
Qed.

(** ** Counts of the summary *)

Lemma foldl_text_length (typedData : list VectorChunk) (n : nat) :
  foldl (λ total c, total + List.length (chunk_text c)) n typedData
  = n + sum_list (List.length ∘ chunk_text <$> typedData).
Proof.
  revert n. induction typedData as [|c l IH]; intros n.
  - simpl. lia.
  - cbn [foldl]. rewrite IH. rewrite fmap_cons. cbn [sum_list sum_list_with compose id].
    fold (sum_list (List.length ∘ chunk_text <$> l)). lia.
Qed.

(** X24: For every accepted input [totalChunks] is the number of chunks,
    [totalTextLength] the sum of the lengths of their texts and [topSources]
    has [min(uniqueSources, 10)] entries; for sources that [Object.prototype]
    leaves alone, [uniqueSources] is the number of distinct sources. *)
Lemma summary_counts (data : JValue) (typedData : list VectorChunk)
    (summary : SummaryData) :
  validateAndProcessData data = Ok (typedData, summary) →
  totalChunks summary = length typedData ∧
  totalTextLength summary = sum_list (List.length ∘ chunk_text <$> typedData) ∧
  length (topSources summary) = uniqueSources summary `min` 10 ∧
  (Forall plain_source typedData →
   uniqueSources summary = length (first_seen (chunk_source <$> typedData))).
Proof.
  intros (items & _ & _ & _ & ->)%validate_Ok_inv. split_and!.
  - done.
  - unfold summarize. cbn [totalTextLength]. by rewrite foldl_text_length.
  - unfold summarize. cbn [topSources uniqueSources].
    rewrite length_fmap, length_take, array_sort_length.
    unfold JsObject.keys. rewrite length_fmap. lia.
  - intros Hp. by apply summarize_plain.
Qed.

(** The summary of the worked example. *)
Lemma summary_counts_witness :
  totalChunks (summarize example_collection) = length example_collection.
Proof.
  apply (summary_counts example_data example_collection (summarize example_collection)).
  reflexivity.
Defined.

(** C7 fails at a source named [__proto__]: the collection has one chunk and
    one distinct source, and [uniqueSources] is [0]. *)
Theorem uniqueSources_proto :
  ∃ typedData summary,
    validateAndProcessData (JArr [chunk_value "a" "__proto__" "red fox" 0])
    = Ok (typedData, summary) ∧
    totalChunks summary = 1 ∧
    length (first_seen (chunk_source <$> typedData)) = 1 ∧
    uniqueSources summary = 0.
Proof. do 2 eexists. split; [reflexivity|]. by vm_compute. Qed.

(** C10 fails at a source named [constructor]: the one count listed is a
    string, no number that is at least [1]. *)
Theorem topSources_count_proto :
  ∃ typedData summary listed,
    validateAndProcessData (JArr [chunk_value "a" "constructor" "red fox" 0])
    = Ok (typedData, summary) ∧
    topSources summary = [listed] ∧
    ts_source listed = "constructor" ∧
    count_number (ts_count listed) = None.
Proof. do 3 eexists. split; [reflexivity|]. by vm_compute. Qed.

Lemma NoDup_occurrences {A} `{EqDecision A} (x : A) (l : list A) :
  NoDup l → occurrences x l = if decide (x ∈ l) then 1 else 0.
Proof.
  induction 1 as [|y l Hy Hl IH]; unfold occurrences in *.
  - by rewrite decide_False by apply not_elem_of_nil.
  - rewrite filter_cons. destruct (decide (y = x)) as [->|Hne].
    + rewrite decide_True by left. simpl. rewrite IH. by rewrite decide_False.
    + rewrite IH. destruct (decide (x ∈ l)), (decide (x ∈ y :: l)) as [H|H]; try done.
      * destruct H. by right.
      * apply elem_of_cons in H as [?|?]; congruence.
Qed.

Lemma sum_list_with_plus {A} (f g : A → nat) (l : list A) :
  sum_list_with (λ x, f x + g x) l = sum_list_with f l + sum_list_with g l.
Proof. induction l as [|x l IH]; simpl; lia. Qed.

Lemma sum_list_with_indicator {A} `{EqDecision A} (x : A) (l : list A) :
  sum_list_with (λ y, if decide (x = y) then 1 else 0) l = occurrences x l.
Proof.
  unfold occurrences. induction l as [|y l IH]; [done|].
  rewrite filter_cons. simpl. rewrite IH.
  destruct (decide (x = y)) as [->|Hne].
  - by rewrite decide_True.
  - by rewrite decide_False by congruence.
Qed.

Lemma sum_list_with_fmap {A B} (f : B → nat) (g : A → B) (l : list A) :
  sum_list_with f (g <$> l) = sum_list_with (f ∘ g) l.
Proof. induction l as [|x l IH]; [done|]. simpl. f_equal. exact IH. Qed.

Lemma sum_list_with_ext {A} (f g : A → nat) (l : list A) :
  (∀ x, x ∈ l → f x = g x) → sum_list_with f l = sum_list_with g l.
Proof.
  induction l as [|x l IH]; intros H; simpl; [done|].
  rewrite (H x) by left. rewrite IH; [done|]. intros y Hy. apply H. by right.
Qed.

Lemma sum_list_with_perm {A} (f : A → nat) (l k : list A) :
  l ≡ₚ k → sum_list_with f l = sum_list_with f k.
Proof. induction 1; simpl; lia. Qed.

Lemma sum_list_with_take {A} (f : A → nat) (n : nat) (l : list A) :
  sum_list_with f (take n l) ≤ sum_list_with f l.
Proof.
  rewrite <- (take_drop n l) at 2. rewrite sum_list_with_app. lia.
Qed.

(** Every chunk is counted under exactly one source. *)
Lemma source_counts_total (sources : list string) :
  sum_list_with snd (source_counts sources) = length sources.
Proof.
  unfold source_counts. rewrite sum_list_with_fmap. unfold compose. simpl.
  induction sources as [|s sources IH] using rev_ind; [done|].
  rewrite length_app, first_seen_snoc. simpl.
  rewrite (sum_list_with_ext _ (λ t, occurrences t sources + if decide (s = t) then 1 else 0))
    by (intros t _; apply occurrences_snoc).
  rewrite sum_list_with_plus, sum_list_with_indicator.
  unfold see. destruct (decide (s ∈ first_seen sources)) as [Hin|Hin].
  - rewrite IH, NoDup_occurrences by apply NoDup_first_seen.
    by rewrite decide_True.
  - rewrite sum_list_with_app, IH. simpl.
    rewrite (occurrences_not_in s sources) by by rewrite <- elem_of_first_seen.
    rewrite occurrences_snoc, decide_True by done.
    rewrite (occurrences_not_in s (first_seen sources)) by done. lia.
Qed.

(** X25: For sources that [Object.prototype] leaves alone: every listed count
    is a number, at least one, and the counts listed add up to no more than
    the number of chunks. *)
Lemma topSources_bounds_plain (data : JValue) (typedData : list VectorChunk)
    (summary : SummaryData) :
  validateAndProcessData data = Ok (typedData, summary) →
  Forall plain_source typedData →
  ∃ ranked,
    topSources summary = listed <$> ranked ∧
    Forall (λ e, 1 ≤ e.2) ranked ∧
    sum_list_with snd ranked ≤ totalChunks summary.
Proof.
  intros (items & _ & _ & _ & ->)%validate_Ok_inv Hp.
  destruct (summarize_plain _ Hp) as [Htop _].
  set (sources := chunk_source <$> typedData) in *.
  set (candidates := JsObject.entries (source_counts sources)) in *.
  exists (take 10 (array_sort fewer candidates)). split_and!; [exact Htop| |].
  - apply Forall_take. rewrite array_sort_perm. unfold candidates.
    rewrite entries_perm. unfold source_counts. apply Forall_fmap, Forall_forall.
    intros s Hs. simpl. apply occurrences_pos. by apply elem_of_first_seen.
  - etransitivity; [apply sum_list_with_take|].
    rewrite (sum_list_with_perm _ _ _ (array_sort_perm fewer candidates)).
    unfold candidates. rewrite (sum_list_with_perm _ _ _ (entries_perm _)).
    rewrite source_counts_total. unfold sources, summarize. cbn [totalChunks].
    by rewrite length_fmap.
Qed.

(** The counts of the worked example. *)
Lemma topSources_bounds_plain_witness :
  ∃ ranked,
    topSources (summarize example_collection) = listed <$> ranked ∧
    Forall (λ e, 1 ≤ e.2) ranked ∧
    sum_list_with snd ranked ≤ totalChunks (summarize example_collection).
Proof.
  apply (topSources_bounds_plain example_data example_collection
           (summarize example_collection)).
  - reflexivity.
  - repeat constructor.
Defined.

(** ** The vocabulary and the term vectors *)

Lemma add_token_vocabulary (st : gmap string nat * nat) (seen : list string) (t : string) :
  vocabulary_of st seen → vocabulary_of (add_token st t) (see seen t).
Proof.
  destruct st as [vocab index]. intros (Hix & Hlen & Hsize). simpl in *. subst index.
  unfold add_token, see. simpl.
  destruct (vocab !! t) as [i|] eqn:Ht.
  - apply Hix in Ht. rewrite decide_True by by eapply list_elem_of_lookup_2.
    done.
  - assert (Hnot : t ∉ seen).
    { intros [i Hi]%list_elem_of_lookup. apply Hix in Hi. congruence. }
    rewrite decide_False by done. split_and!; simpl.
    + intros t' i'. destruct (decide (t = t')) as [<-|Hne].
      * rewrite lookup_insert_eq. split.
        -- intros [= <-]. by rewrite lookup_app_r, Nat.sub_diag.
        -- intros Hl. f_equal.
           destruct (decide (i' < length seen)) as [Hlt|Hge].
           ++ rewrite lookup_app_l in Hl by done.
              destruct Hnot. by eapply list_elem_of_lookup_2.
           ++ apply lookup_lt_Some in Hl. rewrite length_app in Hl. simpl in Hl. lia.
      * rewrite lookup_insert_ne by done. rewrite (Hix t' i'). split.
        -- intros Hl. rewrite lookup_app_l; [done|]. by eapply lookup_lt_Some.
        -- intros Hl. destruct (decide (i' < length seen)) as [Hlt|Hge].
           ++ by rewrite lookup_app_l in Hl.
           ++ rewrite lookup_app_r in Hl by lia.
              apply list_lookup_singleton_Some in Hl as [_ ?]. congruence.
    + rewrite length_app. simpl. lia.
    + rewrite map_size_insert_None by done. rewrite length_app. simpl. lia.
Qed.

Lemma foldl_add_token (tokens : list string) (st : gmap string nat * nat)
    (seen : list string) :
  vocabulary_of st seen →
  vocabulary_of (foldl add_token st tokens) (foldl see seen tokens).
Proof.
  revert st seen. induction tokens as [|t tokens IH]; intros st seen H; [done|].
  simpl. by apply IH, add_token_vocabulary.
Qed.

Lemma foldl_concat {A B} (f : A → B → A) (a : A) (ls : list (list B)) :
  foldl (λ a l, foldl f a l) a ls = foldl f a (concat ls).
Proof.
  revert a. induction ls as [|l ls IH]; intros a; [done|].
  simpl. by rewrite foldl_app, IH.
Qed.

Lemma createVocabulary_first_seen (tokenizedDocs : list (list string)) :
  indexes (createVocabulary tokenizedDocs) (first_seen (concat tokenizedDocs)) ∧
  size (createVocabulary tokenizedDocs) = length (first_seen (concat tokenizedDocs)).
Proof.
  unfold createVocabulary. rewrite foldl_concat.
  assert (H0 : vocabulary_of (∅, 0) []).
  { split_and!; [|done|done]. intros t i. simpl. by rewrite lookup_empty, lookup_nil. }
  by destruct (foldl_add_token (concat tokenizedDocs) _ _ H0) as (H1 & _ & H2).
Qed.

Lemma occurrences_cons {A} `{EqDecision A} (x y : A) (l : list A) :
  occurrences x (y :: l) = (if decide (y = x) then 1 else 0) + occurrences x l.
Proof.
  unfold occurrences. rewrite filter_cons. by destruct (decide (y = x)).
Qed.

Lemma indexes_inj (vocab : gmap string nat) (seen : list string) (t t' : string) (i : nat) :
  indexes vocab seen → vocab !! t = Some i → vocab !! t' = Some i → t = t'.
Proof. intros H Ht Ht'. apply H in Ht, Ht'. congruence. Qed.

Section TermVector.
Context (vocab : gmap string nat) (seen : list string).
Hypothesis Hix : indexes vocab seen.

Let count_token (vector : list float) (token : string) : list float :=
  match vocab !! token with
  | Some tokenIndex => increment_at tokenIndex vector
  | None => vector
  end.

Lemma count_tokens (tokens : list string) (vector : list float) :
  length vector = length seen →
  length (foldl count_token vector tokens) = length seen ∧
  ∀ t i, vocab !! t = Some i →
    foldl count_token vector tokens !! i
    = Nat.iter (occurrences t tokens) JsNum.incr <$> vector !! i.
Proof.
  revert vector. induction tokens as [|t0 tokens IH]; intros vector Hlen.
  { split; [done|]. intros t i _. simpl. by destruct (vector !! i). }
  cbn [foldl].
  assert (Hstep : length (count_token vector t0) = length seen ∧
                  ∀ t i, vocab !! t = Some i →
                    count_token vector t0 !! i
                    = Nat.iter (if decide (t0 = t) then 1 else 0) JsNum.incr <$> vector !! i).
  { unfold count_token. destruct (vocab !! t0) as [j|] eqn:Hj.
    - assert (Hlt : j < length vector).
      { rewrite Hlen. apply Hix in Hj. by eapply lookup_lt_Some. }
      unfold increment_at. rewrite (proj2 (Nat.ltb_lt _ _) Hlt).
      split; [by rewrite length_alter|].
      intros t i Hi. destruct (decide (t0 = t)) as [->|Hne].
      + assert (i = j) as -> by congruence.
        rewrite list_lookup_alter_eq. by destruct (vector !! j).
      + rewrite list_lookup_alter_ne; [by destruct (vector !! i)|].
        intros <-. apply Hne. by eapply indexes_inj.
    - split; [done|]. intros t i Hi.
      rewrite decide_False by congruence. by destruct (vector !! i). }
  destruct Hstep as [Hlen' Hstep]. destruct (IH _ Hlen') as [IH1 IH2].
  split; [done|]. intros t i Hi.
  rewrite (IH2 t i Hi), (Hstep t i Hi), occurrences_cons.
  destruct (vector !! i) as [x|]; [|done]. simpl. f_equal.
  destruct (decide (t0 = t)); simpl; [|done].
  exact (eq_sym (Nat.iter_succ_r _ _ _)).
Qed.

Lemma createTfVector_counts (tokens : list string) :
  size vocab = length seen →
  length (createTfVector tokens vocab) = size vocab ∧
  ∀ t i, vocab !! t = Some i →
    createTfVector tokens vocab !! i = Some (JsNum.counted (occurrences t tokens)).
Proof.
  intros Hsize. unfold createTfVector.
  destruct (count_tokens tokens (replicate (size vocab) 0%float)) as [H1 H2].
  { by rewrite length_replicate. }
  split; [exact (eq_trans H1 (eq_sym Hsize))|]. intros t i Hi.
  fold count_token. rewrite (H2 t i Hi), lookup_replicate_2; [done|].
  rewrite Hsize. apply Hix in Hi. by eapply lookup_lt_Some.
Qed.

End TermVector.

(** ** The tokenizer *)

Lemma word_runs_word (w : string) (run : string) (rest : string) :
  all_word w →
  word_runs run (w ++ rest) = word_runs (rev w ++ run) rest.
Proof.
  unfold all_word. revert run. induction w as [|c w IH]; intros run; simpl; [done|].
  intros [Hc Hw]%Forall_cons. rewrite Hc, IH by done.
  by rewrite <- app_assoc.
Qed.

Lemma word_runs_end (run : string) (rest : string) :
  ends_word rest → word_runs run rest = flush run ++ word_runs [] rest.
Proof.
  destruct rest as [|c' rest]; simpl.
  - intros _. by destruct run.
  - intros ->. by destruct run.
Qed.

Lemma word_runs_gap (gap : string) (s : string) :
  no_word gap → word_runs [] (gap ++ s) = word_runs [] s.
Proof. induction 1 as [|c gap Hc _ IH]; simpl; [done|]. by rewrite Hc. Qed.

Lemma word_runs_word_first (w rest : string) :
  w ≠ "" → all_word w → ends_word rest →
  word_runs [] (w ++ rest) = w :: word_runs [] rest.
Proof.
  intros Hne Hw Hrest. rewrite word_runs_word, app_nil_r, word_runs_end by done.
  unfold flush. destruct (rev w) as [|c run] eqn:E.
  - apply (f_equal (@rev N)) in E. rewrite rev_involutive in E. done.
  - by rewrite <- E, rev_involutive.
Qed.

Lemma word_runs_maximal (s : string) (runs : list string) :
  maximal_runs s runs → word_runs [] s = runs.
Proof.
  induction 1 as [gap Hgap|gap w rest runs Hgap Hne Hw Hrest _ IH].
  - rewrite <- (app_nil_r gap). by rewrite word_runs_gap.
  - by rewrite word_runs_gap, word_runs_word_first, IH.
Qed.

Lemma maximal_runs_gap (gap s : string) (runs : list string) :
  no_word gap → maximal_runs s runs → maximal_runs (gap ++ s) runs.
Proof.
  intros Hgap H. destruct H as [gap' Hgap'|gap' w rest runs Hgap' Hne Hw Hrest H].
  - apply runs_none. by apply Forall_app.
  - rewrite app_assoc. apply runs_word; try done. by apply Forall_app.
Qed.

Lemma rev_not_nil (run : string) : run ≠ [] → rev run ≠ [].
Proof.
  intros Hne E. apply (f_equal (@rev N)) in E. by rewrite rev_involutive in E.
Qed.

Lemma maximal_runs_read (s : string) :
  maximal_runs s (word_runs [] s) ∧
  ∀ run, run ≠ [] → all_word run → maximal_runs (rev run ++ s) (word_runs run s).
Proof.
  induction s as [|c s [IH1 IH2]].
  - split; [apply runs_none; constructor|]. intros run Hne Hrun.
    destruct run as [|c run]; [done|]. cbn [word_runs].
    apply (runs_word [] (rev (c :: run)) []).
    + constructor.
    + by apply rev_not_nil.
    + by apply Forall_rev.
    + done.
    + apply runs_none; constructor.
  - cbn [word_runs]. destruct (JsString.is_word_char c) eqn:Hc.
    + split.
      * apply (IH2 [c]); [done|]. by apply Forall_singleton.
      * intros run Hne Hrun.
        replace (rev run ++ c :: s) with (rev (c :: run) ++ s)
          by (simpl; by rewrite <- app_assoc).
        apply IH2; [done|]. by apply Forall_cons.
    + assert (H : maximal_runs (c :: s) (word_runs [] s)).
      { apply (maximal_runs_gap [c]); [|done]. by apply Forall_singleton. }
      split; [done|]. intros run Hne Hrun.
      destruct run as [|d run]; [done|].
      apply (runs_word [] (rev (d :: run)) (c :: s)).
      * constructor.
      * by apply rev_not_nil.
      * by apply Forall_rev.
      * done.
      * done.
Qed.

(** The matches of the regular expression are the maximal runs of word
    characters, and nothing else is. *)
Lemma word_runs_are_maximal (s : string) (runs : list string) :
  maximal_runs s runs ↔ runs = word_runs [] s.
Proof.
  split; [by intros <-%word_runs_maximal|].
  intros ->. apply maximal_runs_read.
Qed.

(** *** The case mappings and the word characters *)

Lemma lowercase_table_ascii :
  Forall (λ e, e = ascii_entry ∨ e = kelvin_entry ∨ beyond_ascii e = true)
         JsString.lowercase_table.
Proof.
  apply Forall_forall. intros e He.
  assert (H : forallb (λ e, bool_decide (e = ascii_entry) || bool_decide (e = kelvin_entry)
                            || beyond_ascii e) JsString.lowercase_table = true)
    by (vm_compute; reflexivity).
  rewrite forallb_forall in H. apply list_elem_of_In in He. specialize (H e He).
  apply orb_prop in H as [H|H]; [apply orb_prop in H as [H|H]|].
  - left. by apply bool_decide_eq_true in H.
  - right. left. by apply bool_decide_eq_true in H.
  - by right; right.
Qed.

Lemma covers_range (p first last step image : N) :
  JsString.covers p (first, last, step, image) = true → (first <= p <= last)%N.
Proof.
  unfold JsString.covers, JsString.in_range.
  intros [[?%N.leb_le ?%N.leb_le]%andb_prop _]%andb_prop. lia.
Qed.

Lemma simple_lowercase_cases (p : N) :
  (JsString.in_range 65 90 p = true ∧ JsString.simple_lowercase p = (p + 32)%N)
  ∨ (p = 0x212A%N ∧ JsString.simple_lowercase p = 0x6B%N)
  ∨ (JsString.in_range 65 90 p = false ∧ (p < 128)%N ∧ JsString.simple_lowercase p = p)
  ∨ ((128 <= p)%N ∧ p ≠ 0x212A%N ∧ (128 <= JsString.simple_lowercase p)%N).
Proof.
  destruct (decide (p = 0x212A%N)) as [->|Hk]; [by right; left|].
  unfold JsString.simple_lowercase.
  destruct (find (JsString.covers p) JsString.lowercase_table)
    as [[[[first last] step] image]|] eqn:E.
  - apply find_some in E as [Hin Hc]. apply list_elem_of_In in Hin.
    apply covers_range in Hc.
    pose proof (proj1 (Forall_forall _ _) lowercase_table_ascii _ Hin) as [H|[H|H]].
    + injection H as -> -> -> ->. left.
      unfold JsString.in_range.
      rewrite (proj2 (N.leb_le _ _) (proj1 Hc)), (proj2 (N.leb_le _ _) (proj2 Hc)).
      split; [done|lia].
    + injection H as -> -> -> ->. lia.
    + right; right; right. unfold beyond_ascii in H.
      apply andb_prop in H as [?%N.leb_le ?%N.leb_le]. lia.
  - destruct (N.lt_ge_cases p 128) as [Hlt|Hge]; [|by right; right; right].
    right; right; left. split_and!; [|done|done].
    destruct (JsString.in_range 65 90 p) eqn:Hr; [|done].
    assert (Hcov : JsString.covers p ascii_entry = true).
    { unfold JsString.covers, ascii_entry. rewrite Hr. simpl. by rewrite N.mod_1_r. }
    rewrite (find_none _ _ E ascii_entry) in Hcov; [done|]. by left.
Qed.

Lemma word_runs_after_gap (gap : string) (run : string) (s : string) :
  gap ≠ [] → no_word gap →
  word_runs run (gap ++ s) = flush run ++ word_runs [] s.
Proof.
  intros Hne Hgap. destruct Hgap as [|c gap Hc Hgap]; [done|].
  simpl. rewrite Hc, word_runs_gap by done. by destruct run.
Qed.

Lemma same_words_runs (x y : string) :
  same_words x y → ∀ run, word_runs run x = word_runs run y.
Proof.
  induction 1 as [|c x y Hc _ IH|g h x y Hg Hh Hgw Hhw _ IH]; intros run.
  - done.
  - simpl. rewrite Hc. apply IH.
  - by rewrite !word_runs_after_gap, IH.
Qed.

Lemma of_code_points_app (ps qs : list N) :
  JsString.of_code_points (ps ++ qs)
  = JsString.of_code_points ps ++ JsString.of_code_points qs.
Proof. unfold JsString.of_code_points. by rewrite map_app, concat_app. Qed.

Lemma beyond_ascii_no_word (c : N) : (128 <= c)%N → JsString.is_word_char c = false.
Proof.
  intros H. unfold JsString.is_word_char, JsString.in_range.
  rewrite (proj2 (N.leb_gt c 57)), (proj2 (N.leb_gt c 90)), (proj2 (N.leb_gt c 122)) by lia.
  rewrite (proj2 (N.eqb_neq c 95)) by lia. by rewrite !andb_false_r.
Qed.

Lemma code_units_gap (q : N) :
  (128 <= q)%N → JsString.code_units q ≠ [] ∧ no_word (JsString.code_units q).
Proof.
  intros H. unfold JsString.code_units. destruct (q <? 0x10000)%N.
  - split; [done|]. by apply Forall_singleton, beyond_ascii_no_word.
  - split; [done|]. apply Forall_cons. split.
    + apply beyond_ascii_no_word. etrans; [|apply N.le_add_r]. lia.
    + apply Forall_singleton, beyond_ascii_no_word. etrans; [|apply N.le_add_r]. lia.
Qed.

Lemma of_code_points_singleton (q : N) :
  JsString.of_code_points [q] = JsString.code_units q.
Proof. unfold JsString.of_code_points. simpl. apply app_nil_r. Qed.

(** A code point beyond ASCII that is neither the Kelvin sign nor the capital
    I with dot above is a gap in lower case. *)
Lemma lowercase_mapping_gap (before after : list N) (p : N) :
  (128 <= p)%N → p ≠ 0x212A%N → p ≠ 0x130%N →
  JsString.of_code_points (JsString.lowercase_mapping before p after) ≠ [] ∧
  no_word (JsString.of_code_points (JsString.lowercase_mapping before p after)).
Proof.
  intros Hp Hk Hi. unfold JsString.lowercase_mapping.
  rewrite (proj2 (N.eqb_neq p 0x130)) by done.
  destruct ((p =? 0x3A3)%N && _).
  - rewrite of_code_points_singleton. by apply code_units_gap.
  - rewrite of_code_points_singleton. apply code_units_gap.
    destruct (simple_lowercase_cases p) as [[H _]|[[H _]|[(_ & H & _)|(_ & _ & H)]]];
      [|done|lia|done].
    unfold JsString.in_range in H. apply andb_prop in H as [_ ?%N.leb_le]. lia.
Qed.

Lemma lowercase_mapping_words (before after : list N) (p : N) (x y : string) :
  same_words x y →
  same_words (JsString.of_code_points (JsString.lowercase_mapping before p after) ++ x)
             (word_lowercase p ++ y).
Proof.
  intros H. unfold word_lowercase.
  destruct (JsString.in_range 65 90 p) eqn:Hcap.
  { unfold JsString.in_range in Hcap.
    apply andb_prop in Hcap as [H1%N.leb_le H2%N.leb_le].
    unfold JsString.lowercase_mapping.
    rewrite (proj2 (N.eqb_neq p 0x130)), (proj2 (N.eqb_neq p 0x3A3)) by lia.
    simpl. rewrite of_code_points_singleton.
    destruct (simple_lowercase_cases p) as [[_ ->]|[[? _]|[(Hn & _)|(? & _)]]];
      [|lia| |lia].
    - unfold JsString.code_units. rewrite (proj2 (N.ltb_lt _ _)) by lia.
      apply same_word; [|done].
      unfold JsString.is_word_char, JsString.in_range.
      rewrite (proj2 (N.leb_le 97 (p + 32))), (proj2 (N.leb_le (p + 32) 122)) by lia.
      by rewrite !orb_true_r.
    - unfold JsString.in_range in Hn.
      rewrite (proj2 (N.leb_le _ _) H1), (proj2 (N.leb_le _ _) H2) in Hn. done. }
  destruct (N.eqb_spec p 0x212A) as [->|Hk].
  { by apply same_word. }
  destruct (N.eqb_spec p 0x130) as [->|Hi].
  { apply (same_word 0x69 ([0x307%N] ++ x) ([0x307%N] ++ y)); [done|].
    apply same_gap; try done. all: by apply Forall_singleton. }
  destruct (N.lt_ge_cases p 128) as [Hlt|Hge].
  - unfold JsString.lowercase_mapping.
    rewrite (proj2 (N.eqb_neq p 0x130)), (proj2 (N.eqb_neq p 0x3A3)) by lia.
    simpl. rewrite of_code_points_singleton.
    destruct (simple_lowercase_cases p) as [[Hc _]|[[? _]|[(_ & _ & ->)|(? & _)]]];
      [congruence|lia| |lia].
    unfold JsString.code_units. rewrite (proj2 (N.ltb_lt _ _)) by lia.
    destruct (JsString.is_word_char p) eqn:Hw.
    + by apply same_word.
    + apply (same_gap [p] [p]); try done. all: by apply Forall_singleton.
  - destruct (lowercase_mapping_gap before after p) as [Hne Hgap]; try done.
    apply same_gap; try done.
    by apply Forall_singleton, beyond_ascii_no_word.
Qed.

Lemma surrogate_lowercase (c : N) : (0xD800 <= c)%N → word_lowercase c = [c].
Proof.
  intros H. unfold word_lowercase, JsString.in_range.
  rewrite (proj2 (N.leb_gt c 90)) by lia. rewrite andb_false_r.
  by rewrite (proj2 (N.eqb_neq c 0x212A)), (proj2 (N.eqb_neq c 0x130)) by lia.
Qed.

Lemma code_points_cons (c d : N) (s : string) :
  JsString.code_points (c :: d :: s)
  = if JsString.is_leading_surrogate c && JsString.is_trailing_surrogate d
    then (0x10000 + (c - 0xD800) * 0x400 + (d - 0xDC00))%N :: JsString.code_points s
    else c :: JsString.code_points (d :: s).
Proof. reflexivity. Qed.

(** In lower case a text has the words it has when its code units are
    lowered one by one. *)
Lemma lowercase_same_words (n : nat) (s : string) (before : list N) :
  length s ≤ n →
  same_words
    (JsString.of_code_points (JsString.lowercase_points before (JsString.code_points s)))
    (s ≫= word_lowercase).
Proof.
  revert s before. induction n as [|n IH]; intros s before Hn.
  { destruct s; [apply same_nil|simpl in Hn; lia]. }
  destruct s as [|c [|d s]]; [apply same_nil| |].
  - cbn [JsString.code_points JsString.lowercase_points].
    rewrite of_code_points_app, bind_cons. apply lowercase_mapping_words, same_nil.
  - rewrite code_points_cons.
    destruct (JsString.is_leading_surrogate c && JsString.is_trailing_surrogate d) eqn:Hp.
    + apply andb_prop in Hp as [Hc Hd].
      unfold JsString.is_leading_surrogate, JsString.is_trailing_surrogate,
        JsString.in_range in Hc, Hd.
      apply andb_prop in Hc as [Hc1%N.leb_le Hc2%N.leb_le].
      apply andb_prop in Hd as [Hd1%N.leb_le Hd2%N.leb_le].
      cbn [JsString.lowercase_points].
      rewrite of_code_points_app, !bind_cons, !surrogate_lowercase by lia.
      destruct (lowercase_mapping_gap before
                  (JsString.code_points s)
                  (0x10000 + (c - 0xD800) * 0x400 + (d - 0xDC00))%N) as [Hne Hgap];
        [lia..|].
      apply (same_gap _ [c; d]); try done.
      * apply Forall_cons. split; [apply beyond_ascii_no_word; lia|].
        apply Forall_singleton, beyond_ascii_no_word. lia.
      * apply IH. simpl in Hn. lia.
    + cbn [JsString.lowercase_points].
      rewrite of_code_points_app, bind_cons.
      apply lowercase_mapping_words, IH. simpl in Hn |- *. lia.
Qed.

(** The tokens are found code unit by code unit. *)
Lemma tokenize_by_code_unit (text : string) :
  tokenize text = word_runs [] (text ≫= word_lowercase).
Proof.
  unfold tokenize, JsString.toLowerCase.
  by apply same_words_runs, (lowercase_same_words (length text)).
Qed.

Lemma separator_lowercase (c : N) : separator c → word_lowercase c = [c].
Proof.
  intros (Hw & Hk & Hi). unfold word_lowercase.
  destruct (JsString.in_range 65 90 c) eqn:Hc.
  { unfold JsString.is_word_char in Hw. rewrite Hc in Hw.
    by rewrite orb_true_r in Hw. }
  by rewrite (proj2 (N.eqb_neq c 0x212A)), (proj2 (N.eqb_neq c 0x130)).
Qed.

(** What lowering one code unit gives: word characters that are no capitals,
    or the unit itself. *)
Lemma word_lowercase_no_capital (c : N) :
  Forall (λ d, JsString.in_range 65 90 d = false) (word_lowercase c).
Proof.
  unfold word_lowercase. destruct (JsString.in_range 65 90 c) eqn:Hc.
  - apply Forall_singleton. unfold JsString.in_range in *.
    apply andb_prop in Hc as [H1%N.leb_le H2%N.leb_le].
    rewrite (proj2 (N.leb_gt (c + 32) 90)) by lia. apply andb_false_r.
  - destruct (c =? 0x212A)%N; [by apply Forall_singleton|].
    destruct (c =? 0x130)%N; [by repeat constructor|].
    by apply Forall_singleton.
Qed.

Lemma word_lowercase_separator (c : N) :
  no_word (word_lowercase c) ↔ separator c.
Proof.
  split.
  - intros H. unfold word_lowercase, no_word in H.
    destruct (JsString.in_range 65 90 c) eqn:Hc.
    { rewrite Forall_singleton in H. unfold JsString.in_range in Hc.
      apply andb_prop in Hc as [H1%N.leb_le H2%N.leb_le].
      unfold JsString.is_word_char, JsString.in_range in H.
      rewrite (proj2 (N.leb_le 97 (c + 32))), (proj2 (N.leb_le (c + 32) 122)) in H by lia.
      by rewrite !orb_true_r in H. }
    destruct (N.eqb_spec c 0x212A) as [->|Hk].
    { by rewrite Forall_singleton in H. }
    destruct (N.eqb_spec c 0x130) as [->|Hi].
    { by apply Forall_cons in H as [H _]. }
    by rewrite Forall_singleton in H.
  - intros H. rewrite separator_lowercase by done. apply Forall_singleton, H.
Qed.

Lemma lowercase_separators (s : string) :
  no_word (s ≫= word_lowercase) ↔ Forall separator s.
Proof.
  induction s as [|c s IH]; [by split; constructor|].
  rewrite bind_cons, Forall_cons. unfold no_word in *.
  by rewrite Forall_app, IH, <- word_lowercase_separator.
Qed.

Lemma word_runs_separator (run : string) (a : string) (c : N) (b : string) :
  JsString.is_word_char c = false →
  word_runs run (a ++ c :: b) = word_runs run a ++ word_runs [] b.
Proof.
  intros Hc. revert run. induction a as [|d a IH]; intros run; simpl.
  - rewrite Hc. by destruct run.
  - destruct (JsString.is_word_char d); [apply IH|].
    destruct run; by rewrite IH.
Qed.

Lemma word_runs_nil (run : string) (s : string) :
  word_runs run s = [] ↔ run = [] ∧ no_word s.
Proof.
  revert run. induction s as [|c s IH]; intros run; simpl.
  - destruct run.
    + split; [|done]. intros _. split; [done|constructor].
    + split; [done|]. by intros [? _].
  - destruct (JsString.is_word_char c) eqn:Hc.
    + rewrite IH. split; [by intros [? _]|]. intros [_ H].
      unfold no_word in H. apply Forall_cons in H as [H _]. congruence.
    + destruct run.
      * rewrite IH. unfold no_word. rewrite Forall_cons.
        split; [intros [? ?]|intros [? [? ?]]]; by repeat split.
      * split; [done|]. by intros [? _].
Qed.

Lemma word_runs_lower (run : string) (s : string) :
  Forall (λ c, JsString.is_word_char c = true ∧ JsString.in_range 65 90 c = false) run →
  Forall (λ c, JsString.in_range 65 90 c = false) s →
  Forall lower_word (word_runs run s).
Proof.
  revert run. induction s as [|c s IH]; intros run Hrun Hs; simpl.
  - destruct run as [|d run]; constructor; [|constructor].
    split; [by apply rev_not_nil|by apply Forall_rev].
  - apply Forall_cons in Hs as [Hc Hs].
    destruct (JsString.is_word_char c) eqn:Hw.
    + apply IH; [|done]. by apply Forall_cons.
    + destruct run as [|d run]; [by apply IH|].
      constructor; [|by apply IH].
      split; [by apply rev_not_nil|by apply Forall_rev].
Qed.

Lemma lowercase_no_capital (s : string) :
  Forall (λ c, JsString.in_range 65 90 c = false) (s ≫= word_lowercase).
Proof.
  induction s as [|c s IH]; [constructor|].
  rewrite bind_cons. apply Forall_app. split; [apply word_lowercase_no_capital|done].
Qed.








(** ** The index *)

(** C6: the tokens of a chunk are the maximal runs of word characters of its
    text in lower case, in their order, and nothing else is (in lower case:
    as [toLowerCase] returns the text, which for the runs is the text with
    [A-Z], the Kelvin sign and the capital I with dot above lowered and
    every other code unit kept); the vocabulary maps the distinct tokens of
    the collection to their positions in first-seen order, its size is their
    number, there is one vector per chunk, of the length of the vocabulary,
    and the entry at a token's index is the number of occurrences of the
    token in the chunk, [0] when it does not occur. *)
Theorem precomputeVectors_index (chunks : list VectorChunk) :
  let docs := (λ c, tokenize (chunk_text c)) <$> chunks in
  let distinct := first_seen (concat docs) in
  let vectors := (precomputeVectors chunks).1 in
  let vocab := (precomputeVectors chunks).2 in
  Forall2 (λ c doc, ∀ runs,
             (maximal_runs (JsString.toLowerCase (chunk_text c)) runs ↔ runs = doc) ∧
             (maximal_runs (chunk_text c ≫= word_lowercase) runs ↔ runs = doc))
          chunks docs ∧
  (∀ t i, vocab !! t = Some i ↔ distinct !! i = Some t) ∧
  (NoDup distinct ∧ ∀ t, t ∈ distinct ↔ t ∈ concat docs) ∧
  size vocab = length distinct ∧
  length vectors = length chunks ∧
  ∀ k doc, docs !! k = Some doc →
    ∃ vector, vectors !! k = Some vector ∧
      length vector = size vocab ∧
      ∀ t i, vocab !! t = Some i →
        vector !! i = Some (JsNum.counted (occurrences t doc)) ∧
        (t ∉ doc → vector !! i = Some 0%float) ∧
        ((Z.of_nat (occurrences t doc) ≤ 2 ^ 53)%Z →
         vector !! i = Some (JsNum.of_nat (occurrences t doc))).
Proof.
  intros docs distinct vectors vocab.
  destruct (createVocabulary_first_seen docs) as [Hix Hsize].
  fold distinct in Hix, Hsize.
  assert (Hvocab : vocab = createVocabulary docs) by reflexivity.
  assert (Hvectors : vectors = (λ tokens, createTfVector tokens vocab) <$> docs)
    by reflexivity.
  rewrite <- Hvocab in Hix, Hsize.
  split_and!.
  - apply Forall2_fmap_r, Forall_Forall2_diag, Forall_forall.
    intros c _ runs. split; [apply word_runs_are_maximal|].
    rewrite tokenize_by_code_unit. apply word_runs_are_maximal.
  - exact Hix.
  - apply NoDup_first_seen.
  - intros t. apply elem_of_first_seen.
  - exact Hsize.
  - unfold docs in Hvectors. by rewrite Hvectors, !length_fmap.
  - intros k doc Hdoc. exists (createTfVector doc vocab).
    destruct (createTfVector_counts vocab distinct Hix doc Hsize) as [Hlen Hcount].
    split_and!; [by rewrite Hvectors, list_lookup_fmap, Hdoc|done|].
    intros t i Hi. specialize (Hcount t i Hi). split_and!; [done| |].
    + intros Ht. by rewrite Hcount, occurrences_not_in.
    + intros Hb. by rewrite Hcount, Binary64.counted_of_nat.
Qed.

(** ** The list of stores *)

Lemma id_after_asym (a b : StoreMeta) :
  True → True → id_after a b = true → id_after b a = false.
Proof. unfold id_after. intros _ _ H. apply Z.ltb_lt in H. apply Z.ltb_ge. lia. Qed.

Lemma id_after_trans (a b c : StoreMeta) :
  True → True → True →
  id_after a b = false → id_after b c = false → id_after a c = false.
Proof. unfold id_after. intros _ _ _. rewrite !Z.ltb_ge. lia. Qed.

Lemma Forall_True {A} (l : list A) : Forall (λ _, True) l.
Proof. by apply Forall_forall. Qed.

(** A list in non-ascending order of identifiers that are pairwise distinct
    is in strictly descending order. *)
Lemma sorted_distinct_newest_first (meta : list StoreMeta) :
  StronglySorted (before id_after) meta → NoDup (meta_id <$> meta) →
  newest_first meta.
Proof.
  unfold newest_first.
  induction 1 as [|a l Hl IH Ha]; intros Hnd; [constructor|].
  rewrite fmap_cons in Hnd. apply NoDup_cons in Hnd as [Hnotin Hnd].
  constructor; [by apply IH|].
  apply Forall_forall. intros b Hb.
  rewrite Forall_forall in Ha. specialize (Ha b Hb).
  unfold before, id_after in Ha. apply Z.ltb_ge in Ha.
  assert (meta_id b ≠ meta_id a).
  { intros E. apply Hnotin. rewrite <- E. by apply list_elem_of_fmap_2. }
  lia.
Qed.

Lemma array_sort_newest_first (meta : list StoreMeta) :
  NoDup (meta_id <$> meta) → newest_first (array_sort id_after meta).
Proof.
  intros Hnd. apply sorted_distinct_newest_first.
  - apply (array_sort_sorted id_after (λ _, True) id_after_asym id_after_trans).
    apply Forall_True.
  - by rewrite (array_sort_perm id_after meta).
Qed.

Lemma newest_first_unique (l k : list StoreMeta) :
  newest_first l → newest_first k → l ≡ₚ k → l = k.
Proof.
  apply StronglySorted_unique_strong. intros; lia.
Qed.

Lemma newest_first_filter (P : StoreMeta → Prop) `{!∀ x, Decision (P x)}
    (l : list StoreMeta) :
  newest_first l → newest_first (filter P l).
Proof.
  unfold newest_first. induction 1 as [|a l Hl IH Ha]; [constructor|].
  rewrite filter_cons. destruct (decide (P a)); [|done].
  constructor; [done|]. apply Forall_forall. intros b [_ Hb]%list_elem_of_filter.
  rewrite Forall_forall in Ha. by apply Ha.
Qed.

Lemma getAll_perm (db : gmap Z StoredVectorStore) :
  getAll db ≡ₚ (map_to_list db).*2.
Proof. unfold getAll. by rewrite (array_sort_perm key_after). Qed.

(** The list before the sort of [getAllVectorStoresMeta], up to order. *)
Lemma keyed_ids (db : gmap Z StoredVectorStore) :
  keyed db → store_id <$> (map_to_list db).*2 = (map_to_list db).*1.
Proof.
  intros Hk. rewrite <- list_fmap_compose.
  apply list_fmap_ext. intros i [k r] Hl. simpl.
  apply (Hk k r). apply elem_of_map_to_list.
  by apply list_elem_of_lookup_2 in Hl.
Qed.

Lemma meta_ids_NoDup (db : gmap Z StoredVectorStore) :
  keyed db → NoDup (meta_id <$> (meta_of <$> getAll db)).
Proof.
  intros Hk. rewrite <- list_fmap_compose.
  change (meta_id ∘ meta_of) with store_id.
  rewrite getAll_perm, keyed_ids by done.
  apply NoDup_fst_map_to_list.
Qed.

Lemma elem_of_getAll (db : gmap Z StoredVectorStore) (r : StoredVectorStore) :
  r ∈ getAll db ↔ ∃ key, db !! key = Some r.
Proof.
  rewrite getAll_perm, list_elem_of_fmap. split.
  - intros [[k r'] [-> H]]. exists k. by apply elem_of_map_to_list.
  - intros [k H]. exists (k, r). split; [done|]. by apply elem_of_map_to_list.
Qed.

Lemma listing_newest_first (db : gmap Z StoredVectorStore) :
  keyed db → newest_first (array_sort id_after (meta_of <$> getAll db)).
Proof. intros Hk. by apply array_sort_newest_first, meta_ids_NoDup. Qed.

Lemma listing_ids (db : gmap Z StoredVectorStore) :
  keyed db →
  meta_id <$> array_sort id_after (meta_of <$> getAll db) ≡ₚ (map_to_list db).*1.
Proof.
  intros Hk. rewrite (array_sort_perm id_after), <- list_fmap_compose.
  change (meta_id ∘ meta_of) with store_id.
  by rewrite getAll_perm, keyed_ids.
Qed.

(** The list of a store with one more record, and of a store with one record
    less. *)
Lemma listing_insert (db : gmap Z StoredVectorStore) (r : StoredVectorStore) :
  keyed db → db !! store_id r = None →
  array_sort id_after (meta_of <$> getAll (<[store_id r := r]> db))
  = array_sort id_after (meta_of r :: array_sort id_after (meta_of <$> getAll db)).
Proof.
  intros Hk Hnew.
  assert (Hk' : keyed (<[store_id r := r]> db)) by by apply map_Forall_insert_2.
  apply newest_first_unique.
  - by apply listing_newest_first.
  - apply array_sort_newest_first. rewrite fmap_cons.
    apply NoDup_cons. split.
    + rewrite listing_ids by done.
      intros [[k r'] [E Hin]]%list_elem_of_fmap. simpl in E. subst k.
      apply elem_of_map_to_list in Hin. congruence.
    + rewrite listing_ids by done. apply NoDup_fst_map_to_list.
  - rewrite !(array_sort_perm id_after), getAll_perm, getAll_perm.
    rewrite map_to_list_insert by done. by rewrite !fmap_cons.
Qed.

Lemma listing_delete (db : gmap Z StoredVectorStore) (id : Z) :
  keyed db →
  array_sort id_after (meta_of <$> getAll (delete id db))
  = filter (λ s, meta_id s ≠ id) (array_sort id_after (meta_of <$> getAll db)).
Proof.
  intros Hk.
  assert (Hk' : keyed (delete id db)) by by apply map_Forall_delete.
  apply newest_first_unique.
  - by apply listing_newest_first.
  - by apply newest_first_filter, listing_newest_first.
  - rewrite !(array_sort_perm id_after), !getAll_perm.
    destruct (db !! id) as [r|] eqn:E.
    + rewrite <- (map_to_list_delete db id r E). rewrite !fmap_cons, filter_cons.
      simpl. rewrite (Hk id r E). rewrite decide_False by (intros H; by apply H).
      symmetry. rewrite filter_all; [done|].
      apply Forall_forall. intros m [r' [-> [[k r''] [E' Hin]]%list_elem_of_fmap]]%list_elem_of_fmap.
      simpl in E'. subst r''. apply elem_of_map_to_list in Hin.
      simpl. rewrite (Hk' k r' Hin). intros ->. by rewrite lookup_delete_eq in Hin.
    + rewrite delete_id by done. symmetry. rewrite filter_all; [done|].
      apply Forall_forall. intros m [r' [-> [[k r''] [E' Hin]]%list_elem_of_fmap]]%list_elem_of_fmap.
      simpl in E'. subst r''. apply elem_of_map_to_list in Hin.
      simpl. rewrite (Hk k r' Hin). intros ->. congruence.
Qed.

Lemma elem_of_listing (db : gmap Z StoredVectorStore) (m : StoreMeta) :
  keyed db →
  m ∈ array_sort id_after (meta_of <$> getAll db)
  ↔ ∃ r, db !! meta_id m = Some r ∧ meta_fileName m = fileName r.
Proof.
  intros Hk. rewrite (array_sort_perm id_after), list_elem_of_fmap. split.
  - intros [r [-> [k Hr]%elem_of_getAll]]. exists r. split; [|done].
    simpl. by rewrite (Hk k r Hr).
  - intros [r [Hr Hn]]. exists r. split; [|apply elem_of_getAll; eauto].
    destruct m as [i n]. simpl in *. unfold meta_of. by rewrite (Hk i r Hr), Hn.
Qed.

Lemma newest_first_head (a : StoreMeta) (l : list StoreMeta) (b : StoreMeta) :
  newest_first (a :: l) → b ∈ a :: l → (meta_id b ≤ meta_id a)%Z.
Proof.
  intros Hs Hb. apply StronglySorted_inv in Hs as [_ Ha].
  apply elem_of_cons in Hb as [->|Hb]; [lia|].
  rewrite Forall_forall in Ha. specialize (Ha b Hb). simpl in Ha. lia.
Qed.

Lemma listing_head_newest (db : gmap Z StoredVectorStore) (a : StoreMeta)
    (l : list StoreMeta) :
  keyed db →
  array_sort id_after (meta_of <$> getAll db) = a :: l →
  newest db (meta_id a).
Proof.
  intros Hk E. split.
  - assert (Ha : a ∈ array_sort id_after (meta_of <$> getAll db))
      by (rewrite E; left).
    apply elem_of_listing in Ha as [r [Hr _]]; eauto.
  - intros key [r Hr].
    assert (Hin : meta_of r ∈ array_sort id_after (meta_of <$> getAll db)).
    { apply elem_of_listing; [done|]. exists r. simpl. by rewrite (Hk key r Hr). }
    rewrite E in Hin.
    pose proof (listing_newest_first db Hk) as Hs. rewrite E in Hs.
    pose proof (newest_first_head a l _ Hs Hin) as Hle.
    simpl in Hle. by rewrite (Hk key r Hr) in Hle.
Qed.

Lemma listing_nil (db : gmap Z StoredVectorStore) :
  array_sort id_after (meta_of <$> getAll db) = [] → db = ∅.
Proof.
  intros E. apply (f_equal length) in E.
  rewrite (array_sort_length id_after), length_fmap in E.
  unfold getAll in E. rewrite length_fmap, (array_sort_length key_after) in E.
  rewrite length_map_to_list in E. simpl in E. by apply map_size_empty_inv.
Qed.

(** ** The worked example in a store *)

Lemma example_store_keyed : keyed example_store.
Proof. apply map_Forall_insert_2; [reflexivity|apply map_Forall_empty]. Qed.

Lemma example_data_accepted :
  validateAndProcessData example_data
  = Ok (example_collection, summarize example_collection).
Proof. reflexivity. Qed.

Lemma example_store_validated : validated example_store.
Proof.
  apply map_Forall_insert_2; [|apply map_Forall_empty].
  eexists _, _. exact example_data_accepted.
Qed.

Lemma example_store_listing :
  getAllVectorStoresMeta example_store
  = (Resolved [{| meta_id := 1700000000000; meta_fileName := "notes.json" |}],
     example_store).
Proof. vm_compute. reflexivity. Qed.

Lemma example_state_fields :
  App.objectStore example_state = example_store ∧
  App.availableStores example_state
  = [{| meta_id := 1700000000000; meta_fileName := "notes.json" |}] ∧
  App.selectedStoreId example_state = Some 1700000000000%Z ∧
  App.vectorData example_state = Some example_collection ∧
  App.precomputedData example_state = Some example_index ∧
  App.isReplying example_state = false.
Proof.
  split_and!; vm_compute; reflexivity.
Qed.

Lemma example_state_consistent : consistent example_state.
Proof.
  destruct example_state_fields as (Hs & Ha & Hi & Hd & Hp & _).
  unfold consistent. rewrite Hs, Ha. split_and!.
  - exact example_store_keyed.
  - exact example_store_validated.
  - exact example_store_listing.
  - rewrite Hi. intros id [= <-]. unfold example_store.
    rewrite lookup_insert_eq. by eexists.
  - intros chunks index. rewrite Hd, Hp. by intros [= <-] [= <-].
Qed.

(** ** The object store, continued *)

Lemma perform_keyed (db : gmap Z StoredVectorStore) (q : Request) :
  keyed db → keyed (perform db q).
Proof.
  intros Hk. destruct q as [now name data|id]; simpl.
  - unfold saveVectorData. destruct (db !! now); [done|].
    by apply map_Forall_insert_2.
  - by apply map_Forall_delete.
Qed.

(** X1: In every store that saving and deleting can produce from the empty
    one, each record sits under the key that its field [id] holds, and
    [getVectorStore(id)] resolves with a record whose [id] is the one asked
    for, or with [null]. *)
Theorem store_keeps_key_path (requests : list Request) (id : Z) :
  let db := foldl perform ∅ requests in
  keyed db ∧
  ∀ r, getVectorStore id db = (Resolved (Some r), db) → store_id r = id.
Proof.
  intros db.
  assert (Hk : keyed db).
  { unfold db. generalize (∅ : gmap Z StoredVectorStore) (map_Forall_empty (M:=gmap Z) (λ key (r : StoredVectorStore), store_id r = key)).
    induction requests as [|q requests IH]; intros db0 H0; [done|].
    simpl. apply IH. by apply perform_keyed. }
  split; [done|]. unfold getVectorStore. intros r Hr.
  apply (Hk id r). congruence.
Qed.

(** X2: [getAllVectorStoresMeta] lists every stored record once, by its
    identifier and file name, newest first, and leaves the store as it is. *)
Theorem stores_listed_newest_first (db : gmap Z StoredVectorStore) :
  keyed db →
  ∃ meta,
    getAllVectorStoresMeta db = (Resolved meta, db) ∧
    newest_first meta ∧
    length meta = size db ∧
    ∀ id name,
      {| meta_id := id; meta_fileName := name |} ∈ meta
      ↔ ∃ r, db !! id = Some r ∧ fileName r = name.
Proof.
  intros Hk. eexists. split; [reflexivity|]. split_and!.
  - by apply listing_newest_first.
  - rewrite (array_sort_length id_after), length_map. unfold getAll.
    by rewrite length_fmap, (array_sort_length key_after), length_map_to_list.
  - intros id name.
    rewrite (elem_of_listing db {| meta_id := id; meta_fileName := name |} Hk).
    simpl. split; intros [r [Hr Hn]]; by exists r.
Qed.

(** The list of the store that holds the worked example. *)
Lemma stores_listed_newest_first_witness :
  ∃ meta,
    getAllVectorStoresMeta example_store = (Resolved meta, example_store) ∧
    newest_first meta ∧
    length meta = size example_store ∧
    ∀ id name,
      {| meta_id := id; meta_fileName := name |} ∈ meta
      ↔ ∃ r, example_store !! id = Some r ∧ fileName r = name.
Proof.
  apply (stores_listed_newest_first example_store).
  apply map_Forall_insert_2; [reflexivity|apply map_Forall_empty].
Defined.

(** X3: A record, once stored, is never changed by a later save: [store.add]
    rejects a key that is taken. *)
Theorem save_never_overwrites (now : Z) (name : string) (data : JValue)
    (db : gmap Z StoredVectorStore) (key : Z) (r : StoredVectorStore) :
  db !! key = Some r →
  (saveVectorData now name data db).2 !! key = Some r ∧
  (key = now →
   saveVectorData now name data db
   = (Rejected "Failed to save data to IndexedDB.", db)).
Proof.
  intros Hr. unfold saveVectorData.
  destruct (db !! now) as [r'|] eqn:Hnow; simpl.
  - done.
  - assert (key ≠ now) by congruence. by rewrite lookup_insert_ne.
Qed.

(** A second save at the instant of the first leaves the first record. *)
Lemma save_never_overwrites_witness :
  (saveVectorData 1700000000000 "other.json" JNull example_store).2
    !! 1700000000000%Z = Some example_record.
Proof.
  apply (save_never_overwrites 1700000000000 "other.json" JNull example_store
           1700000000000 example_record).
  vm_compute. reflexivity.
Defined.

(** X4: Deleting the store that a save has just created gives back the object
    store as it was before the save. *)
Theorem save_then_delete (now : Z) (name : string) (data : JValue)
    (db db' : gmap Z StoredVectorStore) (id : Z) :
  saveVectorData now name data db = (Resolved id, db') →
  deleteVectorStore id db' = (Resolved tt, db).
Proof.
  unfold saveVectorData, deleteVectorStore.
  destruct (db !! now) eqn:Hnow; [done|]. intros H.
  assert (id = now) as -> by congruence.
  assert (db' = <[now:={| store_id := now; fileName := name; content := data |}]> db)
    as -> by congruence.
  f_equal. by apply delete_insert_id.
Qed.

(** The worked example saved into the empty store and deleted again. *)
Lemma save_then_delete_witness :
  deleteVectorStore 1700000000000 example_store = (Resolved tt, ∅).
Proof.
  apply (save_then_delete 1700000000000 "notes.json" example_data ∅ example_store).
  reflexivity.
Defined.

(** X5: The list of stores after a save is the list before it with the new
    entry sorted in, and the new entry comes first when the clock has moved
    past every stored identifier. *)
Theorem listing_after_save (now : Z) (name : string) (data : JValue)
    (db db' : gmap Z StoredVectorStore) (id : Z) (old : list StoreMeta) :
  keyed db →
  saveVectorData now name data db = (Resolved id, db') →
  getAllVectorStoresMeta db = (Resolved old, db) →
  let entry := {| meta_id := id; meta_fileName := name |} in
  getAllVectorStoresMeta db' = (Resolved (array_sort id_after (entry :: old)), db') ∧
  ((∀ key, is_Some (db !! key) → (key < now)%Z) →
   getAllVectorStoresMeta db' = (Resolved (entry :: old), db')).
Proof.
  intros Hk Hsave Hold entry.
  unfold saveVectorData in Hsave.
  destruct (db !! now) eqn:Hnow; [done|].
  set (r := {| store_id := now; fileName := name; content := data |}) in Hsave.
  assert (id = now) as -> by congruence.
  assert (db' = <[now := r]> db) as -> by congruence.
  unfold getAllVectorStoresMeta in Hold.
  assert (Hold' : old = array_sort id_after (meta_of <$> getAll db))
    by (by injection Hold as <-).
  assert (Hfirst :
    getAllVectorStoresMeta (<[now := r]> db)
    = (Resolved (array_sort id_after (entry :: old)), <[now := r]> db)).
  { unfold getAllVectorStoresMeta. do 2 f_equal. rewrite Hold'.
    apply (listing_insert db r Hk Hnow). }
  split; [done|]. intros Hclock. rewrite Hfirst. do 2 f_equal.
  apply newest_first_unique.
  - apply array_sort_newest_first.
    pose proof (meta_ids_NoDup (<[now := r]> db)) as Hnd.
    assert (Hp : entry :: old ≡ₚ meta_of <$> getAll (<[now := r]> db)).
    { rewrite Hold', (array_sort_perm id_after), !getAll_perm.
      rewrite map_to_list_insert by done. by rewrite !fmap_cons. }
    rewrite Hp. apply Hnd. by apply map_Forall_insert_2.
  - constructor.
    + rewrite Hold'. by apply listing_newest_first.
    + apply Forall_forall. intros m Hm. rewrite Hold' in Hm.
      apply elem_of_listing in Hm as [r' [Hr' _]]; [|done].
      simpl. apply Hclock. eauto.
  - apply (array_sort_perm id_after).
Qed.

(** A second store, saved one millisecond after the first, is listed first. *)
Lemma listing_after_save_witness :
  getAllVectorStoresMeta
    (<[1700000000001%Z := {| store_id := 1700000000001; fileName := "more.json";
                             content := example_data |}]> example_store)
  = (Resolved [{| meta_id := 1700000000001; meta_fileName := "more.json" |};
               {| meta_id := 1700000000000; meta_fileName := "notes.json" |}],
     <[1700000000001%Z := {| store_id := 1700000000001; fileName := "more.json";
                             content := example_data |}]> example_store).
Proof.
  apply (listing_after_save 1700000000001 "more.json" example_data example_store
           _ 1700000000001
           [{| meta_id := 1700000000000; meta_fileName := "notes.json" |}]).
  - apply map_Forall_insert_2; [reflexivity|apply map_Forall_empty].
  - vm_compute. reflexivity.
  - vm_compute. reflexivity.
  - intros key [r Hr]. unfold example_store in Hr.
    apply lookup_insert_Some in Hr as [[<- _]|[_ Hr]]; [lia|].
    by rewrite lookup_empty in Hr.
Defined.

(** X6: The list of stores after a delete is the list before it without the
    entry of the deleted identifier. *)
Theorem listing_after_delete (id : Z) (db : gmap Z StoredVectorStore)
    (old : list StoreMeta) :
  keyed db →
  getAllVectorStoresMeta db = (Resolved old, db) →
  let db' := (deleteVectorStore id db).2 in
  getAllVectorStoresMeta db'
  = (Resolved (filter (λ s, meta_id s ≠ id) old), db').
Proof.
  intros Hk Hold db'. unfold getAllVectorStoresMeta in *.
  assert (Hold' : old = array_sort id_after (meta_of <$> getAll db))
    by (by injection Hold as <-).
  do 2 f_equal. rewrite Hold'. by apply listing_delete.
Qed.

(** The list after the only store was deleted. *)
Lemma listing_after_delete_witness :
  getAllVectorStoresMeta (deleteVectorStore 1700000000000 example_store).2
  = (Resolved (filter (λ s, meta_id s ≠ 1700000000000%Z)
                 [{| meta_id := 1700000000000; meta_fileName := "notes.json" |}]),
     (deleteVectorStore 1700000000000 example_store).2).
Proof.
  apply (listing_after_delete 1700000000000 example_store).
  - apply map_Forall_insert_2; [reflexivity|apply map_Forall_empty].
  - vm_compute. reflexivity.
Defined.

(** ** The component *)

Lemma clearLoadedData_storage (st : App.State) :
  App.objectStore (clearLoadedData st) = App.objectStore st ∧
  App.availableStores (clearLoadedData st) = App.availableStores st ∧
  App.selectedStoreId (clearLoadedData st) = App.selectedStoreId st ∧
  App.lastSelectedStoreId (clearLoadedData st) = App.lastSelectedStoreId st.
Proof. done. Qed.

Lemma consistent_storage (st st' : App.State) :
  App.objectStore st' = App.objectStore st →
  App.availableStores st' = App.availableStores st →
  (∀ id, App.selectedStoreId st' = Some id → App.selectedStoreId st = Some id) →
  indexed st' →
  consistent st → consistent st'.
Proof.
  intros Hs Ha Hsel Hi (Hk & Hv & Hl & Hx & _). unfold consistent.
  rewrite Hs, Ha. split_and!; [done..| |done]. intros id Hid. apply Hx. by apply Hsel.
Qed.

Lemma indexed_no_data (st : App.State) : App.vectorData st = None → indexed st.
Proof. intros H chunks index. by rewrite H. Qed.

Lemma indexed_no_index (st : App.State) : App.precomputedData st = None → indexed st.
Proof. intros H chunks index ?. by rewrite H. Qed.

(** X7: After the effect that runs on mount the state is consistent, nothing
    is being processed and no error is shown; the store remembered in
    [localStorage] is selected when it exists, the newest store otherwise, and
    no store only when there is none. *)
Theorem loadFromDB_selects (text_id : string → option Z)
    (lastSelectedStoreId : option string) (db : gmap Z StoredVectorStore) :
  keyed db → validated db →
  let st := loadFromDB text_id (mount lastSelectedStoreId db) in
  consistent st ∧
  App.isProcessing st = false ∧
  App.error st = None ∧
  match App.selectedStoreId st with
  | Some id =>
      (∃ text, lastSelectedStoreId = Some text ∧ text ≠ "" ∧ text_id text = Some id)
      ∨ newest db id
  | None => db = ∅
  end ∧
  ∀ text id, lastSelectedStoreId = Some text → text ≠ "" →
    text_id text = Some id → is_Some (db !! id) →
    App.selectedStoreId st = Some id.
Proof.
  intros Hk Hv st.
  remember (array_sort id_after (meta_of <$> getAll db)) as listing eqn:El.
  assert (Hlist : getAllVectorStoresMeta db = (Resolved listing, db))
    by (by rewrite El).
  assert (Hex : ∀ n, existsb (λ s, bool_decide (meta_id s = n)) listing = true
                     ↔ is_Some (db !! n)).
  { intros n. rewrite existsb_exists, El. split.
    - intros [m [Hm Hb]]. apply bool_decide_eq_true in Hb. subst n.
      apply list_elem_of_In, elem_of_listing in Hm as [r [Hr _]]; eauto.
    - intros [r Hr]. exists (meta_of r). split.
      + apply list_elem_of_In, elem_of_listing; [done|]. exists r.
        simpl. by rewrite (Hk n r Hr).
      + apply bool_decide_eq_true. simpl. by apply (Hk n r). }
  assert (Hhead : ∀ a l, listing = a :: l → newest db (meta_id a)).
  { intros a l E. apply (listing_head_newest db a l Hk). by rewrite <- El. }
  assert (Hnil : listing = [] → db = ∅).
  { intros E. apply listing_nil. by rewrite <- El. }
  unfold st, loadFromDB.
  cbn [mount App.objectStore App.setProcessing].
  rewrite Hlist.
  cbn [App.setObjectStore App.setAvailableStores App.lastSelectedStoreId
       App.objectStore App.availableStores].
  clear El st. cbn [App.lastSelectedStoreId App.setProcessing mount].
  remember (match lastSelectedStoreId with
            | Some text =>
                if JsString.is_empty text then None
                else match text_id text with
                     | Some n =>
                         if existsb (λ s, bool_decide (meta_id s = n)) listing
                         then Some n else None
                     | None => None
                     end
            | None => None
            end) as remembered eqn:Er.
  assert (Hrem : ∀ n, remembered = Some n ↔
            ∃ text, lastSelectedStoreId = Some text ∧ text ≠ "" ∧
                    text_id text = Some n ∧ is_Some (db !! n)).
  { intros n. rewrite Er. clear Er. split.
    - destruct lastSelectedStoreId as [text|]; [|done].
      destruct (JsString.is_empty text) eqn:He; [done|].
      destruct (text_id text) as [k|] eqn:Hk'; [|done].
      destruct (existsb _ listing) eqn:Hb; [|done].
      intros [= <-]. exists text. split_and!; [done| |done|by apply Hex].
      by intros ->.
    - intros (text & -> & Hne & Ht & Hs).
      destruct text; [done|]. simpl. rewrite Ht.
      apply Hex in Hs. by rewrite Hs. }
  clear Er.
  assert (Hbase : ∀ sel,
    (∀ id, sel = Some id → is_Some (db !! id)) →
    consistent (App.setProcessing false (App.setSelectedStoreId sel
       (App.setAvailableStores listing (App.setObjectStore db
          (App.setProcessing true (mount lastSelectedStoreId db))))))).
  { intros sel Hsel. by split_and!. }
  destruct remembered as [n|].
  - destruct (proj1 (Hrem n) eq_refl) as (text & Ht & Hne & Hn & Hs).
    split_and!; [|done|done| |].
    + apply Hbase. by intros id [= <-].
    + left. eauto.
    + intros text' id Ht' _ Hid _. simpl. congruence.
  - assert (Hnone : ∀ text id, lastSelectedStoreId = Some text → text ≠ "" →
              text_id text = Some id → ¬ is_Some (db !! id)).
    { intros text id H1 H2 H3 H4.
      assert (None = Some id) by (apply Hrem; eauto). done. }
    destruct listing as [|a l] eqn:El.
    + split_and!; [|done|done| |].
      * by split_and!.
      * by apply Hnil.
      * intros text id H1 H2 H3 H4. by destruct (Hnone text id).
    + split_and!; [|done|done| |].
      * apply (Hbase (Some (meta_id a))). intros id [= <-]. by apply (Hhead a l).
      * right. by apply (Hhead a l).
      * intros text id H1 H2 H3 H4. by destruct (Hnone text id).
Qed.

(** The component started on the store that holds the worked example. *)
Lemma loadFromDB_selects_witness :
  consistent (loadFromDB (λ _, None) (mount None example_store)).
Proof.
  destruct (loadFromDB_selects (λ _, None) None example_store) as [H _].
  - apply map_Forall_insert_2; [reflexivity|apply map_Forall_empty].
  - apply map_Forall_insert_2; [|apply map_Forall_empty].
    eexists _, _. reflexivity.
  - exact H.
Defined.

Lemma handleFileSelect_consistent (now : Z) (name : string) (read : FileRead)
    (st : App.State) :
  consistent st → consistent (handleFileSelect now name read st).
Proof.
  intros Hc. unfold handleFileSelect.
  destruct read as [| |message|parsedData];
    try (by apply (consistent_storage st)).
  destruct (validateAndProcessData parsedData) as [[typedData summary]|e] eqn:Hv;
    [|by apply (consistent_storage st)].
  unfold saveVectorData.
  cbn [App.objectStore App.setError App.setPersistenceStatus App.setProcessing
       clearLoadedData App.setPrecomputedData App.setSelectedMessageIndex
       App.setChatHistory App.setFileName App.setSummary App.setVectorData].
  destruct (App.objectStore st !! now) as [r|] eqn:Hnow;
    [by apply (consistent_storage st)|].
  destruct Hc as (Hk & Hval & Hl & Hsel & _).
  set (r := {| store_id := now; fileName := name; content := parsedData |}).
  unfold consistent. cbn -[array_sort getAll getAllVectorStoresMeta indexed].
  fold r. split_and!; [| | | |done].
  - by apply map_Forall_insert_2.
  - apply map_Forall_insert_2; [|done]. by exists typedData, summary.
  - unfold getAllVectorStoresMeta in *. f_equal. f_equal.
    injection Hl as Hl. rewrite <- Hl.
    apply (listing_insert (App.objectStore st) r); done.
  - intros id [= <-]. by rewrite lookup_insert_eq.
Qed.

Lemma handleClearData_consistent (st : App.State) :
  consistent st → consistent (handleClearData st).
Proof.
  intros Hc. unfold handleClearData.
  destruct (App.selectedStoreId st) as [id|] eqn:Hid; [|done].
  destruct (id =? 0)%Z; [done|].
  destruct Hc as (Hk & Hval & Hl & Hsel & Hidx).
  unfold deleteVectorStore.
  set (db' := delete id (App.objectStore st)).
  assert (Hk' : keyed db') by by apply map_Forall_delete.
  assert (Hlist : array_sort id_after (meta_of <$> getAll db')
                  = filter (λ s, meta_id s ≠ id) (App.availableStores st)).
  { unfold getAllVectorStoresMeta in Hl. injection Hl as Hl. rewrite <- Hl.
    by apply listing_delete. }
  cbn [App.availableStores App.setObjectStore].
  destruct (filter (λ s, meta_id s ≠ id) (App.availableStores st))
    as [|newest rest] eqn:Ef.
  - unfold consistent, getAllVectorStoresMeta. cbn -[array_sort getAll indexed].
    fold db'. split_and!; [done|by apply map_Forall_delete| |done|done].
    do 2 f_equal. exact Hlist.
  - unfold consistent, getAllVectorStoresMeta. cbn -[array_sort getAll indexed].
    fold db'. split_and!; [done|by apply map_Forall_delete| | |exact Hidx].
    + do 2 f_equal. exact Hlist.
    + intros ? [= <-].
      assert (Hin : newest ∈ array_sort id_after (meta_of <$> getAll db'))
        by (rewrite Hlist; left).
      apply elem_of_listing in Hin as [r [Hr _]]; eauto.
Qed.

Lemma loadStoreContent_consistent (id_text : Z → string) (st : App.State) :
  consistent st → consistent (loadStoreContent id_text st).
Proof.
  intros Hc. unfold loadStoreContent.
  destruct (App.selectedStoreId st) as [id|] eqn:Hid.
  - unfold getVectorStore.
    cbn [App.objectStore App.setLastSelectedStoreId clearLoadedData
         App.setPrecomputedData App.setSelectedMessageIndex App.setChatHistory
         App.setFileName App.setError App.setSummary App.setVectorData
         App.setProcessing].
    destruct (App.objectStore st !! id) as [storedData|].
    + destruct (validateAndProcessData (content storedData)) as [[??]|e];
        by apply (consistent_storage st).
    + by apply (consistent_storage st).
  - by apply (consistent_storage st).
Qed.

Lemma indexLoadedData_consistent (st : App.State) :
  consistent st → consistent (indexLoadedData st).
Proof.
  intros Hc. unfold indexLoadedData.
  destruct (App.vectorData st) as [chunks|] eqn:Hd;
    apply (consistent_storage st); try done.
  intros chunks' index. cbn. rewrite Hd. by intros [= <-] [= <-].
Qed.

Lemma handleSendMessage_consistent (JSON_stringify : list (Role * string) → string)
    (TypeError_message : string) (queryOverride : option string) (reply : Reply)
    (st : App.State) :
  consistent st →
  consistent (handleSendMessage JSON_stringify TypeError_message queryOverride reply st).
Proof.
  intros Hc. unfold handleSendMessage.
  destruct (App.vectorData st) as [vectorData|] eqn:Hd; [|done].
  destruct (App.precomputedData st) as [precomputedData|] eqn:Hp; [|done].
  destruct (_ || _); [done|].
  apply (consistent_storage st); try done.
  destruct Hc as (_ & _ & _ & _ & Hi).
  intros chunks index. cbn. rewrite Hd, Hp. intros [= <-] [= <-]. by apply Hi.
Qed.

(** X8: Every handler and effect keeps the list of stores equal to the list of
    the object store, the selection on an existing store, the store filled
    with validated collections under their identifiers, and the index built
    from the loaded data. *)
Theorem handlers_keep_consistency (st : App.State) :
  consistent st →
  (∀ now name read, consistent (handleFileSelect now name read st)) ∧
  consistent (handleClearData st) ∧
  (∀ id_text, consistent (loadStoreContent id_text st)) ∧
  consistent (indexLoadedData st) ∧
  (∀ JSON_stringify TypeError_message queryOverride reply,
     consistent (handleSendMessage JSON_stringify TypeError_message
                   queryOverride reply st)).
Proof.
  intros Hc. split_and!.
  - intros now name read. by apply handleFileSelect_consistent.
  - by apply handleClearData_consistent.
  - intros id_text. by apply loadStoreContent_consistent.
  - by apply indexLoadedData_consistent.
  - intros. by apply handleSendMessage_consistent.
Qed.

(** Clearing the store of the worked example. *)
Lemma handlers_keep_consistency_witness :
  consistent (handleClearData example_state).
Proof.
  destruct (handlers_keep_consistency example_state) as (_ & H & _).
  - exact example_state_consistent.
  - exact H.
Defined.

(** X9: An accepted file is stored, selected, loaded and indexed: after the
    effects that the new selection and the loaded data trigger, the component
    shows the validated collection of the file. *)
Theorem upload_then_load (id_text : Z → string) (now : Z) (name : string)
    (data : JValue) (typedData : list VectorChunk) (summary : SummaryData)
    (st : App.State) :
  validateAndProcessData data = Ok (typedData, summary) →
  App.objectStore st !! now = None →
  let st' := indexLoadedData
               (loadStoreContent id_text
                  (handleFileSelect now name (Parsed data) st)) in
  App.objectStore st'
  = <[now := {| store_id := now; fileName := name; content := data |}]>
      (App.objectStore st) ∧
  App.selectedStoreId st' = Some now ∧
  App.lastSelectedStoreId st' = Some (id_text now) ∧
  App.fileName st' = name ∧
  App.vectorData st' = Some typedData ∧
  App.summary st' = Some summary ∧
  App.precomputedData st' = Some (precomputeVectors typedData) ∧
  App.chatHistory st' = [initialChatMessage] ∧
  App.error st' = None ∧
  App.isProcessing st' = false.
Proof.
  intros Hv Hnew st'. unfold st', handleFileSelect. rewrite Hv.
  unfold saveVectorData.
  cbn [clearLoadedData App.objectStore App.setError App.setPersistenceStatus
       App.setProcessing App.setPrecomputedData App.setSelectedMessageIndex
       App.setChatHistory App.setFileName App.setSummary App.setVectorData].
  rewrite Hnew. unfold loadStoreContent.
  cbn [App.selectedStoreId App.setPersistenceStatus App.setSelectedStoreId].
  unfold getVectorStore.
  cbn [clearLoadedData App.objectStore App.setError App.setPersistenceStatus
       App.setProcessing App.setPrecomputedData App.setSelectedMessageIndex
       App.setChatHistory App.setFileName App.setSummary App.setVectorData
       App.setLastSelectedStoreId App.setObjectStore App.setAvailableStores
       App.setSelectedStoreId].
  rewrite lookup_insert_eq. cbn [content]. rewrite Hv. done.
Qed.

(** The worked example uploaded into an empty store. *)
Lemma upload_then_load_witness :
  App.vectorData
    (indexLoadedData
       (loadStoreContent (λ _, "1700000000000")
          (handleFileSelect 1700000000000 "notes.json" (Parsed example_data)
             (mount None ∅))))
  = Some example_collection.
Proof.
  apply (upload_then_load (λ _, "1700000000000") 1700000000000 "notes.json"
           example_data example_collection (summarize example_collection)
           (mount None ∅)).
  - reflexivity.
  - reflexivity.
Defined.

(** X10: A file that is not stored changes nothing that persists: the object
    store, the list of stores, the selection and the remembered identifier
    stay, the loaded data is cleared and an error is shown. A file is not
    stored when it cannot be read or parsed, when the validator rejects it, or
    when the key [now] is taken. *)
Theorem rejected_upload (now : Z) (name : string) (read : FileRead)
    (st : App.State) :
  (∀ data, read = Parsed data →
     (∃ e, validateAndProcessData data = Throw e)
     ∨ is_Some (App.objectStore st !! now)) →
  let st' := handleFileSelect now name read st in
  App.objectStore st' = App.objectStore st ∧
  App.availableStores st' = App.availableStores st ∧
  App.selectedStoreId st' = App.selectedStoreId st ∧
  App.lastSelectedStoreId st' = App.lastSelectedStoreId st ∧
  App.vectorData st' = None ∧
  App.isProcessing st' = false ∧
  is_Some (App.error st') ∧
  (∀ data e, read = Parsed data → validateAndProcessData data = Throw e →
     App.error st' = Some {| error_prefix := "Error processing file: ";
                             error_message := MessageOf e |}) ∧
  (∀ data, read = Parsed data → accepted data →
     App.error st' = Some {| error_prefix := "Error processing file: ";
                             error_message := Literal "An unknown error occurred." |}).
Proof.
  intros Hrej st'. unfold st', handleFileSelect.
  destruct read as [| |message|parsedData]; try by split_and!.
  destruct (Hrej parsedData eq_refl) as [[e He]|[r Hr]].
  - rewrite He. split_and!; try done.
    + intros data e' Hd He'. assert (e = e') as -> by congruence. done.
    + intros data Hd (typedData & summary & Hacc).
      assert (parsedData = data) as -> by congruence. by rewrite He in Hacc.
  - destruct (validateAndProcessData parsedData) as [[typedData summary]|e] eqn:Hv.
    + unfold saveVectorData.
      cbn [clearLoadedData App.objectStore App.setError App.setPersistenceStatus
           App.setProcessing App.setPrecomputedData App.setSelectedMessageIndex
           App.setChatHistory App.setFileName App.setSummary App.setVectorData].
      rewrite Hr. split_and!; try done.
      intros data e' Hd He'. assert (parsedData = data) as -> by congruence.
      by rewrite Hv in He'.
    + split_and!; try done.
      * intros data e' Hd He'. assert (e = e') as -> by congruence. done.
      * intros data Hd (? & ? & Hacc).
        assert (parsedData = data) as -> by congruence. by rewrite Hv in Hacc.
Qed.

(** A file that holds an object where a list is expected. *)
Lemma rejected_upload_witness :
  App.objectStore
    (handleFileSelect 1700000000001 "list.json" (Parsed (JObj [])) example_state)
  = App.objectStore example_state.
Proof.
  apply (rejected_upload 1700000000001 "list.json" (Parsed (JObj [])) example_state).
  intros data Hd. left. exists NotAList.
  assert (data = JObj []) as -> by congruence. reflexivity.
Defined.

(** X11: Clearing the selected store deletes its record and selects the newest
    store that remains, or none when no store remains. *)
Theorem clear_selects_newest (st : App.State) (id : Z) :
  consistent st →
  App.selectedStoreId st = Some id → id ≠ 0%Z →
  let st' := handleClearData st in
  App.objectStore st' = delete id (App.objectStore st) ∧
  App.availableStores st'
  = filter (λ s, meta_id s ≠ id) (App.availableStores st) ∧
  match App.selectedStoreId st' with
  | Some id' => id' ≠ id ∧ newest (App.objectStore st') id'
  | None =>
      App.objectStore st' = ∅ ∧ App.lastSelectedStoreId st' = None ∧
      App.vectorData st' = None ∧ App.precomputedData st' = None
  end.
Proof.
  intros Hc Hid Hne st'.
  pose proof (handleClearData_consistent st Hc) as Hc'. fold st' in Hc'.
  destruct Hc as (Hk & _ & Hl & _).
  destruct Hc' as (Hk' & _ & Hl' & _).
  revert Hk' Hl'. unfold st', handleClearData. rewrite Hid.
  destruct (Z.eqb_spec id 0) as [|_]; [done|].
  unfold deleteVectorStore. cbn [App.availableStores App.setObjectStore].
  destruct (filter (λ s, meta_id s ≠ id) (App.availableStores st))
    as [|a rest] eqn:Ef.
  - cbn -[getAllVectorStoresMeta]. intros Hk' Hl'. split_and!; try done.
    injection Hl' as Hl'. by apply listing_nil.
  - cbn -[getAllVectorStoresMeta]. intros Hk' Hl'. split_and!; try done.
    + assert (Ha : a ∈ filter (λ s, meta_id s ≠ id) (App.availableStores st))
        by (rewrite Ef; left).
      by apply list_elem_of_filter in Ha as [Ha _].
    + injection Hl' as Hl'. by apply (listing_head_newest _ a rest).
Qed.

(** Clearing the only store. *)
Lemma clear_selects_newest_witness :
  App.objectStore (handleClearData example_state)
  = delete 1700000000000%Z (App.objectStore example_state).
Proof.
  destruct (clear_selects_newest example_state 1700000000000) as [H _].
  - exact example_state_consistent.
  - vm_compute. reflexivity.
  - lia.
  - exact H.
Defined.

(** X13: A load that fails shows its message only until the effect runs again:
    the failure resets the selection, the change of the selection runs the
    effect once more, and that run clears the message. *)
Theorem load_failure_message_cleared (id_text : Z → string) (st : App.State)
    (id : Z) :
  App.selectedStoreId st = Some id →
  (App.objectStore st !! id = None
   ∨ ∃ r e, App.objectStore st !! id = Some r ∧
            validateAndProcessData (content r) = Throw e) →
  let st' := loadStoreContent id_text st in
  (∃ message, App.error st' = Some {| error_prefix := "Error loading store: ";
                                     error_message := message |}) ∧
  App.selectedStoreId st' = None ∧
  App.lastSelectedStoreId st' = None ∧
  App.vectorData st' = None ∧
  App.isProcessing st' = false ∧
  App.objectStore st' = App.objectStore st ∧
  App.error (loadStoreContent id_text st') = None.
Proof.
  intros Hid Hfail st'.
  assert (Hrerun : ∀ st0, App.selectedStoreId st0 = None →
            App.error (loadStoreContent id_text st0) = None).
  { intros st0 H0. unfold loadStoreContent. by rewrite H0. }
  assert (Hsel : App.selectedStoreId st' = None ∧
    (∃ message, App.error st' = Some {| error_prefix := "Error loading store: ";
                                       error_message := message |}) ∧
    App.lastSelectedStoreId st' = None ∧
    App.vectorData st' = None ∧
    App.isProcessing st' = false ∧
    App.objectStore st' = App.objectStore st).
  { unfold st', loadStoreContent. rewrite Hid. unfold getVectorStore.
    cbn [clearLoadedData App.objectStore App.setError App.setPersistenceStatus
         App.setProcessing App.setPrecomputedData App.setSelectedMessageIndex
         App.setChatHistory App.setFileName App.setSummary App.setVectorData
         App.setLastSelectedStoreId].
    destruct Hfail as [Hnone|(r & e & Hr & He)].
    - rewrite Hnone. split_and!; try done. by eexists.
    - rewrite Hr, He. split_and!; try done. by eexists. }
  destruct Hsel as (H1 & H2 & H3 & H4 & H5 & H6).
  split_and!; try done. by apply Hrerun.
Qed.

(** A selection that points to no record. *)
Lemma load_failure_message_cleared_witness :
  App.error
    (loadStoreContent (λ _, "5")
       (loadStoreContent (λ _, "5")
          (App.setSelectedStoreId (Some 5%Z) (mount None ∅))))
  = None.
Proof.
  apply (load_failure_message_cleared (λ _, "5")
           (App.setSelectedStoreId (Some 5%Z) (mount None ∅)) 5).
  - reflexivity.
  - left. reflexivity.
Defined.

(** X12: In a consistent state the selected store loads without an error: the
    record exists, its content passes the validator again, and the component
    ends up showing it, indexed. *)
Theorem selected_store_loads (id_text : Z → string) (st : App.State) (id : Z) :
  consistent st →
  App.selectedStoreId st = Some id →
  let st' := indexLoadedData (loadStoreContent id_text st) in
  ∃ r typedData summary,
    App.objectStore st !! id = Some r ∧
    validateAndProcessData (content r) = Ok (typedData, summary) ∧
    App.vectorData st' = Some typedData ∧
    App.summary st' = Some summary ∧
    App.fileName st' = fileName r ∧
    App.precomputedData st' = Some (precomputeVectors typedData) ∧
    App.chatHistory st' = [initialChatMessage] ∧
    App.error st' = None ∧
    App.selectedStoreId st' = Some id ∧
    App.lastSelectedStoreId st' = Some (id_text id) ∧
    App.isProcessing st' = false ∧
    App.objectStore st' = App.objectStore st.
Proof.
  intros (Hk & Hv & _ & Hsel & _) Hid st'.
  destruct (Hsel id Hid) as [r Hr].
  destruct (Hv id r Hr) as (typedData & summary & Hacc).
  exists r, typedData, summary. split; [done|]. split; [done|].
  unfold st', loadStoreContent. rewrite Hid. unfold getVectorStore.
  cbn [clearLoadedData App.objectStore App.setError App.setPersistenceStatus
       App.setProcessing App.setPrecomputedData App.setSelectedMessageIndex
       App.setChatHistory App.setFileName App.setSummary App.setVectorData
       App.setLastSelectedStoreId].
  rewrite Hr, Hacc. cbn. by rewrite Hid.
Qed.

(** Loading the store of the worked example once more. *)
Lemma selected_store_loads_witness :
  ∃ r typedData summary,
    App.objectStore example_state !! 1700000000000%Z = Some r ∧
    validateAndProcessData (content r) = Ok (typedData, summary) ∧
    App.vectorData (indexLoadedData (loadStoreContent (λ _, "") example_state))
    = Some typedData.
Proof.
  destruct (selected_store_loads (λ _, "") example_state 1700000000000)
    as (r & typedData & summary & H1 & H2 & H3 & _).
  - exact example_state_consistent.
  - vm_compute. reflexivity.
  - exists r, typedData, summary. exact (conj H1 (conj H2 H3)).
Defined.

(** ** The search, continued *)

Lemma drop_white_nil (s : string) :
  JsString.drop_white s = [] → Forall (λ c, JsString.is_white_space c = true) s.
Proof.
  induction s as [|c s IH]; simpl; [constructor|].
  destruct (JsString.is_white_space c) eqn:Hc; [|done].
  intros H. constructor; auto.
Qed.

Lemma drop_white_white (s : string) :
  Forall (λ c, JsString.is_white_space c = true) (JsString.drop_white s) →
  Forall (λ c, JsString.is_white_space c = true) s.
Proof.
  induction s as [|c s IH]; simpl; [done|].
  destruct (JsString.is_white_space c) eqn:Hc; [|done].
  intros H. constructor; auto.
Qed.

Lemma trim_empty (query : string) :
  JsString.is_empty (JsString.trim query) = true →
  Forall (λ c, JsString.is_white_space c = true) query.
Proof.
  unfold JsString.trim. intros H.
  assert (E : rev (JsString.drop_white (rev (JsString.drop_white query))) = []).
  { by destruct (rev _). }
  apply (f_equal (@rev N)) in E. rewrite rev_involutive in E. simpl in E.
  apply drop_white_nil in E. apply drop_white_white.
  rewrite <- (rev_involutive (JsString.drop_white _)).
  by apply Forall_rev.
Qed.

Lemma white_separator (c : N) : JsString.is_white_space c = true → separator c.
Proof.
  intros H. destruct (N.lt_ge_cases c 128) as [Hlt|Hge].
  - assert (Hc : c = 9%N ∨ c = 10%N ∨ c = 11%N ∨ c = 12%N ∨ c = 13%N ∨ c = 32%N).
    { unfold JsString.is_white_space, JsString.in_range in H.
      rewrite (proj2 (N.eqb_neq c 160)), (proj2 (N.eqb_neq c 0x1680)),
        (proj2 (N.eqb_neq c 0x202F)), (proj2 (N.eqb_neq c 0x205F)),
        (proj2 (N.eqb_neq c 0x3000)), (proj2 (N.eqb_neq c 0xFEFF)),
        (proj2 (N.leb_gt 0x2000 c)), (proj2 (N.leb_gt 0x2028 c)) in H by lia.
      simpl in H. rewrite !orb_false_r in H.
      apply orb_prop in H as [[?%N.leb_le ?%N.leb_le]%andb_prop|?%N.eqb_eq]; lia. }
    by destruct Hc as [-> | [-> | [-> | [-> | [-> | ->]]]]].
  - split; [by apply beyond_ascii_no_word|].
    split; intros ->; by vm_compute in H.
Qed.

Lemma tokenize_white (query : string) :
  Forall (λ c, JsString.is_white_space c = true) query →
  tokenize query = [].
Proof.
  intros H. rewrite tokenize_by_code_unit. apply word_runs_nil. split; [done|].
  apply lowercase_separators. eapply Forall_impl; [exact H|]. apply white_separator.
Qed.

Lemma zero_vector_scores (n : nat) (chunks : list VectorChunk)
    (vectors : list (list float)) (scored : list SearchResult) :
  score_chunks (replicate n 0%float) chunks vectors = Some scored →
  filter (λ r, JsNum.positive (score r) = true) scored = [].
Proof.
  intros Hs. apply filter_none. intros r Hr.
  assert (Hz : Forall (λ r, score r = 0%float) scored).
  { apply (score_chunks_zero (replicate n 0%float) chunks vectors); [|done].
    intros vecB. apply cosine_zero_normA. apply norm_zeros. }
  rewrite Forall_forall in Hz. rewrite (Hz r Hr). done.
Qed.

(** The guard of [performSearch] changes no result: a query that trims to
    nothing has no token, and the ranking for its vector is empty. *)
Lemma performSearch_ranked_for (query : string) (chunks : list VectorChunk)
    (vectors : list (list float)) (vocab : gmap string nat) :
  length chunks ≤ length vectors →
  performSearch query chunks vectors vocab
  = ranked_for (createTfVector (tokenize query) vocab) chunks vectors.
Proof.
  intros Hlen. unfold performSearch, ranked_for.
  destruct (JsString.is_empty (JsString.trim query)) eqn:He; [|done].
  rewrite (tokenize_white query (trim_empty query He)).
  unfold createTfVector. simpl.
  destruct (score_chunks_total (replicate (size vocab) 0%float) chunks vectors Hlen)
    as [scored Hs].
  rewrite Hs. simpl. by rewrite (zero_vector_scores _ _ _ _ Hs).
Qed.

(** X16: The results are the best: what is returned and what is left out make
    up the chunks of positive score, nothing left out scores higher than
    anything returned, and nothing is left out while fewer than three are
    returned. *)
Theorem performSearch_keeps_the_best (query : string) (chunks : list VectorChunk)
    (vectors : list (list float)) (vocab : gmap string nat)
    (results scored : list SearchResult) :
  performSearch query chunks vectors vocab = Some results →
  score_chunks (createTfVector (tokenize query) vocab) chunks vectors = Some scored →
  ∃ rest,
    results ++ rest ≡ₚ filter scored_positive scored ∧
    (∀ r x, r ∈ results → x ∈ rest →
       PrimFloat.leb (score x) (score r) = true) ∧
    (length results < 3 → rest = []).
Proof.
  unfold performSearch. intros Hr Hs.
  destruct (JsString.is_empty (JsString.trim query)) eqn:He.
  - injection Hr as <-. exists []. split_and!; [|by intros ?? ?%elem_of_nil|done].
    rewrite (tokenize_white query (trim_empty query He)) in Hs.
    unfold createTfVector in Hs. simpl in Hs.
    replace (filter scored_positive scored) with (@nil SearchResult); [done|].
    symmetry. exact (zero_vector_scores _ _ _ _ Hs).
  - rewrite Hs in Hr. simpl in Hr. injection Hr as <-.
    set (pos := filter (λ r, JsNum.positive (score r) = true) scored).
    assert (Hpos : Forall scored_positive pos)
      by (apply Forall_forall; intros r [? _]%list_elem_of_filter; done).
    pose proof (array_sort_sorted score_after scored_positive
                  score_after_asym score_after_trans pos Hpos) as Hsorted.
    exists (drop 3 (array_sort score_after pos)). split_and!.
    + by rewrite take_drop, (array_sort_perm score_after).
    + intros r x Hr Hx.
      rewrite <- (take_drop 3 (array_sort score_after pos)) in Hsorted.
      assert (Hin : ∀ y, y ∈ array_sort score_after pos → scored_positive y).
      { intros y Hy. rewrite (array_sort_perm score_after) in Hy.
        rewrite Forall_forall in Hpos. by apply Hpos. }
      apply score_before_leb.
      * apply Hin. rewrite <- (take_drop 3 (array_sort score_after pos)).
        apply elem_of_app. by left.
      * apply Hin. rewrite <- (take_drop 3 (array_sort score_after pos)).
        apply elem_of_app. by right.
      * by apply (StronglySorted_app_1_elem_of _ _ _ _ _ Hsorted).
    + rewrite length_take. intros Hlt. apply drop_ge. lia.
Qed.

(** The search for [fox] in the worked example. *)
Lemma performSearch_keeps_the_best_witness :
  ∃ rest,
    [{| chunk := example_a; score := 0x1.6a09e667f3bccp-1%float |}] ++ rest
    ≡ₚ filter scored_positive
         [{| chunk := example_a; score := 0x1.6a09e667f3bccp-1%float |};
          {| chunk := example_b; score := 0%float |}] ∧
    (∀ r x, r ∈ [{| chunk := example_a; score := 0x1.6a09e667f3bccp-1%float |}] →
       x ∈ rest → PrimFloat.leb (score x) (score r) = true) ∧
    (length [{| chunk := example_a; score := 0x1.6a09e667f3bccp-1%float |}] < 3 →
     rest = []).
Proof.
  apply (performSearch_keeps_the_best "fox" example_collection
           example_index.1 example_index.2).
  - vm_compute. reflexivity.
  - vm_compute. reflexivity.
Defined.

(** ** Counters never leave the finite numbers *)

Lemma counted_saturated (n : nat) :
  (2 ^ 53 <= Z.of_nat n)%Z → JsNum.counted n = 0x1p53%float.
Proof.
  intros Hn.
  assert (Hbase : ∃ n0, Z.of_nat n0 = (2 ^ 53)%Z) by (exists (Z.to_nat (2 ^ 53)); by apply Z2Nat.id).
  destruct Hbase as [n0 Hn0].
  assert (H0 : JsNum.counted n0 = 0x1p53%float).
  { rewrite Binary64.counted_of_nat by (rewrite Hn0; reflexivity).
    unfold JsNum.of_nat. rewrite Hn0. reflexivity. }
  assert (Hk : ∀ k, JsNum.counted (k + n0) = 0x1p53%float).
  { induction k as [|k IH]; [done|].
    change (JsNum.counted (S k + n0)) with (JsNum.incr (JsNum.counted (k + n0))).
    rewrite IH. reflexivity. }
  replace n with ((n - n0) + n0) by lia. apply Hk.
Qed.

Lemma of_nat_sf_count (n : nat) :
  (Z.of_nat n < 2 ^ 53)%Z → sf_count (Prim2SF (JsNum.of_nat n)).
Proof.
  intros Hn. rewrite Binary64.Prim2SF_of_nat by lia.
  destruct n as [|n]; [done|].
  unfold binary_normalize.
  destruct (Z.of_nat (S n)) as [|p|p] eqn:Ep; try lia.
  destruct (Binary64.binary_round_integer p ltac:(lia)) as (m & e & -> & _). done.
Qed.

Lemma counted_sf_count (n : nat) : sf_count (Prim2SF (JsNum.counted n)).
Proof.
  destruct (decide (Z.of_nat n < 2 ^ 53)%Z) as [Hn|Hn].
  - rewrite Binary64.counted_of_nat by lia. by apply of_nat_sf_count.
  - by rewrite counted_saturated by lia.
Qed.

Lemma float_mul_zero_r (x : float) :
  sf_count (Prim2SF x) → (x * 0)%float = 0%float.
Proof.
  intros Hx. apply Prim2SF_inj. rewrite mul_spec.
  destruct (Prim2SF x) as [[]| | |[] m e]; done.
Qed.

Lemma float_mul_zero_l (x : float) :
  sf_count (Prim2SF x) → (0 * x)%float = 0%float.
Proof.
  intros Hx. apply Prim2SF_inj. rewrite mul_spec.
  destruct (Prim2SF x) as [[]| | |[] m e]; done.
Qed.

Lemma div_zero_not_positive (x : float) : JsNum.positive (0 / x)%float = false.
Proof.
  unfold JsNum.positive. rewrite FloatAxioms.ltb_spec, div_spec.
  destruct (Prim2SF x) as [[]|[]| |[] m e]; done.
Qed.

(** ** The dot product of vectors that meet nowhere *)

Lemma cosine_loop_dot_zero (vecA vecB : list float) (n i : nat) (s : Sums) :
  dotProduct s = 0%float →
  (∀ j, i ≤ j < i + n → (entry vecA j * entry vecB j)%float = 0%float) →
  dotProduct (cosine_loop vecA vecB n i s) = 0%float.
Proof.
  revert i s. induction n as [|n IH]; intros i s Hs Hz; [done|].
  simpl. apply IH.
  - simpl. rewrite Hs, Hz by lia. reflexivity.
  - intros j Hj. apply Hz. lia.
Qed.

Lemma cosine_disjoint (vecA vecB : list float) :
  (∀ j, j < length vecA → (entry vecA j * entry vecB j)%float = 0%float) →
  JsNum.positive (cosineSimilarity vecA vecB) = false.
Proof.
  intros Hz. unfold cosineSimilarity.
  destruct (_ || _); [done|].
  unfold cosine_sums. rewrite cosine_loop_dot_zero; [|done|].
  - apply div_zero_not_positive.
  - intros j Hj. apply Hz. lia.
Qed.

Lemma score_chunks_lookup (q : list float) (chunks : list VectorChunk)
    (vectors : list (list float)) (all : list SearchResult) (r : SearchResult) :
  score_chunks q chunks vectors = Some all → r ∈ all →
  ∃ i, chunks !! i = Some (chunk r) ∧
       score_against q (vectors !! i) = Some (score r).
Proof.
  unfold score_chunks. intros H%mapM_Some [i Hi]%list_elem_of_lookup_1.
  destruct (Forall2_lookup_r _ _ _ _ _ H Hi) as ([j c] & Hl & Hf).
  rewrite list_lookup_imap in Hl. exists i.
  destruct (chunks !! i) as [c'|]; simplify_eq/=.
  destruct (score_against q _); by simplify_eq/=.
Qed.

Lemma score_chunks_length (q : list float) (chunks : list VectorChunk)
    (vectors : list (list float)) (all : list SearchResult) :
  score_chunks q chunks vectors = Some all → length all = length chunks.
Proof.
  intros H. rewrite <- (score_chunks_chunks q chunks vectors all H).
  by rewrite length_fmap.
Qed.

Lemma entry_lookup (v : list float) (i : nat) (x : float) :
  v !! i = Some x → entry v i = x.
Proof. intros H. unfold entry. by apply nth_lookup_Some with (d := JsNum.nan) in H. Qed.

(** Term vectors over one vocabulary whose token lists share no token meet
    nowhere. *)
Lemma disjoint_vectors (vocab : gmap string nat) (seen : list string)
    (tokensA tokensB : list string) :
  indexes vocab seen → size vocab = length seen →
  (∀ t, t ∈ tokensA → t ∉ tokensB) →
  JsNum.positive (cosineSimilarity (createTfVector tokensA vocab)
                                   (createTfVector tokensB vocab)) = false.
Proof.
  intros Hix Hsize Hdisj. apply cosine_disjoint. intros j Hj.
  destruct (createTfVector_counts vocab seen Hix tokensA Hsize) as [HlenA HA].
  destruct (createTfVector_counts vocab seen Hix tokensB Hsize) as [HlenB HB].
  destruct (lookup_lt_is_Some_2 seen j ltac:(lia)) as [t Ht].
  apply Hix in Ht.
  rewrite (entry_lookup _ _ _ (HA t j Ht)), (entry_lookup _ _ _ (HB t j Ht)).
  destruct (decide (t ∈ tokensA)) as [Hin|Hin].
  - rewrite (occurrences_not_in t tokensB) by by apply Hdisj.
    apply float_mul_zero_r, counted_sf_count.
  - rewrite (occurrences_not_in t tokensA) by done.
    apply float_mul_zero_l, counted_sf_count.
Qed.

Lemma performSearch_scored (query : string) (chunks : list VectorChunk)
    (vectors : list (list float)) (vocab : gmap string nat)
    (results : list SearchResult) (r : SearchResult) :
  length chunks ≤ length vectors →
  performSearch query chunks vectors vocab = Some results → r ∈ results →
  ∃ scored,
    score_chunks (createTfVector (tokenize query) vocab) chunks vectors = Some scored ∧
    r ∈ scored ∧ JsNum.positive (score r) = true.
Proof.
  intros Hlen Hs Hr.
  rewrite (performSearch_ranked_for query chunks vectors vocab Hlen) in Hs.
  unfold ranked_for in Hs.
  destruct (score_chunks _ chunks vectors) as [scored|]; [|done].
  simpl in Hs. injection Hs as <-. exists scored. split; [done|].
  apply subseteq_take in Hr. rewrite (array_sort_perm score_after) in Hr.
  by apply list_elem_of_filter in Hr as [? ?].
Qed.

Lemma performSearch_no_more_than_chunks (query : string) (chunks : list VectorChunk)
    (vectors : list (list float)) (vocab : gmap string nat)
    (results : list SearchResult) :
  performSearch query chunks vectors vocab = Some results →
  length results ≤ 3 ∧ length results ≤ length chunks.
Proof.
  unfold performSearch. destruct (JsString.is_empty _).
  - intros [= <-]. simpl. lia.
  - destruct (score_chunks _ chunks vectors) as [scored|] eqn:Hs; [|done].
    simpl. intros [= <-].
    rewrite length_take, (array_sort_length score_after).
    rewrite <- (score_chunks_length _ _ _ _ Hs).
    pose proof (length_filter (λ r, JsNum.positive (score r) = true) scored). lia.
Qed.

Lemma precomputeVectors_length (chunks : list VectorChunk) :
  length chunks ≤ length (precomputeVectors chunks).1.
Proof. unfold precomputeVectors. cbn [fst]. by rewrite !length_map. Qed.

(** What is returned from the index of the collection is a chunk of the
    collection that shares a token with the query. *)
Lemma returned_chunk_shares_a_token (query : string) (chunks : list VectorChunk)
    (results : list SearchResult) :
  performSearch query chunks (precomputeVectors chunks).1 (precomputeVectors chunks).2
  = Some results →
  Forall (λ r, chunk r ∈ chunks ∧
               ∃ t, t ∈ tokenize query ∧ t ∈ tokenize (chunk_text (chunk r)))
         results.
Proof.
  intros Hs. apply Forall_forall. intros r Hr.
  destruct (performSearch_scored _ _ _ _ _ r (precomputeVectors_length chunks) Hs Hr)
    as (scored & Hscored & Hin & Hpos).
  destruct (score_chunks_lookup _ _ _ _ r Hscored Hin) as (i & Hc & Hscore).
  split; [by eapply list_elem_of_lookup_2|].
  set (docs := (λ c, tokenize (chunk_text c)) <$> chunks) in *.
  destruct (createVocabulary_first_seen docs) as [Hix Hsize].
  unfold precomputeVectors in Hscore. cbn [fst snd] in Hscore.
  change (map ?f ?l) with (f <$> l) in Hscore.
  rewrite !list_lookup_fmap, Hc in Hscore. simpl in Hscore.
  destruct (decide (Exists (λ t, t ∈ tokenize (chunk_text (chunk r)))
                           (tokenize query))) as [Hex|Hno].
  - apply Exists_exists in Hex as (t & Ht & Ht'). by exists t.
  - exfalso. apply not_Exists_Forall in Hno; [|intros ?; apply _].
    rewrite Forall_forall in Hno.
    pose proof (disjoint_vectors (createVocabulary docs) _ (tokenize query)
                  (tokenize (chunk_text (chunk r))) Hix Hsize Hno) as Hz.
    injection Hscore as Hscore.
    assert (Hz' : JsNum.positive (score r) = false) by (rewrite <- Hscore; exact Hz).
    congruence.
Qed.

(** X17: A search over the index built from the collection always returns,
    with at most three results and no more results than chunks, and every
    result is a chunk of the collection that shares a token with the query. *)
Theorem indexed_search_shares_a_token (query : string) (chunks : list VectorChunk) :
  ∃ results,
    performSearch query chunks (precomputeVectors chunks).1 (precomputeVectors chunks).2
    = Some results ∧
    length results ≤ 3 ∧
    length results ≤ length chunks ∧
    Forall (λ r, chunk r ∈ chunks ∧
                 ∃ t, t ∈ tokenize query ∧ t ∈ tokenize (chunk_text (chunk r)))
           results.
Proof.
  destruct (performSearch_total query chunks (precomputeVectors chunks).1
              (precomputeVectors chunks).2 (precomputeVectors_length chunks))
    as [results Hs].
  exists results. split; [done|].
  destruct (performSearch_no_more_than_chunks _ _ _ _ _ Hs) as [H3 Hn].
  split_and!; [done|done|].
  by apply returned_chunk_shares_a_token.
Qed.

Lemma createTfVector_bag (vocab : gmap string nat) (seen : list string)
    (tokens tokens' : list string) :
  indexes vocab seen → size vocab = length seen →
  (∀ t, is_Some (vocab !! t) → occurrences t tokens = occurrences t tokens') →
  createTfVector tokens vocab = createTfVector tokens' vocab.
Proof.
  intros Hix Hsize Hocc.
  destruct (createTfVector_counts vocab seen Hix tokens Hsize) as [Hlen1 H1].
  destruct (createTfVector_counts vocab seen Hix tokens' Hsize) as [Hlen2 H2].
  apply list_eq. intros j.
  destruct (decide (j < length seen)) as [Hj|Hj].
  - destruct (lookup_lt_is_Some_2 seen j Hj) as [t Ht]. apply Hix in Ht.
    by rewrite (H1 t j Ht), (H2 t j Ht), (Hocc t) by eauto.
  - rewrite !(proj2 (lookup_ge_None _ _)); [done|lia|lia].
Qed.

(** X18: The search sees a query as a bag of known words: two queries in which
    every token of the vocabulary occurs equally often get the same results,
    whatever the order of their words, their case, their punctuation and their
    unknown words. *)
Theorem search_is_bag_of_words (chunks : list VectorChunk) (query query' : string) :
  let vectors := (precomputeVectors chunks).1 in
  let vocab := (precomputeVectors chunks).2 in
  (∀ t, is_Some (vocab !! t) →
     occurrences t (tokenize query) = occurrences t (tokenize query')) →
  performSearch query chunks vectors vocab
  = performSearch query' chunks vectors vocab.
Proof.
  intros vectors vocab Hocc.
  set (docs := (λ c, tokenize (chunk_text c)) <$> chunks).
  destruct (createVocabulary_first_seen docs) as [Hix Hsize].
  assert (Hlen : length chunks ≤ length vectors)
    by apply precomputeVectors_length.
  rewrite !(performSearch_ranked_for _ chunks vectors vocab Hlen).
  by rewrite (createTfVector_bag vocab _ (tokenize query) (tokenize query') Hix Hsize Hocc).
Qed.

(** Two queries with the same known words. *)
Lemma search_is_bag_of_words_witness :
  performSearch "red fox" example_collection example_index.1 example_index.2
  = performSearch "Fox, zebra: RED!" example_collection example_index.1 example_index.2.
Proof.
  apply (search_is_bag_of_words example_collection "red fox" "Fox, zebra: RED!").
  intros t [i Hi].
  destruct (createVocabulary_first_seen
              ((λ c, tokenize (chunk_text c)) <$> example_collection)) as [Hix _].
  apply Hix in Hi.
  destruct i as [|[|[|[|i]]]]; vm_compute in Hi; try discriminate Hi;
    injection Hi as <-; reflexivity.
Defined.

(** ** Symmetry of the similarity *)

Lemma float_mul_comm (x y : float) : (x * y)%float = (y * x)%float.
Proof.
  apply Prim2SF_inj. rewrite !mul_spec. unfold SF64mul, SFmul.
  destruct (Prim2SF x) as [sx|sx| |sx mx ex], (Prim2SF y) as [sy|sy| |sy my ey];
    try reflexivity; try (by rewrite xorb_comm).
  by rewrite xorb_comm, Pos.mul_comm, Z.add_comm.
Qed.

Lemma cosine_loop_swap (vecA vecB : list float) (n i : nat) (s : Sums) :
  cosine_loop vecB vecA n i
    {| dotProduct := dotProduct s; magA := magB s; magB := magA s |}
  = let r := cosine_loop vecA vecB n i s in
    {| dotProduct := dotProduct r; magA := magB r; magB := magA r |}.
Proof.
  revert i s. induction n as [|n IH]; intros i s; [done|].
  simpl. rewrite <- IH. f_equal. unfold cosine_step. simpl.
  by rewrite (float_mul_comm (entry vecB i) (entry vecA i)).
Qed.

(** X20: The similarity of two vectors of one length does not depend on their
    order. *)
Theorem cosineSimilarity_symmetric (vecA vecB : list float) :
  length vecA = length vecB →
  cosineSimilarity vecA vecB = cosineSimilarity vecB vecA.
Proof.
  intros Hlen. unfold cosineSimilarity, cosine_sums. rewrite <- Hlen.
  pose proof (cosine_loop_swap vecA vecB (length vecA) 0
                {| dotProduct := 0; magA := 0; magB := 0 |}) as Hswap.
  simpl in Hswap. rewrite Hswap. simpl.
  rewrite orb_comm. by rewrite (float_mul_comm (sqrt (magB _)) (sqrt (magA _))).
Qed.

(** The vectors of the query [fox] and of the chunk [red fox]. *)
Lemma cosineSimilarity_symmetric_witness :
  cosineSimilarity [0; 1; 0; 0]%float [1; 1; 0; 0]%float
  = cosineSimilarity [1; 1; 0; 0]%float [0; 1; 0; 0]%float.
Proof.
  apply (cosineSimilarity_symmetric [0; 1; 0; 0]%float [1; 1; 0; 0]%float).
  reflexivity.
Defined.

(** ** When the search throws *)

Lemma increment_at_length (tokenIndex : nat) (vector : list float) :
  length vector ≤ length (increment_at tokenIndex vector).
Proof.
  unfold increment_at. destruct (_ <? _)%nat.
  - by rewrite length_alter.
  - rewrite length_app. lia.
Qed.

Lemma createTfVector_length (tokens : list string) (vocab : gmap string nat) :
  size vocab ≤ length (createTfVector tokens vocab).
Proof.
  unfold createTfVector.
  assert (H : ∀ v, length v ≤ length (foldl (λ vector token,
             match vocab !! token with
             | Some tokenIndex => increment_at tokenIndex vector
             | None => vector
             end) v tokens)).
  { induction tokens as [|t tokens IH]; intros v; simpl; [done|].
    etransitivity; [|apply IH].
    destruct (vocab !! t); [apply increment_at_length|done]. }
  etransitivity; [|apply H]. by rewrite length_replicate.
Qed.

Lemma createTfVector_empty (tokens : list string) :
  createTfVector tokens ∅ = [].
Proof.
  unfold createTfVector. rewrite map_size_empty. simpl.
  induction tokens as [|t tokens IH]; simpl; [done|].
  by rewrite lookup_empty.
Qed.

Lemma score_chunks_None (q : list float) (chunks : list VectorChunk)
    (vectors : list (list float)) :
  score_chunks q chunks vectors = None
  ↔ q ≠ [] ∧ length vectors < length chunks.
Proof.
  unfold score_chunks. rewrite mapM_None, Exists_exists. split.
  - intros ([i c] & Hin & Hf).
    apply list_elem_of_lookup_1 in Hin as [j Hj].
    rewrite list_lookup_imap in Hj.
    destruct (chunks !! j) as [c'|] eqn:Hc; [|done].
    simpl in Hj. injection Hj as <- <-.
    destruct (vectors !! j) as [v|] eqn:Hv; simpl in Hf; [done|].
    destruct (decide (length q = 0)) as [|Hq]; [done|].
    split; [by destruct q|].
    apply lookup_ge_None in Hv. apply lookup_lt_Some in Hc. lia.
  - intros [Hq Hlen].
    destruct (lookup_lt_is_Some_2 chunks (length vectors) Hlen) as [c Hc].
    exists (length vectors, c). split.
    + apply list_elem_of_lookup_2 with (length vectors).
      by rewrite list_lookup_imap, Hc.
    + simpl. rewrite (proj2 (lookup_ge_None vectors (length vectors))) by lia.
      simpl. rewrite decide_False; [done|]. by destruct q.
Qed.

(** X19: [performSearch] throws exactly when the query does not trim to
    nothing, the vocabulary is not empty, and some chunk has no vector. *)
Theorem performSearch_throws (query : string) (chunks : list VectorChunk)
    (vectors : list (list float)) (vocab : gmap string nat) :
  performSearch query chunks vectors vocab = None
  ↔ JsString.trim query ≠ "" ∧ vocab ≠ ∅ ∧ length vectors < length chunks.
Proof.
  unfold performSearch.
  destruct (JsString.is_empty (JsString.trim query)) eqn:He.
  - split; [done|]. intros [Hne _]. by destruct (JsString.trim query).
  - assert (Hne : JsString.trim query ≠ "") by (by destruct (JsString.trim query)).
    destruct (score_chunks _ chunks vectors) as [all|] eqn:Hs; simpl.
    + split; [done|]. intros (_ & Hv & Hlen). exfalso.
      assert (score_chunks (createTfVector (tokenize query) vocab) chunks vectors = None);
        [|congruence].
      apply score_chunks_None. split; [|done].
      intros E. apply Hv. apply map_size_empty_inv.
      pose proof (createTfVector_length (tokenize query) vocab) as Hl.
      rewrite E in Hl. simpl in Hl. lia.
    + apply score_chunks_None in Hs as [Hq Hlen]. split; [|done].
      intros _. split_and!; [done| |done].
      intros ->. by rewrite createTfVector_empty in Hq.
Qed.

(** ** Numbering is stable *)

Lemma foldl_see_prefix {A} `{EqDecision A} (seen l : list A) :
  seen `prefix_of` foldl see seen l.
Proof.
  revert seen. induction l as [|x l IH]; intros seen; simpl; [done|].
  etransitivity; [|apply IH]. unfold see.
  destruct (decide (x ∈ seen)); [done|]. by apply prefix_app_r.
Qed.

(** X27: Chunks added to the end of a collection do not renumber its tokens:
    the vocabulary of the longer collection gives every token of the shorter
    one the index it had. *)
Theorem createVocabulary_stable (tokenizedDocs more : list (list string))
    (token : string) (index : nat) :
  createVocabulary tokenizedDocs !! token = Some index →
  createVocabulary (tokenizedDocs ++ more) !! token = Some index.
Proof.
  destruct (createVocabulary_first_seen tokenizedDocs) as [Hix _].
  destruct (createVocabulary_first_seen (tokenizedDocs ++ more)) as [Hix' _].
  intros Ht. apply Hix in Ht. apply Hix'.
  rewrite concat_app. unfold first_seen. rewrite foldl_app.
  destruct (foldl_see_prefix (foldl see [] (concat tokenizedDocs)) (concat more))
    as [rest ->].
  by apply lookup_app_l_Some.
Qed.

(** The vocabulary of the worked example, extended by a third chunk. *)
Lemma createVocabulary_stable_witness :
  createVocabulary ([["red"; "fox"]; ["blue"; "sky"]] ++ [["red"; "sky"; "at"; "night"]])
    !! "sky" = Some 3.
Proof.
  apply (createVocabulary_stable [["red"; "fox"]; ["blue"; "sky"]]
           [["red"; "sky"; "at"; "night"]] "sky" 3).
  vm_compute. reflexivity.
Defined.

(** ** The chat *)

(** X14: A question put while data is loaded and no reply is pending adds two
    messages to the chat, the question and the reply of the model, and ends
    with no reply pending. The search behind the reply always returns; the
    sources shown with an answer are the chunks it ranked, at most three, each
    a chunk of the loaded collection that shares a token with the question. *)
Theorem question_and_reply (JSON_stringify : list (Role * string) → string)
    (TypeError_message : string)
    (queryOverride : option string) (query : string) (reply : Reply)
    (st : App.State) (chunks : list VectorChunk)
    (index : list (list float) * gmap string nat) :
  consistent st →
  App.vectorData st = Some chunks →
  App.precomputedData st = Some index →
  App.isReplying st = false →
  (queryOverride = Some query
   ∨ (queryOverride = None ∨ queryOverride = Some "") ∧ App.chatInput st = query) →
  JsString.trim query ≠ "" →
  let st' := handleSendMessage JSON_stringify TypeError_message queryOverride reply st in
  ∃ results answer,
    performSearch query chunks index.1 index.2 = Some results ∧
    App.chatHistory st' = App.chatHistory st ++ [plain_message User query; answer] ∧
    App.isReplying st' = false ∧
    App.chatInput st' = "" ∧
    msg_role answer = Model ∧
    length results ≤ 3 ∧
    Forall (λ r, chunk r ∈ chunks ∧
                 ∃ t, t ∈ tokenize query ∧ t ∈ tokenize (chunk_text (chunk r)))
           results ∧
    ∀ modelResponseText, reply = Answer modelResponseText →
      msg_text answer = modelResponseText ∧
      msg_sources answer = Some (chunk <$> results).
Proof.
  intros Hc Hd Hp Hr Hq Hne st'.
  destruct Hc as (_ & _ & _ & _ & Hi).
  pose proof (Hi chunks index Hd Hp) as ->.
  destruct (performSearch_total query chunks (precomputeVectors chunks).1
              (precomputeVectors chunks).2 (precomputeVectors_length chunks))
    as [results Hs].
  destruct (performSearch_no_more_than_chunks _ _ _ _ _ Hs) as [Hlen _].
  pose proof (returned_chunk_shares_a_token query chunks results Hs) as Hshare.
  assert (Hquery :
    match queryOverride with
    | Some override => if JsString.is_empty override then App.chatInput st else override
    | None => App.chatInput st
    end = query).
  { destruct Hq as [->|[[->| ->] <-]]; try done.
    destruct query; [|done]. by destruct Hne. }
  assert (Hblank : JsString.is_empty (JsString.trim query) = false)
    by (by destruct (JsString.trim query)).
  unfold st', handleSendMessage. rewrite Hquery, Hd, Hp, Hblank, Hr, Hs.
  cbn [orb].
  destruct reply as [modelResponseText|message].
  - eexists results, _.
    split_and!; [done|cbn; by rewrite <- app_assoc|done|done|reflexivity|done|done|].
    intros ? [= <-]. cbn. by rewrite take_ge by lia.
  - eexists results, _.
    split_and!; [done|cbn; by rewrite <- app_assoc|done|done|reflexivity|done|done|done].
Qed.

(** The question [fox] put to the worked example. *)
Lemma question_and_reply_witness :
  ∃ results answer,
    performSearch "fox" example_collection example_index.1 example_index.2
    = Some results ∧
    App.chatHistory
      (handleSendMessage (λ _, "") "" (Some "fox") (Answer "A red one.") example_state)
    = App.chatHistory example_state ++ [plain_message User "fox"; answer] ∧
    msg_sources answer = Some (chunk <$> results).
Proof.
  destruct (question_and_reply (λ _, "") "" (Some "fox") "fox" (Answer "A red one.")
              example_state example_collection example_index)
    as (results & answer & H1 & H2 & _ & _ & _ & _ & _ & H3).
  - exact example_state_consistent.
  - vm_compute. reflexivity.
  - vm_compute. reflexivity.
  - reflexivity.
  - by left.
  - vm_compute. discriminate.
  - exists results, answer. split_and!; [done|done|]. by apply (H3 "A red one.").
Defined.

(** ** Truncated texts *)

(** ** Integers among the numbers *)

(** The number of a positive integer below 2^53: a mantissa and an exponent
    that denote it exactly. *)
Lemma Prim2SF_of_nat_pos (n : nat) :
  (0 < Z.of_nat n < 2 ^ 53)%Z →
  ∃ m e, Prim2SF (JsNum.of_nat n) = S754_finite false m e ∧
         (-52 <= e <= 0)%Z ∧ (Z.pos m = Z.of_nat n * 2 ^ (- e))%Z ∧
         bounded prec emax m e = true.
Proof.
  intros Hn. pose proof (Prim2SF_valid (JsNum.of_nat n)) as Hv. revert Hv.
  rewrite Binary64.Prim2SF_of_nat by lia.
  unfold binary_normalize.
  destruct (Z.of_nat n) as [|p|p] eqn:Ep; try lia.
  destruct (Binary64.binary_round_integer p ltac:(lia)) as (m & e & -> & He & Hm).
  intros Hv. by exists m, e.
Qed.

Lemma Prim2SF_of_nat_zero : Prim2SF (JsNum.of_nat 0) = S754_zero false.
Proof. reflexivity. Qed.

Lemma SFcompare_of_nat (a b : nat) :
  (Z.of_nat a < 2 ^ 53)%Z → (Z.of_nat b < 2 ^ 53)%Z →
  SFcompare (Prim2SF (JsNum.of_nat a)) (Prim2SF (JsNum.of_nat b))
  = Some (Z.of_nat a ?= Z.of_nat b)%Z.
Proof.
  intros Ha Hb.
  destruct (decide (a = 0)) as [->|Ha0], (decide (b = 0)) as [->|Hb0].
  - reflexivity.
  - destruct (Prim2SF_of_nat_pos b ltac:(lia)) as (m & e & -> & _).
    rewrite Prim2SF_of_nat_zero. unfold SFcompare. f_equal. symmetry.
    apply Z.compare_lt_iff. lia.
  - destruct (Prim2SF_of_nat_pos a ltac:(lia)) as (m & e & -> & _).
    rewrite Prim2SF_of_nat_zero. unfold SFcompare. f_equal. symmetry.
    apply Z.compare_gt_iff. lia.
  - destruct (Prim2SF_of_nat_pos a ltac:(lia)) as (ma & ea & -> & Hea & Hma & Hba).
    destruct (Prim2SF_of_nat_pos b ltac:(lia)) as (mb & eb & -> & Heb & Hmb & Hbb).
    pose proof (Binary64.aligned_difference ma mb ea eb Hba Hbb) as [_ Hd].
    cbn zeta in Hd.
    destruct (Binary64.shl_align_spec ma ea (Z.min ea eb) ltac:(lia)) as [Ea _].
    destruct (Binary64.shl_align_spec mb eb (Z.min ea eb) ltac:(lia)) as [Eb _].
    rewrite Ea, Eb, Hma, Hmb in Hd.
    rewrite <- !Z.mul_assoc, <- !Z.pow_add_r in Hd by lia.
    replace (- ea + (ea - Z.min ea eb))%Z with (- Z.min ea eb)%Z in Hd by lia.
    replace (- eb + (eb - Z.min ea eb))%Z with (- Z.min ea eb)%Z in Hd by lia.
    assert (Hp : (0 < 2 ^ (- Z.min ea eb))%Z) by (apply Z.pow_pos_nonneg; lia).
    destruct (SFcompare _ _) as [[]|]; [| | |done]; f_equal; symmetry.
    + apply Z.compare_eq_iff. nia.
    + apply Z.compare_lt_iff. nia.
    + apply Z.compare_gt_iff. nia.
Qed.

Lemma of_nat_leb (a b : nat) :
  (Z.of_nat a < 2 ^ 53)%Z → (Z.of_nat b < 2 ^ 53)%Z →
  PrimFloat.leb (JsNum.of_nat a) (JsNum.of_nat b) = (a <=? b).
Proof.
  intros Ha Hb. rewrite FloatAxioms.leb_spec. unfold SFleb.
  rewrite SFcompare_of_nat by done.
  destruct (Z.compare_spec (Z.of_nat a) (Z.of_nat b));
    destruct (Nat.leb_spec a b); try done; lia.
Qed.

Lemma end_index_of_nat (n len : nat) :
  (Z.of_nat n < 2 ^ 53)%Z → end_index (JsNum.of_nat n) len = n `min` len.
Proof.
  intros Hn. unfold end_index.
  destruct (decide (n = 0)) as [->|Hn0]; [done|].
  destruct (Prim2SF_of_nat_pos n ltac:(lia)) as (m & e & -> & He & Hm & _).
  assert (Hv : (if (0 <=? e)%Z then Z.pos m * 2 ^ e else Z.pos m / 2 ^ (- e))%Z
               = Z.of_nat n).
  { destruct (Z.leb_spec 0 e).
    - assert (e = 0%Z) as -> by lia. simpl in Hm. simpl. lia.
    - rewrite Hm. apply Z.div_mul. apply Z.pow_nonzero; lia. }
  rewrite Hv. lia.
Qed.

(** ** Strings *)

(** X15: What [truncateText] returns is never more than three characters
    longer than the text, whatever number the bound is. For a bound that is a
    natural number, a text within the bound is returned as it is, a longer one
    is cut to its first [n] characters, followed by three dots, and truncating
    twice is truncating once. *)
Theorem truncateText_cuts (text : string) :
  (∀ length, List.length (truncateText text length) ≤ List.length text + 3) ∧
  truncateText text JsNum.nan = "..." ∧
  ∀ n, (Z.of_nat (List.length text) < 2 ^ 53)%Z → (Z.of_nat n < 2 ^ 53 - 3)%Z →
    truncateText text (JsNum.of_nat n)
    = (if List.length text <=? n then text
       else take n text ++ "...") ∧
    truncateText (truncateText text (JsNum.of_nat n)) (JsNum.of_nat n)
    = truncateText text (JsNum.of_nat n).
Proof.
  assert (Hnat : ∀ (t : string) n,
    (Z.of_nat (List.length t) < 2 ^ 53)%Z → (Z.of_nat n < 2 ^ 53)%Z →
    truncateText t (JsNum.of_nat n)
    = (if List.length t <=? n then t else take n t ++ "...")).
  { intros t n Ht Hn. unfold truncateText.
    rewrite of_nat_leb, end_index_of_nat by done.
    destruct (Nat.leb_spec (List.length t) n); [done|].
    by rewrite Nat.min_l by lia. }
  split_and!.
  - intros length. unfold truncateText.
    destruct (PrimFloat.leb _ length); [lia|].
    rewrite length_app, length_take. simpl. lia.
  - unfold truncateText.
    replace (PrimFloat.leb (JsNum.of_nat (List.length text)) JsNum.nan) with false.
    + by destruct text.
    + symmetry. rewrite FloatAxioms.leb_spec.
      by destruct (Prim2SF (JsNum.of_nat (List.length text))) as [[]|[]| |[] ? ?].
  - intros n Ht Hn. split; [apply Hnat; lia|].
    rewrite (Hnat text n) by lia.
    destruct (Nat.leb_spec (List.length text) n) as [Hle|Hgt].
    + rewrite Hnat by lia. by rewrite (proj2 (Nat.leb_le _ _) Hle).
    + assert (Hlen : List.length (take n text) = n)
        by (rewrite length_take; lia).
      rewrite Hnat; [|rewrite length_app, Hlen; simpl; lia|lia].
      rewrite length_app, Hlen. simpl.
      destruct (Nat.leb_spec (n + 3) n); [lia|].
      rewrite <- Hlen at 1. by rewrite take_app_length.
Qed.

(** ** The tokenizer, continued *)

(** X21: The tokens are found code unit by code unit, lowering [A-Z], the
    Kelvin sign and the capital I with dot above and nothing else; every token
    is a word of [[a-z0-9_]] that is not empty; a text has no token exactly
    when all its characters are separators; and a separator splits a text
    into two that are tokenized apart. *)
Theorem tokenize_words (text : string) :
  tokenize text = word_runs [] (text ≫= word_lowercase) ∧
  Forall lower_word (tokenize text) ∧
  (tokenize text = [] ↔ Forall separator text) ∧
  ∀ c rest, separator c →
    tokenize (text ++ c :: rest) = tokenize text ++ tokenize rest.
Proof.
  split_and!.
  - apply tokenize_by_code_unit.
  - rewrite tokenize_by_code_unit. apply word_runs_lower; [constructor|].
    apply lowercase_no_capital.
  - rewrite tokenize_by_code_unit, word_runs_nil, lowercase_separators.
    split; [by intros [_ ?]|done].
  - intros c rest Hc. rewrite !tokenize_by_code_unit, bind_app, bind_cons.
    rewrite separator_lowercase by done. apply word_runs_separator, Hc.
Qed.

(** ** The listed sources *)

Lemma own_None {V} (o : list (string * V)) (k : string) :
  JsObject.own o k = None ↔ k ∉ o.*1.
Proof.
  induction o as [|[k' v] o IH]; cbn [JsObject.own].
  - split; [intros _ ?%elem_of_nil; done|done].
  - rewrite fmap_cons. destruct (string_eqb_spec k' k) as [->|Hne].
    + split; [done|]. intros H. destruct H. left.
    + rewrite IH, not_elem_of_cons. simpl. split; [by split; [congruence|]|by intros [_ ?]].
Qed.

Lemma replace_own_keys {V} (o : list (string * V)) (k : string) (v : V) :
  (JsObject.replace_own o k v).*1 = o.*1.
Proof.
  induction o as [|[k' v'] o IH]; [done|]. cbn [JsObject.replace_own].
  destruct (JsString.eqb k' k); rewrite !fmap_cons; [done|]. by rewrite IH.
Qed.

Lemma set_keys (o : list (string * CountVal)) (k : string) (v : CountVal) :
  NoDup o.*1 →
  NoDup (JsObject.set o k v).*1 ∧
  ∀ k', k' ∈ (JsObject.set o k v).*1 → k' ∈ o.*1 ∨ k' = k.
Proof.
  intros Hnd. unfold JsObject.set.
  destruct (JsObject.own o k) eqn:Ho.
  - rewrite replace_own_keys. auto.
  - destruct (JsObject.is_proto_accessor k); [auto|].
    rewrite fmap_app. simpl. split.
    + apply NoDup_app. split_and!; [done| |apply NoDup_singleton].
      intros k' Hk' ->%list_elem_of_singleton. by apply own_None in Ho.
    + intros k' [?|?%list_elem_of_singleton]%elem_of_app; auto.
Qed.

Lemma sourceCounts_keys (typedData : list VectorChunk) :
  NoDup (foldl count_source [] typedData).*1 ∧
  ∀ k, k ∈ (foldl count_source [] typedData).*1 → k ∈ chunk_source <$> typedData.
Proof.
  induction typedData as [|c typedData IH] using rev_ind.
  - split; [constructor|done].
  - rewrite foldl_app. simpl. destruct IH as [Hnd Hin].
    destruct (set_keys (foldl count_source [] typedData) (chunk_source c)
                (JsObject.or_zero_plus_one
                   (JsObject.get (foldl count_source [] typedData) (chunk_source c)))
                Hnd) as [Hnd' Hin'].
    split; [done|]. intros k Hk. rewrite fmap_app, elem_of_app.
    destruct (Hin' k Hk) as [?| ->]; [left; auto|right; simpl; left].
Qed.

(** X23: [topSources] never lists a source twice, and every source it lists is
    the source of a chunk of the collection. *)
Theorem topSources_distinct (data : JValue) (typedData : list VectorChunk)
    (summary : SummaryData) :
  validateAndProcessData data = Ok (typedData, summary) →
  NoDup (ts_source <$> topSources summary) ∧
  ∀ s, s ∈ ts_source <$> topSources summary → s ∈ chunk_source <$> typedData.
Proof.
  intros (items & -> & _ & -> & ->)%validate_Ok_inv.
  set (typedData := as_chunk <$> items).
  destruct (sourceCounts_keys typedData) as [Hnd Hin].
  unfold summarize. cbn [topSources].
  change (map ?f ?l) with (f <$> l).
  rewrite <- list_fmap_compose.
  change (ts_source ∘ _) with (@fst string CountVal).
  set (sorted := array_sort count_after (JsObject.entries (foldl count_source [] typedData))).
  assert (Hp : sorted.*1 ≡ₚ (foldl count_source [] typedData).*1).
  { unfold sorted. by rewrite (array_sort_perm count_after), entries_perm. }
  split.
  - rewrite fmap_take. eapply sublist_NoDup; [|apply sublist_take]. by rewrite Hp.
  - intros s Hs. apply Hin. rewrite <- Hp. rewrite fmap_take in Hs.
    by eapply subseteq_take.
Qed.

(** The sources of the worked example. *)
Lemma topSources_distinct_witness :
  NoDup (ts_source <$> topSources (summarize example_collection)) ∧
  ∀ s, s ∈ ts_source <$> topSources (summarize example_collection) →
       s ∈ chunk_source <$> example_collection.
Proof.
  apply (topSources_distinct example_data example_collection
           (summarize example_collection)).
  reflexivity.
Defined.

(** ** Sanity checks of the embedding *)

Example tokenize_mixed :
  tokenize "Red  fox_1, the-END" = ["red"; "fox_1"; "the"; "end"].
Proof. reflexivity. Qed.

Example trim_spaces : JsString.trim "  a b  " = "a b".
Proof. reflexivity. Qed.

(** Lower case beyond ASCII: the Kelvin sign and the capital I with dot
    above reach a word character, a capital sigma is final after a letter,
    a letter outside the basic plane is mapped as one code point, and a
    surrogate without its pair is kept. *)
Example tokenize_beyond_ascii :
  tokenize <$> [[0x212A%N]; "5" ++ [0x212A%N] ++ " water"; [0x130%N] ++ "stanbul";
                [0xC9%N] ++ "t" ++ [0xC9%N]]
  = [["k"]; ["5k"; "water"]; ["i"; "stanbul"]; ["t"]].
Proof. vm_compute. reflexivity. Qed.

Example toLowerCase_beyond_ascii :
  JsString.toLowerCase
    <$> [[0x391; 0x3A3]; [0x3A3]; [0x391; 0x3A3; 0x391]; [0xD801; 0xDC00];
         [0xD801; 0x41]; [0x130]; [0xC9]; [0xDF]]%N
  = [[0x3B1; 0x3C2]; [0x3C3]; [0x3B1; 0x3C3; 0x3B1]; [0xD801; 0xDC28];
     [0xD801; 0x61]; [0x69; 0x307]; [0xE9]; [0xDF]]%N.
Proof. vm_compute. reflexivity. Qed.

Example trim_beyond_ascii :
  JsString.trim ([0xFEFF; 0x2003]%N ++ "a b" ++ [0x3000; 0x2028; 0xA0]%N) = "a b".
Proof. vm_compute. reflexivity. Qed.

Example array_index_forms :
  JsObject.array_index <$> ["0"; "7"; "42"; "4294967294"; "4294967295"; "07"; "1.5"; "-1"; "x1"; ""]
  = [Some 0%N; Some 7%N; Some 42%N; Some 4294967294%N; None; None; None; None; None; None].
Proof. vm_compute. reflexivity. Qed.

Example entries_order :
  JsObject.keys [("b", 1); ("10", 2); ("a", 3); ("2", 4); ("01", 5)]
  = ["2"; "10"; "b"; "a"; "01"].
Proof. vm_compute. reflexivity. Qed.

Example array_sort_stable :
  array_sort fewer [("a", 1); ("b", 3); ("c", 1); ("d", 3); ("e", 2)]
  = [("b", 3); ("d", 3); ("e", 2); ("a", 1); ("c", 1)].
Proof. reflexivity. Qed.

Example example_summary :
  summarize example_collection
  = {| totalChunks := 2; uniqueSources := 1;
       topSources := [{| ts_source := "doc1"; ts_count := CNum 2 |}];
       totalTextLength := 15 |}.
Proof. vm_compute. reflexivity. Qed.

Example example_vectors :
  example_index.1 = [[1; 1; 0; 0]; [0; 0; 1; 1]]%float ∧
  (λ t, example_index.2 !! t) <$> ["red"; "fox"; "blue"; "sky"; "dog"]
  = [Some 0; Some 1; Some 2; Some 3; None].
Proof. split; vm_compute; reflexivity. Qed.

(** The text of a chunk as the query scores [2 / (sqrt 2 * sqrt 2)], the
    double just below [1]. *)
Example example_own_text :
  performSearch "red fox" example_collection example_index.1 example_index.2
  = Some [{| chunk := example_a; score := 0x1.ffffffffffffep-1%float |}].
Proof. vm_compute. reflexivity. Qed.

Example integers :
  nonneg_integer <$> [0; 10; 4503599627370497; 0.5; -1; PrimFloat.infinity; PrimFloat.nan]%float
  = [true; true; true; false; false; false; false].
Proof. vm_compute. reflexivity. Qed.

(** A deleted record is not found. *)
Lemma delete_then_get (id : Z) (db : gmap Z StoredVectorStore) :
  getVectorStore id (deleteVectorStore id db).2
  = (Resolved None, (deleteVectorStore id db).2).
Proof. unfold getVectorStore, deleteVectorStore. simpl. by rewrite lookup_delete_eq. Qed.
